(** * Badminton pairings: the match-scheduling core, embedded in Rocq

    The development follows the TypeScript sources:
    - the fixed-case generator ([shuffleArray], [getPairings], [addPairing],
      [calculatePairScore], [generateDoublesMatches], [generateSession]);
    - the general round-robin generator ([updatePlayerHistories],
      [findLeastPlayedPlayers], [findOptimalPairing], [generateRound],
      [generateSession], [generateNextRound]);
    - the handlers of [MatchesPage.tsx] that keep the completed-match list
      ([handleMatchComplete], [handleUndo]), its session effect and its
      grouping by round;
    - [generateMatches] of [PlayerSetup.tsx].

    Conventions.  JavaScript numbers that hold counts are [nat] (they are
    exact integers far below 2^53).  A JS [Set<string>] that is only added to
    and queried is a [gset string]; a JS [Map] that is only read by key is a
    [gmap]; a JS [Map] whose insertion order is observed is an association
    list.  Strings are compared bytewise, which is JavaScript's code-unit
    order on ASCII identifiers.  The ambient sources [Math.random],
    [crypto.randomUUID] and [Date.now] are read from an explicit [World]. *)

From Stdlib Require Import String Ascii.
From stdpp Require Import gmap strings list fin_maps sorting.


(** ** JavaScript primitives *)

Module Js.

(** The outcome of a call: a value, or a thrown exception with its message. *)
Inductive Res (A : Type) : Type :=
| Ok (a : A)
| Throw (msg : string).
Arguments Ok {A} a.
Arguments Throw {A} msg.

Definition typeError : string := "TypeError".

(** [[a, b].sort()]: the default sort orders strings by code units; two
    elements are exchanged exactly when the second is strictly smaller. *)
Definition sort2 (a b : string) : string * string :=
  if String.ltb b a then (b, a) else (a, b).

(** [[a, b].sort().join('-')] *)
Definition sortJoin (a b : string) : string :=
  let '(x, y) := sort2 a b in x +:+ "-" +:+ y.

Definition isHyphen (c : ascii) : bool := Ascii.eqb c "-"%char.

(** [s.split('-')] *)
Fixpoint split (s : string) : list string :=
  match s with
  | EmptyString => [EmptyString]
  | String c s' =>
      if isHyphen c then EmptyString :: split s'
      else match split s' with
           | [] => [String c EmptyString]
           | h :: t => String c h :: t
           end
  end.

(** A stable sort by an integer key: what [Array.prototype.sort] returns for
    a comparator of the shape [(a, b) => key(a) - key(b)]. *)
Section StableSort.
Context {A : Type} (key : A -> nat).

Fixpoint insertBy (x : A) (l : list A) : list A :=
  match l with
  | [] => [x]
  | y :: l' => if key x <=? key y then x :: y :: l' else y :: insertBy x l'
  end.

Fixpoint sortBy (l : list A) : list A :=
  match l with
  | [] => []
  | x :: l' => insertBy x (sortBy l')
  end.
End StableSort.

(** An insertion-ordered [Map<string, V>]. *)
Section OrderedMap.
Context {V : Type}.

Fixpoint mapGet (k : string) (m : list (string * V)) : option V :=
  match m with
  | [] => None
  | (k', v) :: m' => if String.eqb k k' then Some v else mapGet k m'
  end.

(** [m.set(k, v)]: an existing key keeps its position. *)
Fixpoint mapSet (k : string) (v : V) (m : list (string * V)) : list (string * V) :=
  match m with
  | [] => [(k, v)]
  | (k', v') :: m' =>
      if String.eqb k k' then (k', v) :: m' else (k', v') :: mapSet k v m'
  end.

(** Mutation of the object stored under [k] (nothing happens when the key
    is absent). *)
Fixpoint mapAlter (f : V -> V) (k : string) (m : list (string * V)) : list (string * V) :=
  match m with
  | [] => []
  | (k', v') :: m' =>
      if String.eqb k k' then (k', f v') :: m' else (k', v') :: mapAlter f k m'
  end.
End OrderedMap.

(** [[a[i], a[j]] = [a[j], a[i]]] on an array; both indices are in range at
    every call site. *)
Definition swap {A : Type} (l : list A) (i j : nat) : list A :=
  match l !! i, l !! j with
  | Some x, Some y => <[j := x]> (<[i := y]> l)
  | _, _ => l
  end.

End Js.

Import Js.

(** ** Ambient sources and the state-and-exception monad *)

(** What the program reads from its environment: the successive outcomes of
    [Math.random()], the successive results of [crypto.randomUUID()], and the
    clock read by [Date.now()].  An entry [r] of [rands] consumed by
    [Math.floor(Math.random() * n)] stands for the outcome [r mod n]; an
    exhausted tape reads as [0]. *)
Record World : Type := mkWorld {
  rands : list nat;
  uuids : list string;
  clock : nat
}.

Definition M (S A : Type) : Type := S -> Res A * S.

Definition ret {S A : Type} (a : A) : M S A := fun s => (Ok a, s).

Definition throw {S A : Type} (msg : string) : M S A := fun s => (Throw msg, s).

Definition bind {S A B : Type} (m : M S A) (f : A -> M S B) : M S B :=
  fun s => match m s with
           | (Ok a, s') => f a s'
           | (Throw msg, s') => (Throw msg, s')
           end.

Declare Scope js_scope.
Delimit Scope js_scope with js.
Notation "'let*' x ':=' c1 'in' c2" := (bind c1 (fun x => c2))
  (at level 10, x pattern, c1 at level 100, c2 at level 200) : js_scope.
Open Scope js_scope.

Definition get {S : Type} : M S S := fun s => (Ok s, s).
Definition put {S : Type} (s : S) : M S unit := fun _ => (Ok tt, s).

(** [Math.floor(Math.random() * n)] *)
Definition randomBelow (n : nat) : M World nat :=
  fun w => match rands w with
           | [] => (Ok 0, w)
           | r :: rs => (Ok (r mod n), mkWorld rs (uuids w) (clock w))
           end.

(** [crypto.randomUUID()] *)
Definition randomUUID : M World string :=
  fun w => match uuids w with
           | [] => (Ok EmptyString, w)
           | u :: us => (Ok u, mkWorld (rands w) us (clock w))
           end.

(** [Date.now()] *)
Definition dateNow : M World nat := fun w => (Ok (clock w), w).

(** The Fisher-Yates loop [for (let i = n - 1; i > 0; i--)] that the sources
    write three times. *)
Fixpoint shuffleLoop {A : Type} (i : nat) (arr : list A) : M World (list A) :=
  match i with
  | 0 => ret arr
  | S i' =>
      let* j := randomBelow (i + 1) in
      shuffleLoop i' (swap arr i j)
  end.

(** ** Data model ([types.ts]) *)

Record Player : Type := mkPlayer {
  playerId : string;     (* id *)
  playerName : string    (* name *)
}.

Inductive Side : Type := Left | Right.

Record Match : Type := mkMatch {
  matchId : string;      (* id *)
  players : list Player;
  court : nat;
  side : Side
}.

Record Session : Type := mkSession {
  sessionPlayers : list Player;   (* players *)
  numberOfCourts : nat;
  matches : list Match
}.

#[global] Instance Player_eq_dec : EqDecision Player.
Proof. solve_decision. Defined.
#[global] Instance Side_eq_dec : EqDecision Side.
Proof. solve_decision. Defined.
#[global] Instance Match_eq_dec : EqDecision Match.
Proof. solve_decision. Defined.

Definition ids (l : list Player) : list string := map playerId l.

(** ** The fixed-case generator *)

Module Fixed.

(** [shuffleArray]: a copy of the array, shuffled in place. *)
Definition shuffleArray {A : Type} (array : list A) : M World (list A) :=
  shuffleLoop (length array - 1) array.

Record PlayerPairing : Type := mkPairing {
  player1Id : string;
  player2Id : string;
  count : nat
}.

Record PlayerParticipation : Type := mkParticipation {
  player : Player;
  doublesMatchesPlayed : nat;
  singlesMatchesPlayed : nat;
  lastPlayed : option nat;
  partners : gset string;
  opponents : gset string
}.

(** [addPairing]; [(map.get(key) || 0) + 1]. *)
Definition addPairing (map : list (string * nat)) (player1Id player2Id : string)
  : list (string * nat) :=
  let pairingKey := sortJoin player1Id player2Id in
  mapSet pairingKey (default 0 (mapGet pairingKey map) + 1) map.

(** The body of [matches.forEach] in [getPairings]. *)
Definition addMatchPairings (map : list (string * nat)) (m : Match)
  : list (string * nat) :=
  match players m with
  | [a; b; c; d] =>
      let map := addPairing map (playerId a) (playerId b) in
      let map := addPairing map (playerId c) (playerId d) in
      foldl (fun map p1 =>
               foldl (fun map p2 => addPairing map (playerId p1) (playerId p2))
                     map [c; d])
            map [a; b]
  | _ => map
  end.

(** [pairingMap] when the [forEach] of [getPairings] is over. *)
Definition pairingMapOf (matches : list Match) : list (string * nat) :=
  foldl addMatchPairings [] matches.

(** [const [player1Id, player2Id] = key.split('-')]: the first two pieces.
    A key always holds a hyphen, so both pieces exist. *)
Definition toPairing (entry : string * nat) : PlayerPairing :=
  let parts := split (fst entry) in
  mkPairing (nth 0 parts EmptyString) (nth 1 parts EmptyString) (snd entry).

Definition getPairings (matches : list Match) : list PlayerPairing :=
  map toPairing (pairingMapOf matches).

Definition totalPlayed (p : option PlayerParticipation) : nat :=
  match p with
  | Some p => doublesMatchesPlayed p + singlesMatchesPlayed p
  | None => 0
  end.

Definition calculatePairScore (player1 player2 : Player)
    (pairings : list PlayerPairing)
    (participationMap : gmap string PlayerParticipation) : nat :=
  let pairingKey := sortJoin (playerId player1) (playerId player2) in
  let pairing :=
    List.find (fun p => String.eqb (sortJoin (player1Id p) (player2Id p)) pairingKey)
              pairings in
  let p1 := participationMap !! playerId player1 in
  let p2 := participationMap !! playerId player2 in
  let p1Matches := totalPlayed p1 in
  let p2Matches := totalPlayed p2 in
  match pairing with Some p => count p | None => 0 end * 10 + p1Matches + p2Matches.

(** *** Participation derived from the previous matches *)

Definition newParticipation (p : Player) : PlayerParticipation :=
  mkParticipation p 0 0 None ∅ ∅.

Definition initialParticipationMap (players : list Player)
  : gmap string PlayerParticipation :=
  foldl (fun map p => <[playerId p := newParticipation p]> map) ∅ players.

Definition addPartner (x : string) (p : PlayerParticipation) : PlayerParticipation :=
  mkParticipation (player p) (doublesMatchesPlayed p) (singlesMatchesPlayed p)
                  (lastPlayed p) ({[x]} ∪ partners p) (opponents p).

Definition addOpponent (x : string) (p : PlayerParticipation) : PlayerParticipation :=
  mkParticipation (player p) (doublesMatchesPlayed p) (singlesMatchesPlayed p)
                  (lastPlayed p) (partners p) ({[x]} ∪ opponents p).

Definition countMatch (isDoubles : bool) (now : nat) (p : PlayerParticipation)
  : PlayerParticipation :=
  mkParticipation (player p)
                  (if isDoubles then doublesMatchesPlayed p + 1 else doublesMatchesPlayed p)
                  (if isDoubles then singlesMatchesPlayed p else singlesMatchesPlayed p + 1)
                  (Some now) (partners p) (opponents p).

(** [if (x && y) { x.partners.add(y.player.id); y.partners.add(x.player.id) }],
    [x] and [y] being the objects stored under the ids [ka] and [kb]. *)
Definition linkPartners (ka kb : string) (x y : option PlayerParticipation)
    (map : gmap string PlayerParticipation) : gmap string PlayerParticipation :=
  match x, y with
  | Some x, Some y =>
      alter (addPartner (playerId (player x))) kb
            (alter (addPartner (playerId (player y))) ka map)
  | _, _ => map
  end.

(** [if (p1) ... if (p2) { p1.opponents.add(p2.player.id);
    p2.opponents.add(p1.player.id) }] *)
Definition linkOpponents (ka kb : string) (p1 p2 : option PlayerParticipation)
    (map : gmap string PlayerParticipation) : gmap string PlayerParticipation :=
  match p1, p2 with
  | Some x, Some y =>
      alter (addOpponent (playerId (player x))) kb
            (alter (addOpponent (playerId (player y))) ka map)
  | _, _ => map
  end.

(** The part of the [previousMatches.forEach] body guarded by
    [match.players.length === 4]. *)
Definition recordTeams (map : gmap string PlayerParticipation) (m : Match)
  : gmap string PlayerParticipation :=
  match players m with
  | [a; b; c; d] =>
      let player1 := map !! playerId a in
      let player2 := map !! playerId b in
      let player3 := map !! playerId c in
      let player4 := map !! playerId d in
      let map := linkPartners (playerId a) (playerId b) player1 player2 map in
      let map := linkPartners (playerId c) (playerId d) player3 player4 map in
      foldl (fun map '(k1, p1) =>
               foldl (fun map '(k2, p2) => linkOpponents k1 k2 p1 p2 map)
                     map [(playerId c, player3); (playerId d, player4)])
            map [(playerId a, player1); (playerId b, player2)]
  | _ => map
  end.

(** The [match.players.forEach] that updates the match counts. *)
Definition recordCounts (now : nat) (map : gmap string PlayerParticipation) (m : Match)
  : gmap string PlayerParticipation :=
  foldl (fun map p => alter (countMatch (length (players m) =? 4) now) (playerId p) map)
        map (players m).

(** The whole body of [previousMatches.forEach]. *)
Definition recordMatch (now : nat) (map : gmap string PlayerParticipation) (m : Match)
  : gmap string PlayerParticipation :=
  recordCounts now (recordTeams map m) m.

Definition participationOf (now : nat) (players : list Player) (previousMatches : list Match)
  : gmap string PlayerParticipation :=
  foldl (recordMatch now) (initialParticipationMap players) previousMatches.

Definition singlesPlayed (p : option PlayerParticipation) : nat :=
  match p with Some p => singlesMatchesPlayed p | None => 0 end.

(** *** The eight-player branch *)

Definition Pair : Type := Player * Player.

(** Step 1: [for i ... for j = i + 1 ...] *)
Fixpoint allPossiblePairs (players : list Player) : list Pair :=
  match players with
  | [] => []
  | p :: rest => map (fun q => (p, q)) rest ++ allPossiblePairs rest
  end.

Definition pairScore (pairings : list PlayerPairing)
    (participationMap : gmap string PlayerParticipation) (pr : Pair) : nat :=
  calculatePairScore (fst pr) (snd pr) pairings participationMap.

(** Steps 2 and 3: score every pair and sort ascending; the score travels
    with the pair as in [{pair, score}]. *)
Definition scoredPairs (players : list Player) (pairings : list PlayerPairing)
    (participationMap : gmap string PlayerParticipation) : list (Pair * nat) :=
  sortBy snd (map (fun pr => (pr, pairScore pairings participationMap pr))
                  (allPossiblePairs players)).

(** Step 5: the loop over [selectedPairs]; the state is
    [(usedPlayerIds, finalPairs)]. *)
Fixpoint selectPairs (selectedPairs : list (Pair * nat))
    (usedPlayerIds : gset string) (finalPairs : list Pair)
  : gset string * list Pair :=
  match selectedPairs with
  | [] => (usedPlayerIds, finalPairs)
  | (pr, _) :: rest =>
      if bool_decide (playerId (fst pr) ∉ usedPlayerIds)
         && bool_decide (playerId (snd pr) ∉ usedPlayerIds)
      then
        let finalPairs := finalPairs ++ [pr] in
        let usedPlayerIds := {[playerId (snd pr)]} ∪ ({[playerId (fst pr)]} ∪ usedPlayerIds) in
        if length finalPairs =? 4 then (usedPlayerIds, finalPairs)
        else selectPairs rest usedPlayerIds finalPairs
      else selectPairs rest usedPlayerIds finalPairs
  end.

(** [for (let i = 0; i < shuffledRemaining.length - 1; i += 2)] with its
    [break] at four pairs. *)
Fixpoint pushRandomPairs (shuffledRemaining : list Player) (finalPairs : list Pair)
  : list Pair :=
  match shuffledRemaining with
  | a :: b :: rest =>
      let finalPairs := finalPairs ++ [(a, b)] in
      if length finalPairs =? 4 then finalPairs else pushRandomPairs rest finalPairs
  | _ => finalPairs
  end.

(** [for (let i = 0; i < shuffledPlayers.length; i += 2)].  The loop runs
    on a shuffle of the eight players, so every pair is complete; on an odd
    length the last pair would hold [undefined], whose [id] step 6 reads. *)
Fixpoint pairAll (shuffledPlayers : list Player) : M World (list Pair) :=
  match shuffledPlayers with
  | [] => ret []
  | [_] => throw typeError
  | a :: b :: rest => let* ps := pairAll rest in ret ((a, b) :: ps)
  end.

(** Steps 4 and 5 with the two random fallbacks: the final pairs. *)
Definition choosePairs (players : list Player) (pairings : list PlayerPairing)
    (participationMap : gmap string PlayerParticipation) : M World (list Pair) :=
  let selectedPairs := take 4 (scoredPairs players pairings participationMap) in
  let '(usedPlayerIds, finalPairs) := selectPairs selectedPairs ∅ [] in
  let* finalPairs :=
    if length finalPairs <? 4 then
      let remainingPlayers := filter (fun p => playerId p ∉ usedPlayerIds) players in
      if 2 <=? length remainingPlayers then
        let* shuffledRemaining := shuffleArray remainingPlayers in
        ret (pushRandomPairs shuffledRemaining finalPairs)
      else ret finalPairs
    else ret finalPairs in
  if length finalPairs <? 4 then
    let* shuffledPlayers := shuffleArray players in
    pairAll shuffledPlayers
  else ret finalPairs.

Section Arrange.
Variable pairings : list PlayerPairing.
Variable participationMap : gmap string PlayerParticipation.

Let score (a b : Player) : nat := calculatePairScore a b pairings participationMap.

Definition option1Score (pair1 pair2 pair3 pair4 : Pair) : nat :=
  score (fst pair1) (snd pair1) + score (fst pair2) (snd pair2)
  + score (fst pair3) (snd pair3) + score (fst pair4) (snd pair4).

Definition option2Score (pair1 pair2 pair3 pair4 : Pair) : nat :=
  score (fst pair1) (fst pair3) + score (snd pair1) (snd pair3)
  + score (fst pair2) (fst pair4) + score (snd pair2) (snd pair4).

Definition option3Score (pair1 pair2 pair3 pair4 : Pair) : nat :=
  score (fst pair1) (fst pair4) + score (snd pair1) (snd pair4)
  + score (fst pair2) (fst pair3) + score (snd pair2) (snd pair3).

(** Step 6: [(court1Players, court2Players)]. *)
Definition arrangeCourts (pair1 pair2 pair3 pair4 : Pair)
  : list Player * list Player :=
  let o1 := option1Score pair1 pair2 pair3 pair4 in
  let o2 := option2Score pair1 pair2 pair3 pair4 in
  let o3 := option3Score pair1 pair2 pair3 pair4 in
  if (o1 <=? o2) && (o1 <=? o3) then
    ([fst pair1; snd pair1; fst pair2; snd pair2],
     [fst pair3; snd pair3; fst pair4; snd pair4])
  else if (o2 <=? o1) && (o2 <=? o3) then
    ([fst pair1; snd pair1; fst pair3; snd pair3],
     [fst pair2; snd pair2; fst pair4; snd pair4])
  else
    ([fst pair1; snd pair1; fst pair4; snd pair4],
     [fst pair2; snd pair2; fst pair3; snd pair3]).
End Arrange.

(** [matches.push({id: crypto.randomUUID(), players, court, side: 'left'})] *)
Definition pushMatch (matches : list Match) (ps : list Player) (court : nat)
  : M World (list Match) :=
  let* uuid := randomUUID in
  ret (matches ++ [mkMatch uuid ps court Left]).

(** [generateDoublesMatches].  [lastPlayed] is written and never read; one
    reading of the clock stamps every update of a call.  The branches for
    four to seven players read [sortedPlayers[0..3]] and
    [singlesPlayers[0..]], which exist since the array has that many
    players. *)
Definition generateDoublesMatches (players : list Player) (numberOfCourts : nat)
    (previousMatches : list Match) : M World (list Match) :=
  let* now := dateNow in
  let participationMap := participationOf now players previousMatches in
  let pairings := getPairings previousMatches in
  let sortedPlayers := sortBy (fun p => totalPlayed (participationMap !! playerId p)) players in
  let singlesPlayers :=
    sortBy (fun p => singlesPlayed (participationMap !! playerId p)) (drop 4 sortedPlayers) in
  match length players with
  | 4 | 5 => pushMatch [] (take 4 sortedPlayers) 1
  | 6 =>
      if numberOfCourts =? 1 then pushMatch [] (take 4 sortedPlayers) 1
      else
        let* matches := pushMatch [] (take 4 sortedPlayers) 1 in
        pushMatch matches (take 2 singlesPlayers) 2
  | 7 =>
      if numberOfCourts =? 1 then pushMatch [] (take 4 sortedPlayers) 1
      else
        let* matches := pushMatch [] (take 4 sortedPlayers) 1 in
        pushMatch matches (take 3 singlesPlayers) 2
  | 8 =>
      let* finalPairs := choosePairs players pairings participationMap in
      match finalPairs with
      | pair1 :: pair2 :: pair3 :: pair4 :: _ =>
          let '(court1Players, court2Players) :=
            arrangeCourts pairings participationMap pair1 pair2 pair3 pair4 in
          let* matches := pushMatch [] court1Players 1 in
          pushMatch matches court2Players 2
      | _ => throw typeError
      end
  | _ => ret []
  end.

Definition validationError : string := "Need at least 4 players to generate matches".

Definition generateSession (players : list Player) (numberOfCourts : nat)
    (previousMatches : list Match) : M World Session :=
  if length players <? 4 then throw validationError
  else
    let* matches := generateDoublesMatches players numberOfCourts previousMatches in
    ret (mkSession players numberOfCourts matches).

End Fixed.

(** ** The general round-robin generator *)

Module General.

Record PlayerHistory : Type := mkHistory {
  player : Player;
  gamesPlayed : nat;
  partners : gset string;
  opponents : gset string
}.

(** [Map<string, PlayerHistory>]; its insertion order is read by
    [findLeastPlayedPlayers]. *)
Abbreviation Histories := (list (string * PlayerHistory)).

(** The module-level variables [currentRound] and [globalPlayerHistories],
    together with the ambient sources. *)
Record Env : Type := mkEnv {
  currentRound : nat;
  globalPlayerHistories : Histories;
  ambient : World
}.

Definition liftW {A : Type} (m : M World A) : M Env A :=
  fun e => let '(r, w) := m (ambient e) in
           (r, mkEnv (currentRound e) (globalPlayerHistories e) w).

Definition liftH {A : Type} (m : M Histories A) : M Env A :=
  fun e => let '(r, h) := m (globalPlayerHistories e) in
           (r, mkEnv (currentRound e) h (ambient e)).

Definition setCurrentRound (n : nat) : M Env unit :=
  fun e => (Ok tt, mkEnv n (globalPlayerHistories e) (ambient e)).

Definition createPlayerHistory (player : Player) : PlayerHistory :=
  mkHistory player 0 ∅ ∅.

Definition played (h : PlayerHistory) : PlayerHistory :=
  mkHistory (player h) (gamesPlayed h + 1) (partners h) (opponents h).

Definition addPartners (l : list Player) (h : PlayerHistory) : PlayerHistory :=
  mkHistory (player h) (gamesPlayed h) (list_to_set (ids l) ∪ partners h) (opponents h).

Definition addOpponents (l : list Player) (h : PlayerHistory) : PlayerHistory :=
  mkHistory (player h) (gamesPlayed h) (partners h) (list_to_set (ids l) ∪ opponents h).

(** One iteration of the second loop of [updatePlayerHistories], for the
    player at index [i].  [midPoint] is [numPlayers / 2] as a JavaScript
    number.  For an even [numPlayers] the two ranges are the two halves.
    For an odd one [midPoint] is fractional: [i < midPoint] means
    [i <= numPlayers div 2], the team range of a first-half player is
    [0 .. numPlayers div 2], and every loop that starts at [midPoint]
    reads [match.players[midPoint]], which is [undefined], and throws on
    its [id]. *)
Definition linkPlayer (ps : list Player) (i : nat) (p : Player) : M Histories unit :=
  fun histories =>
    match mapGet (playerId p) histories with
    | None => (Ok tt, histories)
    | Some _ =>
        let numPlayers := length ps in
        let half := numPlayers / 2 in
        if Nat.even numPlayers then
          let isFirstHalf := i <? half in
          let team := if isFirstHalf then delete i (take half ps)
                      else delete (i - half) (drop half ps) in
          let opps := if isFirstHalf then drop half ps else take half ps in
          (Ok tt, mapAlter (fun h => addOpponents opps (addPartners team h))
                           (playerId p) histories)
        else if i <=? half then
          (Throw typeError,
           mapAlter (addPartners (delete i (take (half + 1) ps))) (playerId p) histories)
        else (Throw typeError, histories)
    end.

(** [for (let i = 0; i < numPlayers; i++)], [rest] being the players from
    index [i] on. *)
Fixpoint linkPlayers (ps : list Player) (i : nat) (rest : list Player) : M Histories unit :=
  match rest with
  | [] => ret tt
  | p :: rest' => let* _ := linkPlayer ps i p in linkPlayers ps (i + 1) rest'
  end.

Definition updatePlayerHistories (m : Match) : M Histories unit :=
  let* _ := (fun histories =>
               (Ok tt, foldl (fun hs p => mapAlter played (playerId p) hs)
                             histories (players m))) in
  linkPlayers (players m) 0 (players m).

Definition findLeastPlayedPlayers (histories : Histories) (count : nat) : list Player :=
  map player (take count (sortBy gamesPlayed (map snd histories))).

(** [history1?.partners.has(player2.id)] *)
Definition partneredBefore (histories : Histories) (player1 player2 : Player) : bool :=
  match mapGet (playerId player1) histories with
  | Some history1 => bool_decide (playerId player2 ∈ partners history1)
  | None => false
  end.

(** [for j ... for k = j + 1 ...] over one side. *)
Fixpoint countShared (histories : Histories) (sidePlayers : list Player) : nat :=
  match sidePlayers with
  | [] => 0
  | p :: rest => length (filter (fun q => partneredBefore histories p q = true) rest)
                 + countShared histories rest
  end.

(** The two counting loops of [findOptimalPairing].  With an odd number of
    at least three players the second loop starts at the fractional
    [midPoint] and throws on [player1.id]. *)
Definition sharedPartnerships (histories : Histories) (shuffled : list Player) : Res nat :=
  let numPlayers := length shuffled in
  let half := numPlayers / 2 in
  if Nat.even numPlayers then
    Ok (countShared histories (take half shuffled)
        + countShared histories (drop half shuffled))
  else if 3 <=? numPlayers then Throw typeError
  else Ok (countShared histories (take (half + 1) shuffled)).

(** The loop [for (let i = 0; i < 100; i++)]; [None] is [Infinity]. *)
Fixpoint searchLoop (iterations : nat) (players : list Player) (histories : Histories)
    (bestPairing : list Player) (minSharedPartnerships : option nat)
  : M World (list Player) :=
  match iterations with
  | 0 => ret bestPairing
  | S iterations' =>
      let* shuffled := shuffleLoop (length players - 1) players in
      match sharedPartnerships histories shuffled with
      | Throw msg => throw msg
      | Ok shared =>
          if match minSharedPartnerships with
             | None => true
             | Some best => shared <? best
             end
          then
            if shared =? 0 then ret shuffled
            else searchLoop iterations' players histories shuffled (Some shared)
          else searchLoop iterations' players histories bestPairing minSharedPartnerships
      end
  end.

Definition findOptimalPairing (players : list Player) (histories : Histories)
  : M World (list Player) :=
  searchLoop 100 players histories players None.

(** The loop [for (let court = 1; court <= numberOfCourts; court++)];
    [remaining] counts the iterations left.  [Math.random() < 0.5] is the
    outcome [0] of a draw below two. *)
Fixpoint courtLoop (remaining court : nat) (shuffledPlayers : list Player)
    (roundMatches : list Match) : M Env (list Match) :=
  match remaining with
  | 0 => ret roundMatches
  | S remaining' =>
      let courtPlayers := take 4 (drop ((court - 1) * 4) shuffledPlayers) in
      let* e := get in
      let* optimizedPlayers :=
        liftW (findOptimalPairing courtPlayers (globalPlayerHistories e)) in
      let* uuid := liftW randomUUID in
      let* r := liftW (randomBelow 2) in
      let m := mkMatch uuid optimizedPlayers court (if r =? 0 then Left else Right) in
      let* _ := liftH (updatePlayerHistories m) in
      courtLoop remaining' (court + 1) shuffledPlayers (roundMatches ++ [m])
  end.

(** [generateRound]; the argument [playerHistories] is always the global
    map, and [players] is not read. *)
Definition generateRound (players : list Player) (numberOfCourts : nat)
  : M Env (list Match) :=
  let playersNeeded := numberOfCourts * 4 in
  let* e := get in
  let selectedPlayers := findLeastPlayedPlayers (globalPlayerHistories e) playersNeeded in
  if length selectedPlayers <? playersNeeded then ret []
  else
    let* shuffledPlayers :=
      liftW (shuffleLoop (length selectedPlayers - 1) selectedPlayers) in
    courtLoop numberOfCourts 1 shuffledPlayers [].

(** [matches.forEach(match => updatePlayerHistories(histories, match))] *)
Fixpoint updateAll (ms : list Match) : M Histories unit :=
  match ms with
  | [] => ret tt
  | m :: ms' => let* _ := updatePlayerHistories m in updateAll ms'
  end.

Definition validationError : string := "Need at least 4 players to generate matches".

Definition generateSession (players : list Player) (numberOfCourts : nat)
    (previousMatches : list Match) : M Env Session :=
  if length players <? 4 then throw validationError
  else
    let* _ := setCurrentRound 1 in
    let* _ := liftH (fun _ =>
                (Ok tt, foldl (fun hs p => mapSet (playerId p) (createPlayerHistory p) hs)
                              [] players)) in
    let* _ := liftH (updateAll previousMatches) in
    let* matches := generateRound players numberOfCourts in
    ret (mkSession players numberOfCourts matches).

Definition generateNextRound (players : list Player) (numberOfCourts : nat)
    (completedMatches : list Match) : M Env (list Match) :=
  let* _ := liftH (updateAll completedMatches) in
  let* e := get in
  let* _ := setCurrentRound (currentRound e + 1) in
  generateRound players numberOfCourts.

Definition getCurrentRound : M Env nat :=
  let* e := get in ret (currentRound e).

(** The module as loaded: [currentRound = 1], no histories. *)
Definition initialEnv (w : World) : Env := mkEnv 1 [] w.

End General.

(** ** The completed-match bookkeeping of [MatchesPage.tsx] *)

Module Page.

Record PlayerStats : Type := mkStats {
  player : Player;
  doublesMatchesPlayed : nat;
  singlesMatchesPlayed : nat
}.

Record MatchState : Type := mkMatchState {
  match_ : Match;                 (* match *)
  completed : bool;
  completedAt : option nat;
  round : nat
}.

(** The [useState] cells of the component. *)
Record State : Type := mkState {
  session : Session;
  matchStates : list MatchState;
  playerStats : list PlayerStats;
  allCompletedMatches : list Match;
  lastCompletedMatch : option MatchState;
  currentRound : nat
}.

(** [match.players.some(p => p.id === stat.player.id)] *)
Definition playsIn (m : Match) (stat : PlayerStats) : bool :=
  existsb (fun p => String.eqb (playerId p) (playerId (player stat))) (players m).

Definition hasId (matchId' : string) (ms : MatchState) : bool :=
  String.eqb (matchId (match_ ms)) matchId'.

(** [handleMatchComplete]; [now] is the reading of [Date.now()]. *)
Definition handleMatchComplete (now : nat) (matchId' : string) (s : State) : State :=
  match List.find (hasId matchId') (matchStates s) with
  | None => s
  | Some matchState =>
      if completed matchState then s
      else
        let isDoublesMatch := length (players (match_ matchState)) =? 4 in
        mkState
          (session s)
          (map (fun ms => if hasId matchId' ms
                          then mkMatchState (match_ ms) true (Some now) (round ms)
                          else ms)
               (matchStates s))
          (map (fun stat =>
                  if playsIn (match_ matchState) stat then
                    mkStats (player stat)
                            (if isDoublesMatch then doublesMatchesPlayed stat + 1
                             else doublesMatchesPlayed stat)
                            (if negb isDoublesMatch then singlesMatchesPlayed stat + 1
                             else singlesMatchesPlayed stat)
                  else stat)
               (playerStats s))
          (allCompletedMatches s ++ [match_ matchState])
          (Some matchState)
          (currentRound s)
  end.

Definition handleUndo (s : State) : State :=
  match lastCompletedMatch s with
  | None => s
  | Some last =>
      let matchIdToUndo := matchId (match_ last) in
      let isDoublesMatch := length (players (match_ last)) =? 4 in
      mkState
        (session s)
        (map (fun ms => if hasId matchIdToUndo ms
                        then mkMatchState (match_ ms) false None (round ms)
                        else ms)
             (matchStates s))
        (map (fun stat =>
                if playsIn (match_ last) stat then
                  mkStats (player stat)
                          (if isDoublesMatch then Nat.max 0 (doublesMatchesPlayed stat - 1)
                           else doublesMatchesPlayed stat)
                          (if negb isDoublesMatch
                           then Nat.max 0 (singlesMatchesPlayed stat - 1)
                           else singlesMatchesPlayed stat)
                else stat)
             (playerStats s))
        (List.filter (fun m => negb (String.eqb (matchId m) matchIdToUndo))
                     (allCompletedMatches s))
        None
        (currentRound s)
  end.

(** The values the [useState] cells start from. *)
Definition initialState (initialSession : Session) : State :=
  mkState initialSession [] [] [] None 1.

(** The body of the effect that follows [session]: every match of the
    session keeps the state it has ([matchStates.find]) or starts pending in
    the current round; the statistics are created when there are none. *)
Definition syncSession (s : State) : State :=
  let updatedStates :=
    map (fun m => match List.find (hasId (matchId m)) (matchStates s) with
                  | Some existingState => existingState
                  | None => mkMatchState m false None (currentRound s)
                  end)
        (matches (session s)) in
  mkState (session s)
          updatedStates
          (if length (playerStats s) =? 0
           then map (fun p => mkStats p 0 0) (sessionPlayers (session s))
           else playerStats s)
          (allCompletedMatches s)
          (lastCompletedMatch s)
          (currentRound s).

(** [match.round || 1] *)
Definition roundOf (ms : MatchState) : nat :=
  if round ms =? 0 then 1 else round ms.

(** [matchesByRound]: the [reduce] that groups the match states in an
    object keyed by round. *)
Definition matchesByRound (matchStates : list MatchState) : gmap nat (list MatchState) :=
  foldl (fun acc ms =>
           let round := roundOf ms in
           let acc := match acc !! round with
                      | None => <[round := []]> acc
                      | Some _ => acc
                      end in
           alter (fun group => group ++ [ms]) round acc)
        ∅ matchStates.

End Page.

(** ** The roster form of [PlayerSetup.tsx] *)

Module Setup.

Record State : Type := mkState {
  players : list Player;
  numberOfCourts : nat;
  error : option string
}.

(** [generateMatches], for a generator [generateSession] over the state
    [G]; the first component is the session handed to
    [onSessionGenerated], if any.  Every exception of the generators is an
    [Error], whose message becomes the error shown. *)
Definition generateMatches {G : Type}
    (generateSession : list Player -> nat -> list Match -> M G Session)
    (s : State) (g : G) : option Session * State * G :=
  match generateSession (players s) (numberOfCourts s) [] g with
  | (Ok session, g') => (Some session, mkState (players s) (numberOfCourts s) None, g')
  | (Throw msg, g') => (None, mkState (players s) (numberOfCourts s) (Some msg), g')
  end.

End Setup.


(** ** Definitions that follow the specification's wording

    They are compared with the definitions taken from the sources. *)

Module Spec.

(** "as many full-court matches as possible": with [available] players and
    [courts] courts, the number of courts that four players each can fill. *)
Definition fullCourts (available courts : nat) : nat :=
  Nat.min courts (available / 4).

(** "every same-side pair and every cross-side pair" of a match: every two
    of its players, by position. *)
Definition courtPairs (m : Match) : list (string * string) :=
  map (fun pr => (playerId (fst pr), playerId (snd pr)))
      (Fixed.allPossiblePairs (players m)).

(** The unordered pair {x, y}. *)
Definition samePair (x y : string) (pr : string * string) : Prop :=
  pr = (x, y) \/ pr = (y, x).

(** "Pairing frequency: count of times two specific players have shared a
    court (as teammates or opponents)." *)
Definition pairFrequency (history : list Match) (x y : string) : nat :=
  length (filter (samePair x y) (concat (map courtPairs history))).

(** "first-fit: skip a candidate pair if either member is already used":
    a member is used when a pair chosen so far holds a player with its id. *)
Definition memberIds (chosen : list Fixed.Pair) : list string :=
  concat (map (fun pr => [playerId (fst pr); playerId (snd pr)]) chosen).

Definition sharesPlayer (pr : Fixed.Pair) (chosen : list Fixed.Pair) : bool :=
  bool_decide (playerId (fst pr) ∈ memberIds chosen)
  || bool_decide (playerId (snd pr) ∈ memberIds chosen).

(** "greedily select the 4 lowest-scoring pairs that share no player", over
    the candidates in the order given, starting from the pairs [chosen]. *)
Fixpoint firstFit (candidates chosen : list Fixed.Pair) : list Fixed.Pair :=
  match candidates with
  | [] => chosen
  | pr :: rest =>
      if length chosen =? 4 then chosen
      else if sharesPlayer pr chosen then firstFit rest chosen
           else firstFit rest (chosen ++ [pr])
  end.

(** The players of a list of pairs, pair by pair. *)
Definition members (pairs : list Fixed.Pair) : list Player :=
  concat (map (fun pr => [fst pr; snd pr]) pairs).

(** The three ways to put the four final pairs on two courts:
    {P1+P2 vs P3+P4}, {P1+P3 vs P2+P4}, {P1+P4 vs P2+P3}; each court lists
    its first pair, then its second. *)
Definition grouping (k : nat) (p1 p2 p3 p4 : Fixed.Pair) : list Player * list Player :=
  match k with
  | 1 => ([fst p1; snd p1; fst p2; snd p2], [fst p3; snd p3; fst p4; snd p4])
  | 2 => ([fst p1; snd p1; fst p3; snd p3], [fst p2; snd p2; fst p4; snd p4])
  | _ => ([fst p1; snd p1; fst p4; snd p4], [fst p2; snd p2; fst p3; snd p3])
  end.

Section Grouping.
Variable score : Player -> Player -> nat.

(** "each cross-pair combination within a team": the four player
    combinations between the two pairs that share a court. *)
Definition crossScore (p q : Fixed.Pair) : nat :=
  score (fst p) (fst q) + score (fst p) (snd q)
  + score (snd p) (fst q) + score (snd p) (snd q).

Definition groupingTotal (k : nat) (p1 p2 p3 p4 : Fixed.Pair) : nat :=
  match k with
  | 1 => crossScore p1 p2 + crossScore p3 p4
  | 2 => crossScore p1 p3 + crossScore p2 p4
  | _ => crossScore p1 p4 + crossScore p2 p3
  end.

(** "choose the grouping with the lowest total (ties broken by
    enumeration order)". *)
Definition chooseGrouping (p1 p2 p3 p4 : Fixed.Pair) : nat :=
  let t1 := groupingTotal 1 p1 p2 p3 p4 in
  let t2 := groupingTotal 2 p1 p2 p3 p4 in
  let t3 := groupingTotal 3 p1 p2 p3 p4 in
  if (t1 <=? t2) && (t1 <=? t3) then 1
  else if t2 <=? t3 then 2 else 3.
End Grouping.

End Spec.


(** ** Concrete rosters and histories used by the examples *)

Module Examples.

Definition P (s : string) : Player := mkPlayer s s.

Definition sixPlayers : list Player := map P ["a"; "b"; "c"; "d"; "e"; "f"].

Definition eightPlayers : list Player :=
  map P ["a"; "b"; "c"; "d"; "e"; "f"; "g"; "h"].

(** One completed doubles match: a and b against c and d. *)
Definition firstMatch : Match := mkMatch "m0" (map P ["a"; "b"; "c"; "d"]) 1 Left.

(** [Math.random] outcomes that make a Fisher-Yates shuffle of six elements
    exchange every element with itself. *)
Definition identityTape : list nat := [5; 4; 3; 2; 1].

Definition quietWorld : World := mkWorld identityTape ["u1"; "u2"] 0.

(** Four players with the ids that [crypto.randomUUID()] gives them in
    [PlayerSetup.tsx], and their first doubles match. *)
Definition ann : Player := mkPlayer "6f1c2a9e-5b7d-4e3a-9c1f-2d8b7a6e5f40" "Ann".
Definition bob : Player := mkPlayer "0b9e4d17-8a2c-4f6b-b3d5-7e1a9c4f2d68" "Bob".
Definition cyd : Player := mkPlayer "c47a1e05-3d9b-4a8e-8f27-5b6c0d1e9a34" "Cyd".
Definition dee : Player := mkPlayer "9d3f7b26-1c5e-4b0a-a6e8-4f2d8c7b1e59" "Dee".

Definition uuidRoster : list Player := [ann; bob; cyd; dee].

Definition uuidMatch : Match :=
  mkMatch "e2a5c8f1-7b4d-4c9e-9a13-6d0f3b8e2c75" [ann; bob; cyd; dee] 1 Left.

(** A singles match, and a match of three. *)
Definition singlesMatch : Match := mkMatch "m1" (map P ["a"; "b"]) 2 Left.
Definition threeMatch : Match := mkMatch "m2" (map P ["a"; "b"; "c"]) 2 Left.

Definition fourPlayers : list Player := map P ["a"; "b"; "c"; "d"].

(** The page right after the first round of four players was generated. *)
Definition freshPage : Page.State :=
  Page.mkState (mkSession (map P ["a"; "b"; "c"; "d"]) 1 [firstMatch])
               [Page.mkMatchState firstMatch false None 1]
               (map (fun p => Page.mkStats p 0 0) (map P ["a"; "b"; "c"; "d"]))
               [] None 1.

End Examples.


(** ** Predicates used in the statements *)

(** The only exception a computation can raise has message [e]. *)
Definition onlyThrows {S A : Type} (e : string) (m : M S A) : Prop :=
  forall s msg s', m s = (Throw msg, s') -> msg = e.

(** Ascending order of the sort keys. *)
Definition keyLe {A : Type} (key : A -> nat) (a b : A) : Prop := key a <= key b.

(** What the selection loop of the eight-player branch maintains: the used
    ids are those of the selected pairs, no id is selected twice, and every
    selected player is on the roster. *)
Definition selection (players : list Player) (used : gset string)
    (final : list Fixed.Pair) : Prop :=
  (forall x, x ∈ used <-> x ∈ Spec.memberIds final)
  /\ NoDup (Spec.memberIds final)
  /\ (forall p, p ∈ Spec.members final -> p ∈ players).

(** *** Closed forms of the general generator's updates *)

(** The histories hold exactly the roster's players, keyed by id, in roster
    order. *)
Definition keyedBy (roster : list Player) (h : General.Histories) : Prop :=
  map (fun kv => (fst kv, General.player (snd kv))) h
  = map (fun p => (playerId p, p)) roster.

(** The same side and the other side of the player at index [i], for an even
    number of players. *)
Definition teamOf (ps : list Player) (i : nat) : list Player :=
  if i <? length ps / 2 then delete i (take (length ps / 2) ps)
  else delete (i - length ps / 2) (drop (length ps / 2) ps).

Definition opponentsOf (ps : list Player) (i : nat) : list Player :=
  if i <? length ps / 2 then drop (length ps / 2) ps else take (length ps / 2) ps.

Definition linkEffect (ps : list Player) (i : nat) (h : General.PlayerHistory)
  : General.PlayerHistory :=
  General.addOpponents (opponentsOf ps i) (General.addPartners (teamOf ps i) h).

Fixpoint linkAll (ps : list Player) (i : nat) (rest : list Player)
    (h : General.Histories) : General.Histories :=
  match rest with
  | [] => h
  | p :: rest' => linkAll ps (i + 1) rest' (mapAlter (linkEffect ps i) (playerId p) h)
  end.

(** The histories once a match with an even number of players is recorded. *)
Definition recorded (m : Match) (h : General.Histories) : General.Histories :=
  linkAll (players m) 0 (players m)
          (foldl (fun hs p => mapAlter General.played (playerId p) hs) h (players m)).

Definition gamesOf (h : General.Histories) (k : string) : option nat :=
  General.gamesPlayed <$> mapGet k h.

(** How many times the id [k] occurs in the matches [ms]. *)
Definition timesIn (k : string) (ms : list Match) : nat :=
  length (filter (fun x => x = k) (concat (map (fun m => ids (players m)) ms))).

(** The histories once all of [ms] are recorded, one after the other. *)
Definition recordedAll (ms : list Match) (h : General.Histories) : General.Histories :=
  foldl (fun h m => recorded m h) h ms.

(** The histories [generateSession] starts from, for distinct ids. *)
Definition freshHistories (roster : list Player) : General.Histories :=
  map (fun p => (playerId p, General.createPlayerHistory p)) roster.

(** How many matches a round of the general generator holds. *)
Definition roundSize (available courts : nat) : nat :=
  if available <? courts * 4 then 0 else courts.

(** *** States of the matches page *)

(** What holds of every state the page can reach: match ids are unique, a
    pending match has no completion time, and every match of the completed
    list is flagged completed. *)
Definition wellFormed (s : Page.State) : Prop :=
  NoDup (map (fun ms => matchId (Page.match_ ms)) (Page.matchStates s))
  /\ (forall ms, ms ∈ Page.matchStates s ->
        Page.completed ms = false -> Page.completedAt ms = None)
  /\ (forall m, m ∈ Page.allCompletedMatches s ->
        exists ms, ms ∈ Page.matchStates s
                   /\ matchId (Page.match_ ms) = matchId m
                   /\ Page.completed ms = true).

(** A pending match of the page. *)
Definition pending (s : Page.State) (ms : Page.MatchState) : Prop :=
  ms ∈ Page.matchStates s /\ Page.completed ms = false.

(** [crypto.randomUUID()] on the supply [us]: the id returned and the supply
    left. *)
Definition popUuid (us : list string) : string * list string :=
  match us with
  | [] => (EmptyString, [])
  | u :: us' => (u, us')
  end.

(** The four lowest-scoring pairs of the eight-player branch are pairwise
    disjoint, so that first-fit keeps all of them. *)
Definition fourLowestDisjoint (roster : list Player) (prev : list Match) (t : nat) : Prop :=
  length (Spec.firstFit
            (map fst (take 4 (Fixed.scoredPairs roster (Fixed.getPairings prev)
                                (Fixed.participationOf t roster prev))))
            []) = 4.

(** *** Ids, keys and frequencies of the fixed-case ledger *)

(** The id holds no ['-']. *)
Fixpoint hyphenFree (s : string) : bool :=
  match s with
  | EmptyString => true
  | String c s' => negb (isHyphen c) && hyphenFree s'
  end.

(** The ids of all the players listed in the matches. *)
Definition idsOf (history : list Match) : list string :=
  concat (map (fun m => ids (players m)) history).

(** The [addPairing] calls that [getPairings] makes for one match, in
    order. *)
Definition doublesPairs (m : Match) : list (string * string) :=
  match players m with
  | [a; b; c; d] =>
      [(playerId a, playerId b); (playerId c, playerId d);
       (playerId a, playerId c); (playerId a, playerId d);
       (playerId b, playerId c); (playerId b, playerId d)]
  | _ => []
  end.

(** The count under a key of the pairing map, [0] when the key is absent. *)
Definition keyCount (map : list (string * nat)) (k : string) : nat :=
  default 0 (mapGet k map).

(** The frequency that [calculatePairScore] reads from the pairings:
    [pairing?.count || 0]. *)
Definition readFrequency (pairings : list Fixed.PlayerPairing) (x y : string) : nat :=
  match List.find (fun p => String.eqb (sortJoin (Fixed.player1Id p) (Fixed.player2Id p))
                                      (sortJoin x y))
                  pairings with
  | Some p => Fixed.count p
  | None => 0
  end.

(** Every stored participation is the one of the player whose id is its
    key. *)
Definition keyedById (pm : gmap string Fixed.PlayerParticipation) : Prop :=
  forall k p, pm !! k = Some p -> playerId (Fixed.player p) = k.

(** The pairing map after a list of [addPairing] calls. *)
Definition addAll (m : list (string * nat)) (prs : list (string * string))
  : list (string * nat) :=
  foldl (fun m pr => Fixed.addPairing m (fst pr) (snd pr)) m prs.


(** *** Statements about the page and the general ledger *)

(** What the user can do on the matches page between two rounds. *)
Inductive Action : Type :=
| Complete (now : nat) (matchId' : string)
| Undo.

Definition act (s : Page.State) (a : Action) : Page.State :=
  match a with
  | Complete now matchId' => Page.handleMatchComplete now matchId' s
  | Undo => Page.handleUndo s
  end.

(** The page after mounting on a session and a sequence of actions, each on
    the state the previous one left (the page renders again between two
    clicks). *)
Definition pageAfter (initialSession : Session) (actions : list Action) : Page.State :=
  foldl act (Page.syncSession (Page.initialState initialSession)) actions.

(** The partner and opponent relations are symmetric among the players the
    histories hold. *)
Definition symmetric (h : General.Histories) : Prop :=
  forall k1 k2 h1 h2,
    mapGet k1 h = Some h1 -> mapGet k2 h = Some h2 ->
    (k2 ∈ General.partners h1 <-> k1 ∈ General.partners h2)
    /\ (k2 ∈ General.opponents h1 <-> k1 ∈ General.opponents h2).

(** The total that the fixed-case generator sorts the players by. *)
Definition totalOf (pm : gmap string Fixed.PlayerParticipation) (p : Player) : nat :=
  Fixed.totalPlayed (pm !! playerId p).

(** The doubles matches of the history in which both ids play, and the
    matches in which one id plays. *)
Definition sharedDoubles (history : list Match) (x y : string) : nat :=
  length (filter (fun m => length (players m) = 4
                           /\ x ∈ ids (players m) /\ y ∈ ids (players m)) history).

Definition matchesOf (history : list Match) (x : string) : nat :=
  length (filter (fun m => x ∈ ids (players m)) history).

(** *** Rounds of the general generator *)

(** The states of the module variables during a session on [roster]: the
    state in which a call of [generateSession] on the roster ends, whatever
    it returns, and the states in which later calls of [generateNextRound]
    end, whatever their arguments and whatever they return. *)
Inductive inSession (roster : list Player) : General.Env -> Prop :=
| inSession_start (courts : nat) (prev : list Match) (e0 : General.Env)
    (r : Res Session) (e : General.Env) :
    4 <= length roster ->
    General.generateSession roster courts prev e0 = (r, e) ->
    inSession roster e
| inSession_next (ps : list Player) (courts : nat) (completed : list Match)
    (e : General.Env) (r : Res (list Match)) (e' : General.Env) :
    inSession roster e ->
    General.generateNextRound ps courts completed e = (r, e') ->
    inSession roster e'.

(** The keys of the histories and the players stored under them. *)
Definition roll (h : General.Histories) : list (string * Player) :=
  map (fun kv => (fst kv, General.player (snd kv))) h.

(** A round of the general generator on [roster] with [courts] courts: no id
    twice among the players of its matches, every player from the roster,
    four players a match, courts numbered from 1, and as many matches as
    courts when the roster can fill them all, none otherwise. *)
Definition fullRound (roster : list Player) (courts : nat) (ms : list Match) : Prop :=
  NoDup (ids (concat (map players ms)))
  /\ (forall p, p ∈ concat (map players ms) -> p ∈ roster)
  /\ Forall (fun m => length (players m) = 4) ms
  /\ map court ms = seq 1 (length ms)
  /\ length ms = (if length roster <? courts * 4 then 0 else courts).

(** Every match lists an even number of players. *)
Definition evenSized (ms : list Match) : Prop :=
  Forall (fun m => Nat.even (length (players m)) = true) ms.

(** The players at the indices [i] and [j] of a match are on the same
    side. *)
Definition sameSide (ps : list Player) (i j : nat) : Prop :=
  (i <? length ps / 2) = (j <? length ps / 2).

(** The completed doubles matches, and the completed matches of another
    size, that list the player. *)
Definition doublesIn (completedMatches : list Match) (p : Player) : nat :=
  length (filter (fun m => playerId p ∈ ids (players m) /\ length (players m) = 4)
                 completedMatches).

Definition singlesIn (completedMatches : list Match) (p : Player) : nat :=
  length (filter (fun m => playerId p ∈ ids (players m) /\ length (players m) <> 4)
                 completedMatches).

(** The statistics shown are the counts over the completed matches. *)
Definition statsAgree (s : Page.State) : Prop :=
  forall stat, stat ∈ Page.playerStats s ->
    Page.doublesMatchesPlayed stat
    = doublesIn (Page.allCompletedMatches s) (Page.player stat)
    /\ Page.singlesMatchesPlayed stat
       = singlesIn (Page.allCompletedMatches s) (Page.player stat).

(** What the page keeps while the user completes and undoes matches of the
    session it was mounted on. *)
Definition pageInvariant (initialSession : Session) (s : Page.State) : Prop :=
  wellFormed s
  /\ NoDup (map matchId (Page.allCompletedMatches s))
  /\ (forall l, Page.lastCompletedMatch s = Some l ->
        Page.match_ l ∈ Page.allCompletedMatches s)
  /\ statsAgree s
  /\ Page.session s = initialSession
  /\ map Page.match_ (Page.matchStates s) = matches initialSession
  /\ map Page.player (Page.playerStats s) = sessionPlayers initialSession
  /\ (forall m, m ∈ Page.allCompletedMatches s -> m ∈ matches initialSession).

(** * Properties of the JavaScript primitives *)

Section SortFacts.
Context {A : Type} (key : A -> nat).

Lemma insertBy_Permutation (x : A) (l : list A) : insertBy key x l ≡ₚ x :: l.
Proof.
  induction l as [|y l IH]; simpl; [done|].
  destruct (key x <=? key y); [done|].
  rewrite IH. apply Permutation_swap.
Qed.

Lemma sortBy_Permutation (l : list A) : sortBy key l ≡ₚ l.
Proof.
  induction l as [|x l IH]; simpl; [done|].
  by rewrite insertBy_Permutation, IH.
Qed.

Lemma sortBy_length (l : list A) : length (sortBy key l) = length l.
Proof. by rewrite sortBy_Permutation. Qed.

Lemma insertBy_sorted (x : A) (l : list A) :
  StronglySorted (keyLe key) l -> StronglySorted (keyLe key) (insertBy key x l).
Proof.
  induction 1 as [|y l Hl IH Hy]; simpl.
  - repeat constructor.
  - destruct (Nat.leb_spec (key x) (key y)) as [Hxy|Hxy].
    + constructor; [by constructor|].
      constructor; [done|].
      eapply Forall_impl; [exact Hy|]. unfold keyLe in *. intros; lia.
    + constructor; [done|].
      rewrite insertBy_Permutation. constructor; [unfold keyLe in *; lia|done].
Qed.

Lemma sortBy_sorted (l : list A) : StronglySorted (keyLe key) (sortBy key l).
Proof.
  induction l as [|x l IH]; simpl; [constructor|by apply insertBy_sorted].
Qed.

Lemma sortBy_elem_of (x : A) (l : list A) : x ∈ sortBy key l <-> x ∈ l.
Proof. by rewrite sortBy_Permutation. Qed.

(** Stability: elements with one key keep their relative order. *)
Lemma insertBy_filter (n : nat) (x : A) (l : list A) :
  StronglySorted (keyLe key) l ->
  filter (fun a => key a = n) (insertBy key x l)
  = filter (fun a => key a = n) (x :: l).
Proof.
  induction 1 as [|y l Hl IH Hy]; simpl; [done|].
  destruct (Nat.leb_spec (key x) (key y)) as [Hxy|Hxy]; [done|].
  rewrite !filter_cons in *.
  destruct (decide (key y = n)) as [Hyn|Hyn], (decide (key x = n)) as [Hxn|Hxn];
    try lia; by rewrite IH.
Qed.

Lemma sortBy_stable (n : nat) (l : list A) :
  filter (fun a => key a = n) (sortBy key l) = filter (fun a => key a = n) l.
Proof.
  induction l as [|x l IH]; simpl; [done|].
  rewrite insertBy_filter by apply sortBy_sorted.
  by rewrite !filter_cons, IH.
Qed.
End SortFacts.

Section SwapFacts.
Context {A : Type}.

Lemma insert_Permutation_delete (l : list A) (i : nat) (x y : A) :
  l !! i = Some x -> <[i:=y]> l ≡ₚ y :: delete i l.
Proof.
  revert i. induction l as [|a l IH]; intros [|i] H; simplify_eq/=; [done|].
  rewrite (IH _ H). apply Permutation_swap.
Qed.

Lemma swap_Permutation (l : list A) (i j : nat) : swap l i j ≡ₚ l.
Proof.
  unfold swap.
  destruct (l !! i) as [x|] eqn:Hi; [|done].
  destruct (l !! j) as [y|] eqn:Hj; [|done].
  destruct (decide (i = j)) as [->|Hne].
  - simplify_eq. by rewrite !list_insert_id by (by rewrite ?list_insert_id).
  - assert (Hj' : <[i:=y]> l !! j = Some y) by (by rewrite list_lookup_insert_ne).
    rewrite (insert_Permutation_delete _ _ _ x Hj').
    assert (Hd : delete j (<[i:=y]> l) ≡ₚ delete i l).
    { apply (Permutation_cons_inv (a:=y)).
      rewrite <- (delete_Permutation _ _ _ Hj').
      by apply insert_Permutation_delete with x. }
    rewrite Hd. symmetry. by apply delete_Permutation.
Qed.

Lemma swap_length (l : list A) (i j : nat) : length (swap l i j) = length l.
Proof. by rewrite swap_Permutation. Qed.
End SwapFacts.

(** The shuffle loop always returns, with a permutation of its array; it reads
    nothing but the random tape. *)
Lemma shuffleLoop_spec {A : Type} (i : nat) (arr : list A) (w : World) :
  exists arr' rs,
    shuffleLoop i arr w = (Ok arr', mkWorld rs (uuids w) (clock w)) /\ arr' ≡ₚ arr.
Proof.
  revert arr w. induction i as [|i IH]; intros arr w.
  - exists arr, (rands w). by destruct w.
  - cbn [shuffleLoop]. unfold bind, randomBelow.
    destruct (rands w) as [|r rs] eqn:Hr.
    + destruct (IH (swap arr (S i) 0) w) as (arr' & rs' & Heq & Hp).
      exists arr', rs'. split; [done|]. by rewrite Hp, swap_Permutation.
    + destruct (IH (swap arr (S i) (r mod (S i + 1))) (mkWorld rs (uuids w) (clock w)))
        as (arr' & rs' & Heq & Hp).
      exists arr', rs'. split; [done|]. by rewrite Hp, swap_Permutation.
Qed.

(** * Which exceptions a computation can raise *)


Lemma onlyThrows_elim {S A : Type} (e : string) (m : M S A) s msg s' :
  onlyThrows e m -> m s = (Throw msg, s') -> msg = e.
Proof. intros H. apply H. Qed.

Section OnlyThrows.
Context {S : Type} (e : string).

Lemma onlyThrows_ret {A : Type} (a : A) : onlyThrows (S:=S) e (ret a).
Proof. intros s msg s' H. discriminate. Qed.

Lemma onlyThrows_throw {A : Type} : onlyThrows (S:=S) (A:=A) e (throw e).
Proof. intros s msg s' H. by inversion H. Qed.

Lemma onlyThrows_bind {A B : Type} (m : M S A) (f : A -> M S B) :
  onlyThrows e m -> (forall a, onlyThrows e (f a)) -> onlyThrows e (bind m f).
Proof.
  intros Hm Hf s msg s' H. unfold bind in H.
  destruct (m s) as [[a|msg'] s1] eqn:Hms.
  - by eapply Hf.
  - inversion H; subst. by eapply Hm.
Qed.

Lemma onlyThrows_total {A : Type} (g : S -> A) (h : S -> S) :
  onlyThrows e (fun s => (Ok (g s), h s)).
Proof. intros s msg s' H. discriminate. Qed.
End OnlyThrows.

Lemma onlyThrows_randomBelow e n : onlyThrows e (randomBelow n).
Proof. intros s msg s' H. unfold randomBelow in H. by destruct (rands s). Qed.

Lemma onlyThrows_randomUUID e : onlyThrows e randomUUID.
Proof. intros s msg s' H. unfold randomUUID in H. by destruct (uuids s). Qed.

Lemma onlyThrows_shuffleLoop {A : Type} e i (arr : list A) : onlyThrows e (shuffleLoop i arr).
Proof.
  intros s msg s' H.
  destruct (shuffleLoop_spec i arr s) as (arr' & rs & Heq & _). congruence.
Qed.

Create HintDb throws.

#[export] Hint Resolve onlyThrows_ret onlyThrows_throw onlyThrows_total
  onlyThrows_randomBelow onlyThrows_randomUUID onlyThrows_shuffleLoop : throws.

Ltac throws_step :=
  first [ apply onlyThrows_bind; [|intros ?]
        | progress eauto with throws
        | match goal with
          | |- onlyThrows _ (if ?b then _ else _) => destruct b
          | |- onlyThrows _ (match ?x with _ => _ end) => destruct x
          | |- onlyThrows _ (let '(_, _) := ?x in _) => destruct x
          end ].

Module FixedThrows.
Import Fixed.

Lemma onlyThrows_pairAll l : onlyThrows typeError (pairAll l).
Proof.
  induction l as [l IH] using (induction_ltof1 _ (@length _)); unfold ltof in IH.
  destruct l as [|a [|b rest]]; simpl; repeat throws_step.
  apply IH. simpl. lia.
Qed.

Lemma onlyThrows_pushMatch ms ps c : onlyThrows typeError (pushMatch ms ps c).
Proof. unfold pushMatch. repeat throws_step. Qed.

Lemma onlyThrows_choosePairs players pairings pm :
  onlyThrows typeError (choosePairs players pairings pm).
Proof.
  unfold choosePairs, shuffleArray.
  destruct (selectPairs _ _ _) as [used final].
  repeat throws_step; apply onlyThrows_pairAll.
Qed.

Lemma onlyThrows_generateDoublesMatches players courts prev :
  onlyThrows typeError (generateDoublesMatches players courts prev).
Proof.
  unfold generateDoublesMatches.
  apply onlyThrows_bind; [unfold dateNow; eauto with throws|intros now].
  destruct (length players) as [|[|[|[|[|[|[|[|[|n]]]]]]]]];
    repeat first [ apply onlyThrows_pushMatch | apply onlyThrows_choosePairs | throws_step ].
Qed.
End FixedThrows.

Module GeneralThrows.
Import General.

Lemma onlyThrows_liftW {A : Type} e (m : M World A) :
  onlyThrows e m -> onlyThrows e (liftW m).
Proof.
  intros Hm s msg s' H. unfold liftW in H.
  destruct (m (ambient s)) as [r w] eqn:Hr. inversion H; subst. by eapply Hm.
Qed.

Lemma onlyThrows_liftH {A : Type} e (m : M Histories A) :
  onlyThrows e m -> onlyThrows e (liftH m).
Proof.
  intros Hm s msg s' H. unfold liftH in H.
  destruct (m (globalPlayerHistories s)) as [r w] eqn:Hr. inversion H; subst. by eapply Hm.
Qed.

Lemma onlyThrows_linkPlayer ps i p : onlyThrows typeError (linkPlayer ps i p).
Proof.
  intros s msg s' H. unfold linkPlayer in H.
  repeat case_match; by inversion H.
Qed.

Lemma onlyThrows_linkPlayers ps i rest : onlyThrows typeError (linkPlayers ps i rest).
Proof.
  revert i. induction rest as [|p rest IH]; intros i; simpl; [eauto with throws|].
  apply onlyThrows_bind; [apply onlyThrows_linkPlayer|done].
Qed.

Lemma onlyThrows_updatePlayerHistories m : onlyThrows typeError (updatePlayerHistories m).
Proof.
  unfold updatePlayerHistories.
  apply onlyThrows_bind; [eauto with throws|intros; apply onlyThrows_linkPlayers].
Qed.

Lemma onlyThrows_updateAll ms : onlyThrows typeError (updateAll ms).
Proof.
  induction ms as [|m ms IH]; simpl; [eauto with throws|].
  apply onlyThrows_bind; [apply onlyThrows_updatePlayerHistories|done].
Qed.

Lemma onlyThrows_searchLoop n players h best bound :
  onlyThrows typeError (searchLoop n players h best bound).
Proof.
  revert best bound. induction n as [|n IH]; intros best bound; simpl; [eauto with throws|].
  apply onlyThrows_bind; [eauto with throws|intros shuffled].
  unfold sharedPartnerships.
  repeat case_match; simplify_eq; eauto with throws.
Qed.

Lemma onlyThrows_courtLoop n court sh acc : onlyThrows typeError (courtLoop n court sh acc).
Proof.
  revert court acc. induction n as [|n IH]; intros court acc; simpl; [eauto with throws|].
  apply onlyThrows_bind; [unfold get; eauto with throws|intros e].
  apply onlyThrows_bind; [apply onlyThrows_liftW, onlyThrows_searchLoop|intros optimized].
  apply onlyThrows_bind; [apply onlyThrows_liftW; eauto with throws|intros uuid].
  apply onlyThrows_bind; [apply onlyThrows_liftW; eauto with throws|intros r].
  apply onlyThrows_bind; [apply onlyThrows_liftH, onlyThrows_updatePlayerHistories|done].
Qed.

Lemma onlyThrows_generateRound players courts :
  onlyThrows typeError (generateRound players courts).
Proof.
  unfold generateRound. apply onlyThrows_bind; [unfold get; eauto with throws|intros e].
  destruct (_ <? _); [eauto with throws|].
  apply onlyThrows_bind; [apply onlyThrows_liftW; eauto with throws|intros sh].
  apply onlyThrows_courtLoop.
Qed.
End GeneralThrows.


(** * Session validation and infeasible rounds *)

Section Validation.
Variables (players : list Player) (courts : nat) (prev : list Match).

Lemma fixed_generateSession_short (w : World) :
  length players < 4 ->
  Fixed.generateSession players courts prev w = (Throw Fixed.validationError, w).
Proof.
  intros H. unfold Fixed.generateSession.
  by destruct (Nat.ltb_spec (length players) 4); [|lia].
Qed.

Lemma fixed_generateSession_enough (w : World) :
  4 <= length players ->
  fst (Fixed.generateSession players courts prev w) <> Throw Fixed.validationError.
Proof.
  intros H Hthrow. unfold Fixed.generateSession in Hthrow.
  destruct (Nat.ltb_spec (length players) 4); [lia|].
  destruct (bind _ _ w) as [r w'] eqn:Hr. simpl in Hthrow. subst r.
  eapply (onlyThrows_elim typeError) in Hr; [discriminate|].
  apply onlyThrows_bind; [|intros; apply onlyThrows_ret].
  apply FixedThrows.onlyThrows_generateDoublesMatches.
Qed.

Lemma general_generateSession_short (e : General.Env) :
  length players < 4 ->
  General.generateSession players courts prev e = (Throw General.validationError, e).
Proof.
  intros H. unfold General.generateSession.
  by destruct (Nat.ltb_spec (length players) 4); [|lia].
Qed.

Lemma general_generateSession_enough (e : General.Env) :
  4 <= length players ->
  fst (General.generateSession players courts prev e) <> Throw General.validationError.
Proof.
  intros H Hthrow. unfold General.generateSession in Hthrow.
  destruct (Nat.ltb_spec (length players) 4); [lia|].
  destruct (bind _ _ e) as [r e'] eqn:Hr. simpl in Hthrow. subst r.
  eapply (onlyThrows_elim typeError) in Hr; [discriminate|].
  apply onlyThrows_bind.
  { unfold General.setCurrentRound. eauto with throws. }
  intros _. apply onlyThrows_bind.
  { apply GeneralThrows.onlyThrows_liftH. eauto with throws. }
  intros _. apply onlyThrows_bind.
  { apply GeneralThrows.onlyThrows_liftH, GeneralThrows.onlyThrows_updateAll. }
  intros _. apply onlyThrows_bind; [|intros; apply onlyThrows_ret].
  apply GeneralThrows.onlyThrows_generateRound.
Qed.
End Validation.

(** C7.  Both [generateSession] functions raise the validation error
    "Need at least 4 players to generate matches" exactly when the roster has
    fewer than four players, whatever the court count and the previous
    matches; the failing call returns no session and leaves the state as it
    was, and a roster of four or more never raises this error. *)
Theorem generateSession_validation
    (players : list Player) (courts : nat) (prev : list Match)
    (w : World) (e : General.Env) :
  (Fixed.generateSession players courts prev w
     = (Throw "Need at least 4 players to generate matches", w)
   <-> length players < 4)
  /\ (fst (Fixed.generateSession players courts prev w)
        = Throw "Need at least 4 players to generate matches"
      <-> length players < 4)
  /\ (General.generateSession players courts prev e
        = (Throw "Need at least 4 players to generate matches", e)
      <-> length players < 4)
  /\ (fst (General.generateSession players courts prev e)
        = Throw "Need at least 4 players to generate matches"
      <-> length players < 4).
Proof.
  assert (Hf : fst (Fixed.generateSession players courts prev w)
                 = Throw Fixed.validationError <-> length players < 4).
  { split.
    - intros Ht. destruct (Nat.lt_ge_cases (length players) 4) as [|Hge]; [done|].
      by destruct (fixed_generateSession_enough players courts prev w Hge).
    - intros Hlt. by rewrite fixed_generateSession_short. }
  assert (Hg : fst (General.generateSession players courts prev e)
                 = Throw General.validationError <-> length players < 4).
  { split.
    - intros Ht. destruct (Nat.lt_ge_cases (length players) 4) as [|Hge]; [done|].
      by destruct (general_generateSession_enough players courts prev e Hge).
    - intros Hlt. by rewrite general_generateSession_short. }
  split; [|split; [exact Hf|split; [|exact Hg]]].
  - split; [intros Heq; apply Hf; by rewrite Heq|apply fixed_generateSession_short].
  - split; [intros Heq; apply Hg; by rewrite Heq|apply general_generateSession_short].
Qed.

(** ** Too few players for the configured courts *)

Lemma findLeastPlayedPlayers_length (h : General.Histories) (n : nat) :
  length (General.findLeastPlayedPlayers h n) = Nat.min n (length h).
Proof.
  unfold General.findLeastPlayedPlayers.
  by rewrite length_map, length_take, sortBy_length, length_map.
Qed.

(** C8 (as amended).  When the histories hold fewer than
    [numberOfCourts * 4] players, [generateRound] raises nothing, returns
    the empty sequence and leaves every module variable and ambient source
    untouched -- also when some of the courts could have been filled. *)
Theorem generateRound_too_few_players
    (players : list Player) (numberOfCourts : nat) (e : General.Env) :
  length (General.globalPlayerHistories e) < numberOfCourts * 4 ->
  General.generateRound players numberOfCourts e = (Ok [], e).
Proof.
  intros Hlt. unfold General.generateRound, bind, get.
  rewrite findLeastPlayedPlayers_length.
  destruct (Nat.ltb_spec (Nat.min (numberOfCourts * 4)
                                  (length (General.globalPlayerHistories e)))
                         (numberOfCourts * 4)); [done|lia].
Qed.

Lemma generateRound_too_few_players_witness :
  General.generateRound Examples.sixPlayers 2
    (General.mkEnv 1 (map (fun p => (playerId p, General.createPlayerHistory p)) Examples.sixPlayers)
                   (mkWorld [] [] 0))
  = (Ok [],
     General.mkEnv 1 (map (fun p => (playerId p, General.createPlayerHistory p)) Examples.sixPlayers)
                   (mkWorld [] [] 0)).
Proof. apply generateRound_too_few_players. simpl. lia. Defined.

(** Six players and two courts: one court could be filled, yet the round of
    a fresh session is empty. *)
Lemma generateRound_no_partial_round :
  exists s e,
    General.generateSession Examples.sixPlayers 2 [] (General.initialEnv (mkWorld [] [] 0)) = (Ok s, e)
    /\ length (General.globalPlayerHistories e) = 6
    /\ Spec.fullCourts 6 2 = 1
    /\ matches s = []
    /\ length (matches s) <> Spec.fullCourts 6 2.
Proof. eexists _, _. vm_compute. repeat split; try reflexivity. discriminate. Qed.


(** * The eight-player branch of the fixed-case generator *)

Module FixedEight.
Import Fixed.

Lemma selectPairs_length cands used final :
  length final < 4 -> length (snd (selectPairs cands used final)) <= 4.
Proof.
  revert used final. induction cands as [|[pr n] cands IH]; intros used final Hlt; simpl.
  - lia.
  - destruct (_ && _); [|by apply IH].
    destruct (Nat.eqb_spec (length (final ++ [pr])) 4) as [Heq|Hne]; simpl; [lia|].
    apply IH. rewrite length_app in *. simpl in *. lia.
Qed.

Lemma pushRandomPairs_length shuffled final :
  length final < 4 -> length (pushRandomPairs shuffled final) <= 4.
Proof.
  revert final.
  induction shuffled as [shuffled IH] using (induction_ltof1 _ (@length _)).
  unfold ltof in IH. intros final Hlt.
  destruct shuffled as [|a [|b rest]]; simpl; [lia..|].
  destruct (Nat.eqb_spec (length (final ++ [(a, b)])) 4) as [Heq|Hne]; [lia|].
  apply IH; [simpl; lia|]. rewrite length_app in *. simpl in *. lia.
Qed.

(** On an even number of players [pairAll] returns, with half as many pairs
    that list the players in order. *)
Lemma pairAll_even (l : list Player) (w : World) :
  Nat.even (length l) = true ->
  exists ps, pairAll l w = (Ok ps, w)
             /\ length l = 2 * length ps
             /\ l = concat (map (fun pr => [fst pr; snd pr]) ps).
Proof.
  induction l as [l IH] using (induction_ltof1 _ (@length _)). unfold ltof in IH.
  intros Hev. destruct l as [|a [|b rest]]; [by exists []|done|].
  destruct (IH rest) as (ps & Hps & Hlen & Hcat); [simpl; lia|done|].
  exists ((a, b) :: ps). cbn [pairAll]. unfold bind. rewrite Hps.
  repeat split; simpl; [lia|]. by rewrite <- Hcat.
Qed.

(** Steps 4 and 5 always end with exactly four pairs when there are eight
    players; only random numbers are consumed. *)
Lemma choosePairs_four players pairings pm (w : World) :
  length players = 8 ->
  exists p1 p2 p3 p4 rs,
    choosePairs players pairings pm w
    = (Ok [p1; p2; p3; p4], mkWorld rs (uuids w) (clock w)).
Proof.
  intros Hlen. unfold choosePairs, shuffleArray.
  pose proof (selectPairs_length (take 4 (scoredPairs players pairings pm)) ∅ []) as Hsel.
  destruct (selectPairs _ _ _) as [used final]. simpl in Hsel.
  specialize (Hsel ltac:(simpl; lia)).
  assert (Hfin : forall fp rs,
    length fp <= 4 ->
    exists p1 p2 p3 p4 rs',
      (if length fp <? 4
       then let* shuffledPlayers := shuffleLoop (length players - 1) players
            in pairAll shuffledPlayers
       else ret fp) (mkWorld rs (uuids w) (clock w))
      = (Ok [p1; p2; p3; p4], mkWorld rs' (uuids w) (clock w))).
  { intros fp rs Hfp. destruct (Nat.ltb_spec (length fp) 4) as [Hlt|Hge].
    - unfold bind.
      destruct (shuffleLoop_spec (length players - 1) players
                  (mkWorld rs (uuids w) (clock w))) as (sh & rs' & -> & Hp).
      simpl. destruct (pairAll_even sh (mkWorld rs' (uuids w) (clock w)))
        as (ps & -> & Hl & _); [by rewrite Hp, Hlen|].
      rewrite Hp, Hlen in Hl.
      destruct ps as [|p1 [|p2 [|p3 [|p4 [|p5 ps]]]]]; simpl in Hl; try lia.
      by exists p1, p2, p3, p4, rs'.
    - destruct fp as [|p1 [|p2 [|p3 [|p4 [|p5 ps]]]]]; simpl in *; try lia.
      by exists p1, p2, p3, p4, rs. }
  unfold bind at 1.
  destruct (Nat.ltb_spec (length final) 4) as [Hlt|Hge].
  - destruct (2 <=? _).
    + unfold bind at 1.
      destruct (shuffleLoop_spec
                  (length (filter (fun p => playerId p ∉ used) players) - 1)
                  (filter (fun p => playerId p ∉ used) players) w)
        as (sh & rs' & -> & Hp).
      simpl. apply Hfin. by apply pushRandomPairs_length.
    + simpl. destruct w as [rs us ck]. apply Hfin. lia.
  - simpl. destruct w as [rs us ck]. apply Hfin. lia.
Qed.

(** The eight-player branch emits the two courts computed by
    [arrangeCourts] from the final pairs, on courts 1 and 2. *)
Lemma generateDoublesMatches_eight players courts prev (w : World) :
  length players = 8 ->
  exists p1 p2 p3 p4 w1,
    choosePairs players (getPairings prev) (participationOf (clock w) players prev) w
    = (Ok [p1; p2; p3; p4], w1)
    /\ exists u1 u2 w2,
      generateDoublesMatches players courts prev w
      = (Ok [mkMatch u1 (fst (arrangeCourts (getPairings prev)
                                 (participationOf (clock w) players prev) p1 p2 p3 p4))
                     1 Left;
             mkMatch u2 (snd (arrangeCourts (getPairings prev)
                                 (participationOf (clock w) players prev) p1 p2 p3 p4))
                     2 Left], w2).
Proof.
  intros Hlen.
  destruct (choosePairs_four players (getPairings prev)
              (participationOf (clock w) players prev) w Hlen)
    as (p1 & p2 & p3 & p4 & rs & Hch).
  exists p1, p2, p3, p4, (mkWorld rs (uuids w) (clock w)). split; [done|].
  unfold generateDoublesMatches. rewrite Hlen.
  unfold bind at 1. unfold dateNow.
  unfold bind at 1. rewrite Hch.
  destruct (arrangeCourts _ _ _ _ _ _) as [c1 c2]. simpl.
  unfold bind, pushMatch, bind, randomUUID. simpl.
  destruct (uuids w) as [|u1 [|u2 us]]; simpl; eauto.
Qed.
End FixedEight.

Import Fixed.

(** Step 6 returns the courts of the grouping whose computed total is the
    lowest, the first such grouping in enumeration order. *)
Lemma arrangeCourts_first_minimum
    (pairings : list PlayerPairing) (pm : gmap string PlayerParticipation)
    (p1 p2 p3 p4 : Pair) :
  let score a b := calculatePairScore a b pairings pm in
  let total k :=
    match k with
    | 1 => score (fst p1) (snd p1) + score (fst p2) (snd p2)
           + score (fst p3) (snd p3) + score (fst p4) (snd p4)
    | 2 => score (fst p1) (fst p3) + score (snd p1) (snd p3)
           + score (fst p2) (fst p4) + score (snd p2) (snd p4)
    | _ => score (fst p1) (fst p4) + score (snd p1) (snd p4)
           + score (fst p2) (fst p3) + score (snd p2) (snd p3)
    end in
  exists k,
    (k = 1 \/ k = 2 \/ k = 3)
    /\ arrangeCourts pairings pm p1 p2 p3 p4 = Spec.grouping k p1 p2 p3 p4
    /\ (forall j, 1 <= j <= 3 -> total k <= total j)
    /\ (forall j, 1 <= j < k -> total k < total j).
Proof.
  intros score total. unfold arrangeCourts.
  change (option1Score pairings pm p1 p2 p3 p4) with (total 1).
  change (option2Score pairings pm p1 p2 p3 p4) with (total 2).
  change (option3Score pairings pm p1 p2 p3 p4) with (total 3).
  assert (Hcases : forall j, 1 <= j <= 3 -> j = 1 \/ j = 2 \/ j = 3) by lia.
  assert (Hpick : forall k,
    (k = 1 \/ k = 2 \/ k = 3) ->
    (forall j, j = 1 \/ j = 2 \/ j = 3 -> total k <= total j) ->
    (forall j, j = 1 \/ j = 2 -> j < k -> total k < total j) ->
    (k = 1 \/ k = 2 \/ k = 3)
    /\ Spec.grouping k p1 p2 p3 p4 = Spec.grouping k p1 p2 p3 p4
    /\ (forall j, 1 <= j <= 3 -> total k <= total j)
    /\ (forall j, 1 <= j < k -> total k < total j)).
  { intros k Hk Hmin Hfirst. repeat split; [done| |].
    - intros j Hj. by apply Hmin, Hcases.
    - intros j Hj. apply Hfirst; lia. }
  destruct (Nat.leb_spec (total 1) (total 2)) as [H12|H12],
           (Nat.leb_spec (total 1) (total 3)) as [H13|H13];
    cbn [andb].
  1: { exists 1. apply Hpick; [auto| |]; [intros j [->|[->| ->]]; lia|intros j [->| ->]; lia]. }
  all: destruct (Nat.leb_spec (total 2) (total 1)) as [H21|H21],
                (Nat.leb_spec (total 2) (total 3)) as [H23|H23];
    cbn [andb]; try lia.
  all: first
    [ exists 2; apply Hpick; [auto| |]; [intros j [->|[->| ->]]; lia|intros j [->| ->]; lia]
    | exists 3; apply Hpick; [auto| |]; [intros j [->|[->| ->]]; lia|intros j [->| ->]; lia] ].
Qed.

(** C3 (as amended).  With eight players the generator computes one total
    per grouping of the four final pairs P1..P4, each a sum of four pair
    scores: for {P1+P3 vs P2+P4} and {P1+P4 vs P2+P3} the scores of the first
    members and of the second members of the two pairs on each court (not all
    four combinations), for {P1+P2 vs P3+P4} the four pairs' own scores.  It
    emits, on courts 1 and 2, the grouping whose computed total is the lowest,
    the first such grouping in enumeration order. *)
Theorem eight_players_emit_lowest_computed_total
    (roster : list Player) (courts : nat) (prev : list Match) (w : World) :
  length roster = 8 ->
  let pairings := getPairings prev in
  let pm := participationOf (clock w) roster prev in
  let score a b := calculatePairScore a b pairings pm in
  exists p1 p2 p3 p4 w1 k u1 u2 w2,
    let total j :=
      match j with
      | 1 => score (fst p1) (snd p1) + score (fst p2) (snd p2)
             + score (fst p3) (snd p3) + score (fst p4) (snd p4)
      | 2 => score (fst p1) (fst p3) + score (snd p1) (snd p3)
             + score (fst p2) (fst p4) + score (snd p2) (snd p4)
      | _ => score (fst p1) (fst p4) + score (snd p1) (snd p4)
             + score (fst p2) (fst p3) + score (snd p2) (snd p3)
      end in
    choosePairs roster pairings pm w = (Ok [p1; p2; p3; p4], w1)
    /\ (k = 1 \/ k = 2 \/ k = 3)
    /\ generateDoublesMatches roster courts prev w
       = (Ok [mkMatch u1 (fst (Spec.grouping k p1 p2 p3 p4)) 1 Left;
              mkMatch u2 (snd (Spec.grouping k p1 p2 p3 p4)) 2 Left], w2)
    /\ (forall j, 1 <= j <= 3 -> total k <= total j)
    /\ (forall j, 1 <= j < k -> total k < total j).
Proof.
  intros Hlen pairings pm score.
  destruct (FixedEight.generateDoublesMatches_eight roster courts prev w Hlen)
    as (p1 & p2 & p3 & p4 & w1 & Hch & u1 & u2 & w2 & Hgen).
  destruct (arrangeCourts_first_minimum pairings pm p1 p2 p3 p4)
    as (k & Hk & Harr & Hmin & Hfirst).
  exists p1, p2, p3, p4, w1, k, u1, u2, w2.
  fold pairings pm in Hch, Hgen. rewrite Harr in Hgen. by repeat split.
Qed.

Lemma eight_players_emit_lowest_computed_total_witness :
  exists p1 p2 p3 p4 w1 k u1 u2 w2,
    choosePairs Examples.eightPlayers (getPairings [Examples.firstMatch])
      (participationOf 0 Examples.eightPlayers [Examples.firstMatch]) Examples.quietWorld
    = (Ok [p1; p2; p3; p4], w1)
    /\ generateDoublesMatches Examples.eightPlayers 2 [Examples.firstMatch]
         Examples.quietWorld
       = (Ok [mkMatch u1 (fst (Spec.grouping k p1 p2 p3 p4)) 1 Left;
              mkMatch u2 (snd (Spec.grouping k p1 p2 p3 p4)) 2 Left], w2).
Proof.
  destruct (eight_players_emit_lowest_computed_total Examples.eightPlayers 2
              [Examples.firstMatch] Examples.quietWorld)
    as (p1 & p2 & p3 & p4 & w1 & k & u1 & u2 & w2 & Hch & _ & Hgen & _).
  - reflexivity.
  - exists p1, p2, p3, p4, w1, k, u1, u2, w2. split; [exact Hch|exact Hgen].
Defined.

(** With one completed match a,b against c,d, and a shuffle that leaves the
    six unused players in place, the final pairs are (e,f), (a,b), (c,d),
    (g,h).  Summing all four cross-pair combinations per court gives 8 for
    the first two groupings and 48 for the third, so the first grouping is
    the one with the lowest total; the generator emits the second. *)
Lemma arrangeCourts_not_cross_pair_totals :
  let pairings := getPairings [Examples.firstMatch] in
  let pm := participationOf 0 Examples.eightPlayers [Examples.firstMatch] in
  let score a b := calculatePairScore a b pairings pm in
  exists p1 p2 p3 p4 w1 w2,
    choosePairs Examples.eightPlayers pairings pm Examples.quietWorld
    = (Ok [p1; p2; p3; p4], w1)
    /\ generateDoublesMatches Examples.eightPlayers 2 [Examples.firstMatch]
         Examples.quietWorld
       = (Ok [mkMatch "u1" (fst (Spec.grouping 2 p1 p2 p3 p4)) 1 Left;
              mkMatch "u2" (snd (Spec.grouping 2 p1 p2 p3 p4)) 2 Left], w2)
    /\ map (fun k => Spec.groupingTotal score k p1 p2 p3 p4) [1; 2; 3] = [8; 8; 48]
    /\ Spec.chooseGrouping score p1 p2 p3 p4 = 1
    /\ arrangeCourts pairings pm p1 p2 p3 p4
       <> Spec.grouping (Spec.chooseGrouping score p1 p2 p3 p4) p1 p2 p3 p4.
Proof.
  eexists _, _, _, _, _, _.
  split; [vm_compute; reflexivity|].
  split; [vm_compute; reflexivity|].
  split; [vm_compute; reflexivity|].
  split; [vm_compute; reflexivity|].
  vm_compute. discriminate.
Qed.


(** * Which pairs the eight-player branch selects *)

Module FixedSelect.
Import Fixed.

Lemma allPossiblePairs_length (l : list Player) :
  2 * length (allPossiblePairs l) = length l * (length l - 1).
Proof.
  induction l as [|p l IH]; [done|].
  cbn [allPossiblePairs length]. rewrite length_app, length_map.
  unfold Pair in *.
  set (a := length (allPossiblePairs l)) in *. set (n := length l) in *.
  clearbody a n. destruct n as [|n]; [simpl in *; lia|].
  replace (S n - 1) with n in IH by lia. replace (S (S n) - 1) with (S n) by lia. nia.
Qed.

(** Step 1 lists exactly the pairs [(players[i], players[j])] with [i < j]. *)
Lemma elem_of_allPossiblePairs (l : list Player) (x y : Player) :
  (x, y) ∈ allPossiblePairs l
  <-> exists i j, i < j /\ l !! i = Some x /\ l !! j = Some y.
Proof.
  induction l as [|p l IH]; simpl.
  - split; [by intros ?%elem_of_nil|by intros (i & j & _ & ? & _)].
  - rewrite elem_of_app, list_elem_of_fmap, IH. split.
    + intros [(q & [= -> ->] & Hq)|(i & j & Hij & Hi & Hj)].
      * apply list_elem_of_lookup in Hq as [j Hj]. exists 0, (S j). auto with lia.
      * exists (S i), (S j). auto with lia.
    + intros (i & j & Hij & Hi & Hj). destruct j as [|j]; [lia|]. simpl in Hj.
      destruct i as [|i]; simpl in Hi.
      * left. simplify_eq. exists y. split; [done|]. by eapply list_elem_of_lookup_2.
      * right. exists i, j. auto with lia.
Qed.

Lemma allPossiblePairs_members (l : list Player) (x y : Player) :
  (x, y) ∈ allPossiblePairs l -> x ∈ l /\ y ∈ l.
Proof.
  intros (i & j & _ & Hi & Hj)%elem_of_allPossiblePairs.
  split; by eapply list_elem_of_lookup_2.
Qed.

Lemma allPossiblePairs_distinct (l : list Player) (x y : Player) :
  NoDup (ids l) -> (x, y) ∈ allPossiblePairs l -> playerId x <> playerId y.
Proof.
  intros Hnd (i & j & Hij & Hi & Hj)%elem_of_allPossiblePairs Heq.
  assert (i = j); [|lia].
  eapply (NoDup_lookup (ids l)); [done| |]; unfold ids; rewrite list_lookup_fmap.
  - by rewrite Hi.
  - by rewrite Hj, Heq.
Qed.

(** Step 1 lists the pairs row by row: the pairs of [players[0]] with
    every later player, then those of [players[1]], and so on. *)
Lemma allPossiblePairs_rows (l : list Player) :
  allPossiblePairs l
  = concat (imap (fun i p => map (fun q => (p, q)) (drop (S i) l)) l).
Proof.
  induction l as [|p l IH]; [done|].
  cbn [allPossiblePairs imap concat]. rewrite skipn_cons, drop_0. f_equal.
  rewrite IH. f_equal.
Qed.

(** The sort is stable: pairs of equal score keep the order of step 1. *)
Lemma scoredPairs_stable players pairings pm (n : nat) :
  filter (fun e => snd e = n) (scoredPairs players pairings pm)
  = filter (fun e => snd e = n)
           (map (fun pr => (pr, calculatePairScore (fst pr) (snd pr) pairings pm))
                (allPossiblePairs players)).
Proof. apply sortBy_stable. Qed.

(** Steps 2 and 3: the sorted list is a rearrangement of the scored pairs,
    in ascending order of score. *)
Lemma scoredPairs_sorted players pairings pm :
  scoredPairs players pairings pm
    ≡ₚ map (fun pr => (pr, calculatePairScore (fst pr) (snd pr) pairings pm))
           (allPossiblePairs players)
  /\ StronglySorted (keyLe snd) (scoredPairs players pairings pm).
Proof. split; [apply sortBy_Permutation|apply sortBy_sorted]. Qed.

(** Step 5 is first-fit over the candidates it is given. *)
Lemma selectPairs_firstFit cands used final :
  length final < 4 ->
  (forall x, x ∈ used <-> x ∈ Spec.memberIds final) ->
  snd (selectPairs cands used final) = Spec.firstFit (map fst cands) final.
Proof.
  revert used final. induction cands as [|[pr n] cands IH]; intros used final Hlt Hused.
  - done.
  - cbn [selectPairs map fst Spec.firstFit].
    destruct (Nat.eqb_spec (length final) 4) as [|_]; [lia|].
    unfold Spec.sharesPlayer.
    rewrite <- (bool_decide_ext _ _ (Hused (playerId (fst pr)))).
    rewrite <- (bool_decide_ext _ _ (Hused (playerId (snd pr)))).
    rewrite !bool_decide_not.
    destruct (bool_decide (playerId (fst pr) ∈ used)),
             (bool_decide (playerId (snd pr) ∈ used)); simpl; try by apply IH.
    destruct (Nat.eqb_spec (length (final ++ [pr])) 4) as [Heq|Hne]; simpl.
    + destruct cands as [|c cands]; simpl; [done|]. by rewrite Heq.
    + apply IH; [rewrite length_app in *; simpl in *; lia|].
      intros x. unfold Spec.memberIds in *.
      rewrite map_app, concat_app, elem_of_app. simpl.
      rewrite <- Hused. set_solver.
Qed.

Lemma selectPairs_used cands used final :
  (forall x, x ∈ used <-> x ∈ Spec.memberIds final) ->
  forall x, x ∈ fst (selectPairs cands used final)
            <-> x ∈ Spec.memberIds (snd (selectPairs cands used final)).
Proof.
  revert used final. induction cands as [|[pr n] cands IH]; intros used final Hused; [done|].
  cbn [selectPairs].
  assert (Hused' : forall x,
    x ∈ ({[playerId (snd pr)]} ∪ ({[playerId (fst pr)]} ∪ used) : gset string)
    <-> x ∈ Spec.memberIds (final ++ [pr])).
  { intros x. unfold Spec.memberIds in *.
    rewrite map_app, concat_app, elem_of_app. simpl. rewrite <- Hused. set_solver. }
  destruct (_ && _); [|by apply IH].
  destruct (_ =? _); [done|by apply IH].
Qed.

Lemma memberIds_members (l : list Pair) : Spec.memberIds l = ids (Spec.members l).
Proof.
  unfold Spec.memberIds, Spec.members, ids.
  induction l as [|pr l IH]; simpl; [done|]. by rewrite IH.
Qed.

Lemma members_app (l k : list Pair) :
  Spec.members (l ++ k) = Spec.members l ++ Spec.members k.
Proof. unfold Spec.members. by rewrite map_app, concat_app. Qed.

Lemma members_length (l : list Pair) : length (Spec.members l) = 2 * length l.
Proof. induction l as [|pr l IH]; simpl in *; [done|]. unfold Spec.members in *. simpl. lia. Qed.

Lemma ids_inj (l : list Player) (x y : Player) :
  NoDup (ids l) -> x ∈ l -> y ∈ l -> playerId x = playerId y -> x = y.
Proof.
  intros Hnd [i Hi]%list_elem_of_lookup [j Hj]%list_elem_of_lookup Heq.
  assert (i = j); [|congruence].
  eapply (NoDup_lookup (ids l)); [done| |]; unfold ids; rewrite list_lookup_fmap.
  - by rewrite Hi.
  - by rewrite Hj, Heq.
Qed.

Section Greedy.
Variable players : list Player.
Hypothesis players_nodup : NoDup (ids players).

Lemma selection_nil : selection players ∅ [].
Proof. repeat split; try set_solver. constructor. Qed.

Lemma selectPairs_selection cands used final :
  (forall pr, pr ∈ map fst cands -> pr ∈ allPossiblePairs players) ->
  selection players used final ->
  selection players (fst (selectPairs cands used final))
            (snd (selectPairs cands used final)).
Proof.
  revert used final. induction cands as [|[pr n] cands IH]; intros used final Hc Hsel; [done|].
  cbn [selectPairs].
  assert (Hc' : forall pr, pr ∈ map fst cands -> pr ∈ allPossiblePairs players).
  { intros q Hq. apply Hc. simpl. by right. }
  destruct (bool_decide_reflect (playerId (fst pr) ∉ used)) as [H1|H1]; simpl;
    [|by apply IH].
  destruct (bool_decide_reflect (playerId (snd pr) ∉ used)) as [H2|H2]; simpl;
    [|by apply IH].
  assert (Hsel' : selection players ({[playerId (snd pr)]} ∪ ({[playerId (fst pr)]} ∪ used))
                            (final ++ [pr])).
  { destruct Hsel as (Hu & Hnd & Hmem).
    assert (Hpr : pr ∈ allPossiblePairs players) by (apply Hc; simpl; by left).
    destruct pr as [x y]. simpl in *.
    pose proof (allPossiblePairs_members _ _ _ Hpr) as [Hx Hy].
    pose proof (allPossiblePairs_distinct _ _ _ players_nodup Hpr) as Hxy.
    split; [|split].
    - intros z. unfold Spec.memberIds in *.
      rewrite map_app, concat_app, elem_of_app. simpl. rewrite <- Hu. set_solver.
    - unfold Spec.memberIds in *. rewrite map_app, concat_app. simpl.
      apply NoDup_app. split; [done|]. split.
      + intros z Hz%Hu. set_solver.
      + apply NoDup_cons. split; [set_solver|]. apply NoDup_singleton.
    - intros p. rewrite members_app, elem_of_app. intros [Hp|Hp]; [by apply Hmem|].
      unfold Spec.members in Hp. simpl in Hp. set_solver. }
  destruct (_ =? _); [done|by apply IH].
Qed.

(** The selected players are the roster's players whose id is used, and
    the others are the players left for the random fallback. *)
Lemma selection_split used final :
  selection players used final ->
  Spec.members final ++ filter (fun p => playerId p ∉ used) players ≡ₚ players.
Proof.
  intros (Hu & Hnd & Hmem).
  rewrite <- (filter_app_complement (fun p => playerId p ∈ used) players) at 2.
  apply Permutation_app; [|done].
  apply NoDup_Permutation.
  - rewrite memberIds_members in Hnd. by apply NoDup_fmap_1 in Hnd.
  - apply NoDup_filter. by apply NoDup_fmap_1 in players_nodup.
  - intros p. rewrite list_elem_of_filter, Hu, memberIds_members. split.
    + intros Hp. split; [|by apply Hmem].
      unfold ids. apply list_elem_of_fmap. by exists p.
    + intros [(q & Heq & Hq)%list_elem_of_fmap Hp].
      by rewrite (ids_inj players p q players_nodup Hp (Hmem _ Hq) Heq).
Qed.
End Greedy.

(** The first random fallback pairs the shuffled players two by two. *)
Lemma pushRandomPairs_all (sh : list Player) (final : list Pair) :
  Nat.even (length sh) = true ->
  2 * length final + length sh = 8 ->
  0 < length sh ->
  exists random,
    pushRandomPairs sh final = final ++ random /\ Spec.members random = sh.
Proof.
  revert final.
  induction sh as [sh IH] using (induction_ltof1 _ (@length _)). unfold ltof in IH.
  intros final Hev Hlen Hpos.
  destruct sh as [|a [|b rest]]; [simpl in *; lia|done|].
  cbn [pushRandomPairs].
  destruct (Nat.eqb_spec (length (final ++ [(a, b)])) 4) as [Heq|Hne].
  - rewrite length_app in Heq. simpl in *.
    destruct rest; [|simpl in *; lia]. by exists [(a, b)].
  - rewrite length_app in Hne. simpl in Hne.
    destruct (IH rest) with (final := final ++ [(a, b)]) as (random & Hr & Hm).
    + simpl. lia.
    + done.
    + rewrite length_app. simpl in *. lia.
    + simpl in *. destruct rest; simpl in *; lia.
    + exists ((a, b) :: random). rewrite Hr, <- app_assoc. split; [done|].
      unfold Spec.members in *. simpl. by rewrite Hm.
Qed.

(** Steps 4 and 5 for eight players with distinct ids: first-fit over the
    first four entries of the sorted list, completed by pairs drawn from a
    shuffle of the unused players. *)
Lemma choosePairs_spec players pairings pm (w : World) :
  length players = 8 ->
  NoDup (ids players) ->
  let greedy :=
    Spec.firstFit (map fst (take 4 (scoredPairs players pairings pm))) [] in
  exists random rs,
    choosePairs players pairings pm w
    = (Ok (greedy ++ random), mkWorld rs (uuids w) (clock w))
    /\ length (greedy ++ random) = 4
    /\ Spec.members random
         ≡ₚ filter (fun p => playerId p ∉ Spec.memberIds greedy) players
    /\ Spec.members (greedy ++ random) ≡ₚ players
    /\ (length greedy = 4 -> random = [] /\ rs = rands w).
Proof.
  intros Hlen Hnd greedy. unfold choosePairs, shuffleArray.
  set (cands := take 4 (scoredPairs players pairings pm)) in *.
  assert (Hc : forall pr, pr ∈ map fst cands -> pr ∈ allPossiblePairs players).
  { intros pr (c & -> & Hcin)%list_elem_of_fmap.
    apply (subseteq_take 4) in Hcin.
    unfold scoredPairs in Hcin. rewrite sortBy_elem_of in Hcin.
    by apply list_elem_of_fmap in Hcin as (q & -> & Hq). }
  pose proof (selectPairs_selection players Hnd cands ∅ [] Hc (selection_nil players Hnd))
    as Hsel.
  pose proof (selectPairs_firstFit cands ∅ [] ltac:(simpl; lia)
                ltac:(intros x; set_solver)) as Hff.
  pose proof (FixedEight.selectPairs_length cands ∅ [] ltac:(simpl; lia)) as Hle.
  fold greedy in Hff.
  destruct (selectPairs cands ∅ []) as [used final]. simpl in Hsel, Hff, Hle. subst final.
  pose proof (selection_split players Hnd used greedy Hsel) as Hsplit.
  assert (Hfilter : filter (fun p => playerId p ∉ used) players
                    = filter (fun p => playerId p ∉ Spec.memberIds greedy) players).
  { apply list_filter_iff. intros p. destruct Hsel as (Hu & _). by rewrite Hu. }
  assert (Hrem : 2 * length greedy
                 + length (filter (fun p => playerId p ∉ used) players) = 8).
  { pose proof (Permutation_length Hsplit) as Hl.
    rewrite length_app, members_length in Hl. lia. }
  unfold bind at 1.
  destruct (Nat.ltb_spec (length greedy) 4) as [Hlt|Hge].
  - destruct (Nat.leb_spec 2 (length (filter (fun p => playerId p ∉ used) players)))
      as [H2|H2]; [|lia].
    unfold bind at 1.
    destruct (shuffleLoop_spec
                (length (filter (fun p => playerId p ∉ used) players) - 1)
                (filter (fun p => playerId p ∉ used) players) w)
      as (sh & rs & -> & Hp).
    destruct (pushRandomPairs_all sh greedy) as (random & Hr & Hm).
    { rewrite Hp. replace (length _) with (2 * (4 - length greedy)) by lia.
      apply Nat.even_spec. by eexists. }
    { rewrite Hp. lia. }
    { rewrite Hp. lia. }
    assert (Hfour : length (greedy ++ random) = 4).
    { rewrite length_app.
      assert (length (Spec.members random) = 8 - 2 * length greedy)
        by (rewrite Hm, Hp; lia).
      rewrite members_length in *. lia. }
    rewrite Hr. simpl.
    destruct (Nat.ltb_spec (length (greedy ++ random)) 4) as [|_]; [lia|].
    exists random, rs. unfold ret. repeat split; try done.
    + by rewrite Hm, Hp, Hfilter.
    + by rewrite members_app, Hm, Hp.
    + lia.
    + lia.
  - assert (length greedy = 4) as Hfour by lia.
    assert (Hnil : filter (fun p => playerId p ∉ used) players = []).
    { apply nil_length_inv. lia. }
    simpl. destruct (Nat.ltb_spec (length greedy) 4) as [|_]; [lia|].
    exists [], (rands w). rewrite app_nil_r. unfold ret. destruct w as [rs us ck].
    repeat split; try done.
    + by rewrite <- Hfilter, Hnil.
    + by rewrite Hnil, app_nil_r in Hsplit.
Qed.
End FixedSelect.

Import Fixed.

(** C2 (as amended).  For a roster of exactly eight players with distinct ids
    the generator enumerates the 28 pairs [(players[i], players[j])], [i < j],
    row by row, scores each with [calculatePairScore] and sorts them ascending
    by score with a stable sort (pairs of equal score keep the order of the
    enumeration), which fixes the sorted list entirely; it then runs first-fit over the first four entries of the sorted list only
    (a pair is skipped when one of its members is already used).  When those
    four entries are pairwise disjoint they are the final pairs and no random
    number is drawn; otherwise the selected pairs are completed, up to four,
    by pairing consecutively a shuffle of the unused players. *)
Theorem choosePairs_first_fit_over_four_lowest
    (players : list Player) (pairings : list PlayerPairing)
    (pm : gmap string PlayerParticipation) (w : World) :
  length players = 8 ->
  NoDup (ids players) ->
  let sorted := scoredPairs players pairings pm in
  let greedy := Spec.firstFit (map fst (take 4 sorted)) [] in
  length (allPossiblePairs players) = 28
  /\ (forall x y, (x, y) ∈ allPossiblePairs players
                  <-> exists i j, i < j /\ players !! i = Some x /\ players !! j = Some y)
  /\ allPossiblePairs players
     = concat (imap (fun i p => map (fun q => (p, q)) (drop (S i) players)) players)
  /\ sorted ≡ₚ map (fun pr => (pr, calculatePairScore (fst pr) (snd pr) pairings pm))
                   (allPossiblePairs players)
  /\ StronglySorted (keyLe snd) sorted
  /\ (forall n, filter (fun e => snd e = n) sorted
                = filter (fun e => snd e = n)
                         (map (fun pr => (pr, calculatePairScore (fst pr) (snd pr)
                                                pairings pm))
                              (allPossiblePairs players)))
  /\ exists random rs,
       choosePairs players pairings pm w
       = (Ok (greedy ++ random), mkWorld rs (uuids w) (clock w))
       /\ length (greedy ++ random) = 4
       /\ Spec.members random
            ≡ₚ filter (fun p => playerId p ∉ Spec.memberIds greedy) players
       /\ (length greedy = 4 -> random = [] /\ rs = rands w).
Proof.
  intros Hlen Hnd sorted greedy.
  split; [|split; [|split; [|split; [|split; [|split]]]]].
  - pose proof (FixedSelect.allPossiblePairs_length players) as H.
    rewrite Hlen in H. simpl in H. lia.
  - apply FixedSelect.elem_of_allPossiblePairs.
  - apply FixedSelect.allPossiblePairs_rows.
  - apply FixedSelect.scoredPairs_sorted.
  - apply FixedSelect.scoredPairs_sorted.
  - intros n. apply FixedSelect.scoredPairs_stable.
  - destruct (FixedSelect.choosePairs_spec players pairings pm w Hlen Hnd)
      as (random & rs & Hch & Hfour & Hrand & _ & Hdet).
    by exists random, rs.
Qed.

Lemma choosePairs_first_fit_over_four_lowest_witness :
  exists random rs,
    choosePairs Examples.eightPlayers (getPairings [Examples.firstMatch])
      (participationOf 0 Examples.eightPlayers [Examples.firstMatch]) Examples.quietWorld
    = (Ok (Spec.firstFit
             (map fst (take 4 (scoredPairs Examples.eightPlayers
                                 (getPairings [Examples.firstMatch])
                                 (participationOf 0 Examples.eightPlayers
                                    [Examples.firstMatch]))))
             [] ++ random),
       mkWorld rs (uuids Examples.quietWorld) (clock Examples.quietWorld))
    /\ length random = 3.
Proof.
  destruct (choosePairs_first_fit_over_four_lowest Examples.eightPlayers
              (getPairings [Examples.firstMatch])
              (participationOf 0 Examples.eightPlayers [Examples.firstMatch])
              Examples.quietWorld)
    as (_ & _ & _ & _ & _ & _ & random & rs & Hch & Hlen & _).
  - reflexivity.
  - apply (bool_decide_unpack _). vm_compute. exact I.
  - exists random, rs. split; [exact Hch|].
    rewrite length_app in Hlen.
    match type of Hlen with
    | length ?g + _ = _ =>
        assert (Hg : length g = 1) by (vm_compute; reflexivity); rewrite Hg in Hlen
    end.
    lia.
Defined.

(** Eight players without history: every score is 0, the sorted list is the
    enumeration order and its first four entries all hold player a.  First-fit
    over the whole list would find the four disjoint pairs (a,b), (c,d),
    (e,f), (g,h) and need no random pairing; the generator keeps (a,b) only
    and draws the other three pairs from a shuffle. *)
Lemma choosePairs_not_first_fit_over_whole_list :
  let pairings := getPairings [] in
  let pm := participationOf 0 Examples.eightPlayers [] in
  let sorted := scoredPairs Examples.eightPlayers pairings pm in
  map (fun pr => (playerId (fst pr), playerId (snd pr))) (Spec.firstFit (map fst sorted) [])
  = [("a", "b"); ("c", "d"); ("e", "f"); ("g", "h")]
  /\ map (fun pr => (playerId (fst pr), playerId (snd pr)))
         (Spec.firstFit (map fst (take 4 sorted)) [])
     = [("a", "b")]
  /\ exists fp,
       choosePairs Examples.eightPlayers pairings pm (mkWorld [0; 0; 0; 0; 0] [] 0)
       = (Ok fp, mkWorld [] [] 0)
       /\ map (fun pr => (playerId (fst pr), playerId (snd pr))) fp
          = [("a", "b"); ("d", "e"); ("f", "g"); ("h", "c")]
       /\ fp <> Spec.firstFit (map fst sorted) [].
Proof.
  split; [vm_compute; reflexivity|].
  split; [vm_compute; reflexivity|].
  eexists. split; [vm_compute; reflexivity|].
  split; [vm_compute; reflexivity|].
  vm_compute. discriminate.
Qed.


(** * Rounds of the fixed-case generator *)

Module FixedRound.
Import Fixed.

Lemma pushMatch_spec (ms : list Match) (ps : list Player) (c : nat) (w : World) :
  exists u us,
    pushMatch ms ps c w
    = (Ok (ms ++ [mkMatch u ps c Left]), mkWorld (rands w) us (clock w)).
Proof.
  unfold pushMatch, bind, randomUUID, ret.
  destruct (uuids w) as [|u us] eqn:Hu; [|by eauto].
  exists EmptyString, []. destruct w; simpl in *; by subst.
Qed.

Lemma grouping_members (k : nat) (p1 p2 p3 p4 : Pair) :
  fst (Spec.grouping k p1 p2 p3 p4) ++ snd (Spec.grouping k p1 p2 p3 p4)
    ≡ₚ Spec.members [p1; p2; p3; p4]
  /\ length (fst (Spec.grouping k p1 p2 p3 p4)) = 4
  /\ length (snd (Spec.grouping k p1 p2 p3 p4)) = 4.
Proof.
  assert (H3 : [fst p1; snd p1; fst p4; snd p4] ++ [fst p2; snd p2; fst p3; snd p3]
               ≡ₚ Spec.members [p1; p2; p3; p4]).
  { unfold Spec.members. simpl. do 2 apply Permutation_skip.
    apply (Permutation_app_comm [fst p4; snd p4] [fst p2; snd p2; fst p3; snd p3]). }
  destruct k as [|[|[|k]]]; (split; [|done]); try exact H3.
  - done.
  - unfold Spec.members. simpl. do 2 apply Permutation_skip.
    apply (Permutation_app_swap_app [fst p3; snd p3] [fst p2; snd p2] [fst p4; snd p4]).
Qed.

Lemma arrangeCourts_grouping pairings pm (p1 p2 p3 p4 : Pair) :
  exists k, arrangeCourts pairings pm p1 p2 p3 p4 = Spec.grouping k p1 p2 p3 p4.
Proof.
  unfold arrangeCourts.
  destruct (_ && _); [by exists 1|]. destruct (_ && _); [by exists 2|by exists 3].
Qed.

(** The round of every roster with distinct ids: the players of its matches,
    taken together, form a sub-multiset of the roster; with eight players
    there are two matches of four that together hold the whole roster. *)
Lemma generateDoublesMatches_round roster courts prev (w : World) :
  NoDup (ids roster) ->
  exists ms w',
    generateDoublesMatches roster courts prev w = (Ok ms, w')
    /\ concat (map players ms) ⊆+ roster
    /\ (length roster = 8 ->
        exists m1 m2, ms = [m1; m2]
                      /\ length (players m1) = 4
                      /\ length (players m2) = 4
                      /\ court m1 = 1 /\ court m2 = 2
                      /\ players m1 ++ players m2 ≡ₚ roster).
Proof.
  intros Hnd.
  destruct (decide (length roster = 8)) as [H8|H8].
  - destruct (FixedEight.generateDoublesMatches_eight roster courts prev w H8)
      as (p1 & p2 & p3 & p4 & w1 & Hch & u1 & u2 & w2 & Hgen).
    destruct (FixedSelect.choosePairs_spec roster (getPairings prev)
                (participationOf (clock w) roster prev) w H8 Hnd)
      as (random & rs & Hch' & _ & _ & Hall & _).
    rewrite Hch in Hch'. injection Hch' as Hfp _.
    rewrite <- Hfp in Hall.
    destruct (arrangeCourts_grouping (getPairings prev)
                (participationOf (clock w) roster prev) p1 p2 p3 p4) as [k Hk].
    rewrite Hk in Hgen.
    destruct (grouping_members k p1 p2 p3 p4) as (Hperm & Hl1 & Hl2).
    eexists _, w2. split; [exact Hgen|]. split.
    + simpl. rewrite app_nil_r, Hperm, Hall. done.
    + intros _. eexists _, _. split; [done|]. simpl.
      repeat split; try done. by rewrite Hperm.
  - unfold generateDoublesMatches, bind at 1, dateNow.
    set (pm := participationOf (clock w) roster prev).
    set (sorted := sortBy (fun p => totalPlayed (pm !! playerId p)) roster).
    set (singles := sortBy (fun p => singlesPlayed (pm !! playerId p)) (drop 4 sorted)).
    assert (Hsorted : sorted ≡ₚ roster) by apply sortBy_Permutation.
    assert (Hone : forall c w0, exists ms w',
               pushMatch [] (take 4 sorted) c w0 = (Ok ms, w')
               /\ concat (map players ms) ⊆+ roster
               /\ (length roster = 8 -> False)).
    { intros c w0. destruct (pushMatch_spec [] (take 4 sorted) c w0) as (u & us & ->).
      eexists _, _. split; [done|]. split; [|done].
      simpl. rewrite app_nil_r, <- Hsorted.
      apply sublist_submseteq, sublist_take. }
    assert (Htwo : forall n w0, length roster = 4 + n -> exists ms w',
               bind (pushMatch [] (take 4 sorted) 1)
                    (fun ms => pushMatch ms (take n singles) 2) w0 = (Ok ms, w')
               /\ concat (map players ms) ⊆+ roster
               /\ (length roster = 8 -> False)).
    { intros n w0 Hn. unfold bind.
      destruct (pushMatch_spec [] (take 4 sorted) 1 w0) as (u & us & ->).
      cbn [app].
      destruct (pushMatch_spec [mkMatch u (take 4 sorted) 1 Left] (take n singles) 2
                  (mkWorld (rands w0) us (clock w0))) as (u' & us' & ->).
      eexists _, _. split; [done|]. split; [|done].
      simpl. rewrite app_nil_r.
      assert (Hs : take n singles ≡ₚ drop 4 sorted).
      { rewrite take_ge; [apply sortBy_Permutation|].
        unfold singles. rewrite sortBy_length, length_drop.
        unfold sorted. rewrite sortBy_length. lia. }
      by rewrite Hs, take_drop, Hsorted. }
    assert (Hany : exists ms w',
               match length roster with
               | 4 | 5 => pushMatch [] (take 4 sorted) 1
               | 6 => if courts =? 1 then pushMatch [] (take 4 sorted) 1
                      else bind (pushMatch [] (take 4 sorted) 1)
                                (fun ms => pushMatch ms (take 2 singles) 2)
               | 7 => if courts =? 1 then pushMatch [] (take 4 sorted) 1
                      else bind (pushMatch [] (take 4 sorted) 1)
                                (fun ms => pushMatch ms (take 3 singles) 2)
               | 8 => bind (choosePairs roster (getPairings prev) pm)
                        (fun finalPairs =>
                           match finalPairs with
                           | pair1 :: pair2 :: pair3 :: pair4 :: _ =>
                               let '(court1Players, court2Players) :=
                                 arrangeCourts (getPairings prev) pm pair1 pair2 pair3 pair4 in
                               bind (pushMatch [] court1Players 1)
                                    (fun ms => pushMatch ms court2Players 2)
                           | _ => throw typeError
                           end)
               | _ => ret []
               end w = (Ok ms, w')
               /\ concat (map players ms) ⊆+ roster
               /\ (length roster = 8 -> False)).
    { destruct (length roster) as [|[|[|[|[|[|[|[|[|n]]]]]]]]] eqn:Hlen;
        try (exists [], w; split; [done|]; split; [apply submseteq_nil_l|done]);
        try done; try apply Hone.
      all: destruct (courts =? 1); [apply Hone|by apply Htwo]. }
    destruct Hany as (ms & w' & Hgen & Hsub & _).
    exists ms, w'. split; [exact Hgen|]. split; [done|]. intros; done.
Qed.
End FixedRound.


(** * The general generator: recording a match, searching, building a round *)

Section OrderedMapFacts.
Context {V : Type}.
Implicit Types (m : list (string * V)) (k : string) (f : V -> V).

Lemma mapGet_mapAlter_eq f k m : mapGet k (mapAlter f k m) = f <$> mapGet k m.
Proof.
  induction m as [|[k' v] m IH]; simpl; [done|].
  destruct (String.eqb_spec k k') as [->|Hne]; simpl.
  - by rewrite String.eqb_refl.
  - by destruct (String.eqb_spec k k').
Qed.

Lemma mapGet_mapAlter_ne f k k' m : k <> k' -> mapGet k' (mapAlter f k m) = mapGet k' m.
Proof.
  intros Hne. induction m as [|[k0 v] m IH]; simpl; [done|].
  destruct (String.eqb_spec k k0) as [->|Hne0]; simpl.
  - by destruct (String.eqb_spec k' k0) as [->|].
  - by destruct (String.eqb_spec k' k0).
Qed.

Lemma mapAlter_keys f k m : map fst (mapAlter f k m) = map fst m.
Proof.
  induction m as [|[k' v] m IH]; simpl; [done|].
  destruct (String.eqb k k'); simpl; [done|by rewrite IH].
Qed.

Lemma mapAlter_project {W : Type} (g : V -> W) f k m :
  (forall v, g (f v) = g v) ->
  map (fun kv => (fst kv, g (snd kv))) (mapAlter f k m)
  = map (fun kv => (fst kv, g (snd kv))) m.
Proof.
  intros Hg. induction m as [|[k' v] m IH]; simpl; [done|].
  destruct (String.eqb k k'); simpl; [by rewrite Hg|by rewrite IH].
Qed.

Lemma mapGet_project {W : Type} (g : V -> W) k m m' :
  map (fun kv => (fst kv, g (snd kv))) m = map (fun kv => (fst kv, g (snd kv))) m' ->
  g <$> mapGet k m = g <$> mapGet k m'.
Proof.
  revert m'. induction m as [|[k1 v1] m IH]; intros [|[k2 v2] m'] Heq;
    try discriminate; [done|].
  simpl in Heq. injection Heq as -> Hv Hm. simpl.
  destruct (String.eqb k k2); simpl; [by rewrite Hv|by apply IH].
Qed.

Lemma mapSet_fresh k v m : k ∉ map fst m -> mapSet k v m = m ++ [(k, v)].
Proof.
  induction m as [|[k' v'] m IH]; simpl; intros Hk; [done|].
  apply not_elem_of_cons in Hk as [Hne Hk].
  destruct (String.eqb_spec k k'); [done|]. by rewrite IH.
Qed.
End OrderedMapFacts.

Module GeneralFacts.
Import General.

Lemma liftW_ok {A : Type} (m : M World A) (e : Env) (a : A) (w' : World) :
  m (ambient e) = (Ok a, w') ->
  liftW m e = (Ok a, mkEnv (currentRound e) (globalPlayerHistories e) w').
Proof. intros H. unfold liftW. by rewrite H. Qed.

Lemma liftH_ok {A : Type} (m : M Histories A) (e : Env) (a : A) (h' : Histories) :
  m (globalPlayerHistories e) = (Ok a, h') ->
  liftH m e = (Ok a, mkEnv (currentRound e) h' (ambient e)).
Proof. intros H. unfold liftH. by rewrite H. Qed.

Lemma liftW_randomUUID (e : Env) :
  exists u us,
    liftW randomUUID e
    = (Ok u, mkEnv (currentRound e) (globalPlayerHistories e)
                   (mkWorld (rands (ambient e)) us (clock (ambient e)))).
Proof.
  unfold liftW, randomUUID. destruct (uuids (ambient e)) as [|u us] eqn:Hu; [|by eauto].
  exists EmptyString, []. destruct e as [? ? []]; simpl in *; by subst.
Qed.

Lemma liftW_randomBelow (n : nat) (e : Env) :
  exists x rs,
    liftW (randomBelow n) e
    = (Ok x, mkEnv (currentRound e) (globalPlayerHistories e)
                   (mkWorld rs (uuids (ambient e)) (clock (ambient e)))).
Proof.
  unfold liftW, randomBelow. destruct (rands (ambient e)) as [|r rs] eqn:Hr; [|by eauto].
  exists 0, []. destruct e as [? ? []]; simpl in *; by subst.
Qed.

(** *** Recording a match *)

Lemma linkPlayer_even ps i p (h : Histories) :
  Nat.even (length ps) = true ->
  linkPlayer ps i p h = (Ok tt, mapAlter (linkEffect ps i) (playerId p) h).
Proof.
  intros Hev. unfold linkPlayer. rewrite Hev.
  destruct (mapGet (playerId p) h) as [x|] eqn:Hget.
  - unfold linkEffect, teamOf, opponentsOf. by destruct (i <? _).
  - f_equal. clear Hev. induction h as [|[k v] h IH]; simpl in *; [done|].
    destruct (String.eqb (playerId p) k); [done|]. by rewrite <- IH.
Qed.

Lemma linkPlayers_even ps i rest (h : Histories) :
  Nat.even (length ps) = true ->
  linkPlayers ps i rest h = (Ok tt, linkAll ps i rest h).
Proof.
  intros Hev. revert i h. induction rest as [|p rest IH]; intros i h; simpl; [done|].
  unfold bind. rewrite linkPlayer_even by done. apply IH.
Qed.

(** A match with an even number of players is recorded without exception. *)
Lemma updatePlayerHistories_even (m : Match) (h : Histories) :
  Nat.even (length (players m)) = true ->
  updatePlayerHistories m h = (Ok tt, recorded m h).
Proof.
  intros Hev. unfold updatePlayerHistories, bind, recorded.
  by rewrite linkPlayers_even.
Qed.

Lemma linkAll_project {W : Type} (g : PlayerHistory -> W) ps i rest (h : Histories) :
  (forall j x, g (linkEffect ps j x) = g x) ->
  map (fun kv => (fst kv, g (snd kv))) (linkAll ps i rest h)
  = map (fun kv => (fst kv, g (snd kv))) h.
Proof.
  intros Hg. revert i h. induction rest as [|p rest IH]; intros i h; simpl; [done|].
  rewrite IH. by apply mapAlter_project.
Qed.

Lemma played_project {W : Type} (g : PlayerHistory -> W) ps (h : Histories) :
  (forall x, g (played x) = g x) ->
  map (fun kv => (fst kv, g (snd kv)))
      (foldl (fun hs p => mapAlter played (playerId p) hs) h ps)
  = map (fun kv => (fst kv, g (snd kv))) h.
Proof.
  intros Hg. revert h. induction ps as [|p ps IH]; intros h; simpl; [done|].
  rewrite IH. by apply mapAlter_project.
Qed.

Lemma recorded_keyedBy roster (m : Match) (h : Histories) :
  keyedBy roster h -> keyedBy roster (recorded m h).
Proof.
  unfold keyedBy, recorded. intros <-.
  rewrite (linkAll_project player) by done. by rewrite (played_project player).
Qed.

(** Recording adds to [gamesPlayed] the number of times the player is
    listed in the match, and changes no other count. *)
Lemma recorded_gamesOf (m : Match) (h : Histories) (k : string) :
  gamesOf (recorded m h) k = (fun n => n + timesIn k [m]) <$> gamesOf h k.
Proof.
  unfold gamesOf, recorded, timesIn. simpl. rewrite app_nil_r.
  rewrite (mapGet_project gamesPlayed k _
             (foldl (fun hs p => mapAlter played (playerId p) hs) h (players m)))
    by (by apply linkAll_project).
  generalize (players m) as ps. intros ps. revert h.
  induction ps as [|p ps IH]; intros h; simpl.
  - rewrite <- option_fmap_compose. destruct (mapGet k h); simpl; [f_equal; lia|done].
  - rewrite IH, filter_cons.
    destruct (decide (playerId p = k)) as [<-|Hne].
    + rewrite mapGet_mapAlter_eq, <- !option_fmap_compose.
      destruct (mapGet (playerId p) h); simpl; [f_equal; lia|done].
    + by rewrite mapGet_mapAlter_ne.
Qed.

(** *** The bounded search *)

Lemma sharedPartnerships_even (h : Histories) (l : list Player) :
  Nat.even (length l) = true -> exists n, sharedPartnerships h l = Ok n.
Proof. intros Hev. unfold sharedPartnerships. rewrite Hev. by eexists. Qed.

(** For an even number of players the search returns an arrangement of
    those players; it reads random numbers only. *)
Lemma searchLoop_spec n ps (h : Histories) best bound (w : World) :
  Nat.even (length ps) = true ->
  best ≡ₚ ps ->
  exists res rs,
    searchLoop n ps h best bound w = (Ok res, mkWorld rs (uuids w) (clock w))
    /\ res ≡ₚ ps.
Proof.
  intros Hev. revert best bound w.
  induction n as [|n IH]; intros best bound w Hbest.
  - exists best, (rands w). by destruct w.
  - cbn [searchLoop]. unfold bind.
    destruct (shuffleLoop_spec (length ps - 1) ps w) as (sh & rs & -> & Hp).
    destruct (sharedPartnerships_even h sh) as [s ->]; [by rewrite Hp|].
    destruct (match bound with None => true | Some b => s <? b end).
    + destruct (s =? 0); [by exists sh, rs|].
      destruct (IH sh (Some s) (mkWorld rs (uuids w) (clock w)) Hp)
        as (res & rs' & -> & Hres).
      by exists res, rs'.
    + destruct (IH best bound (mkWorld rs (uuids w) (clock w)) Hbest)
        as (res & rs' & -> & Hres).
      by exists res, rs'.
Qed.

Lemma findOptimalPairing_spec ps (h : Histories) (w : World) :
  Nat.even (length ps) = true ->
  exists res rs,
    findOptimalPairing ps h w = (Ok res, mkWorld rs (uuids w) (clock w))
    /\ res ≡ₚ ps.
Proof. intros Hev. by apply searchLoop_spec. Qed.

(** *** One round *)


Lemma courtLoop_spec r c sh acc (e : Env) :
  1 <= c ->
  (c - 1 + r) * 4 <= length sh ->
  exists new e',
    courtLoop r c sh acc e = (Ok (acc ++ new), e')
    /\ length new = r
    /\ Forall (fun m => length (players m) = 4) new
    /\ map court new = seq c r
    /\ concat (map players new) ≡ₚ take (4 * r) (drop ((c - 1) * 4) sh)
    /\ updateAll new (globalPlayerHistories e) = (Ok tt, globalPlayerHistories e')
    /\ currentRound e' = currentRound e
    /\ clock (ambient e') = clock (ambient e).
Proof.
  revert c acc e. induction r as [|r IH]; intros c acc e Hc Hlen.
  - exists [], e. rewrite app_nil_r. by repeat split.
  - cbn [courtLoop]. unfold bind at 1, get.
    set (courtPlayers := take 4 (drop ((c - 1) * 4) sh)).
    assert (Hcp : length courtPlayers = 4).
    { unfold courtPlayers. rewrite length_take, length_drop. lia. }
    destruct (findOptimalPairing_spec courtPlayers (globalPlayerHistories e) (ambient e))
      as (opt & rs & Hopt & Hperm); [by rewrite Hcp|].
    unfold bind at 1. rewrite (liftW_ok _ _ _ _ Hopt).
    unfold bind at 1.
    match goal with
    | |- context [liftW randomUUID ?E] => destruct (liftW_randomUUID E) as (u & us & ->)
    end.
    cbn [currentRound globalPlayerHistories ambient rands uuids clock].
    unfold bind at 1.
    match goal with
    | |- context [liftW (randomBelow 2) ?E] =>
        destruct (liftW_randomBelow 2 E) as (x & rs' & ->)
    end.
    cbn [currentRound globalPlayerHistories ambient rands uuids clock].
    set (m := mkMatch u opt c (if x =? 0 then Left else Right)).
    assert (Hm4 : length (players m) = 4) by (simpl; by rewrite Hperm).
    unfold bind at 1.
    rewrite (liftH_ok _ _ tt (recorded m (globalPlayerHistories e)))
      by (apply updatePlayerHistories_even; by rewrite Hm4).
    simpl.
    destruct (IH (c + 1) (acc ++ [m])
                (mkEnv (currentRound e) (recorded m (globalPlayerHistories e))
                       (mkWorld rs' us (clock (ambient e)))))
      as (new & e' & -> & Hn & Hall & Hcourts & Hcat & Hupd & Hround & Hclock);
      [lia|lia|].
    exists (m :: new), e'. rewrite <- app_assoc.
    split; [done|]. split; [simpl; by rewrite Hn|]. split; [by constructor|].
    split; [|split; [|split; [|by split]]].
    + cbn [map seq]. rewrite Hcourts. f_equal. f_equal. lia.
    + cbn [map concat]. rewrite Hcat. change (players m) with opt.
      rewrite Hperm. unfold courtPlayers.
      replace ((c + 1 - 1) * 4) with ((c - 1) * 4 + 4) by lia.
      rewrite <- drop_drop, take_take_drop.
      by replace (4 + 4 * r) with (4 * S r) by lia.
    + cbn [updateAll]. unfold bind.
      rewrite updatePlayerHistories_even by (by rewrite Hm4). exact Hupd.
Qed.
End GeneralFacts.


(** * Rounds and sessions of the general generator *)

Module GeneralRound.
Import General GeneralFacts.

Lemma updateAll_even (ms : list Match) (h : Histories) :
  Forall (fun m => Nat.even (length (players m)) = true) ms ->
  updateAll ms h = (Ok tt, recordedAll ms h).
Proof.
  intros Hev. revert h. induction Hev as [|m ms Hm Hms IH]; intros h; [done|].
  cbn [updateAll]. unfold bind. rewrite updatePlayerHistories_even by done. apply IH.
Qed.

Lemma even_of_four (ms : list Match) :
  Forall (fun m => length (players m) = 4) ms ->
  Forall (fun m => Nat.even (length (players m)) = true) ms.
Proof. intros H. eapply Forall_impl; [exact H|]. by intros m ->. Qed.

Lemma recordedAll_keyedBy roster (ms : list Match) (h : Histories) :
  keyedBy roster h -> keyedBy roster (recordedAll ms h).
Proof.
  revert h. induction ms as [|m ms IH]; intros h Hk; [done|].
  apply IH. by apply recorded_keyedBy.
Qed.



(** [generateRound] always returns.  Its matches have four players each,
    on courts 1, 2, ...; together they form a sub-multiset of the players
    held in the histories; and the histories it leaves are those obtained
    by recording every returned match. *)
Lemma generateRound_spec (ps : list Player) (courts : nat) (e : Env) :
  exists ms e',
    generateRound ps courts e = (Ok ms, e')
    /\ length ms = roundSize (length (globalPlayerHistories e)) courts
    /\ Forall (fun m => length (players m) = 4) ms
    /\ map court ms = seq 1 (length ms)
    /\ concat (map players ms) ⊆+ map (fun kv => player (snd kv)) (globalPlayerHistories e)
    /\ globalPlayerHistories e' = recordedAll ms (globalPlayerHistories e)
    /\ currentRound e' = currentRound e
    /\ clock (ambient e') = clock (ambient e).
Proof.
  unfold generateRound, bind at 1, get, roundSize.
  pose proof (findLeastPlayedPlayers_length (globalPlayerHistories e) (courts * 4)) as Hsel.
  set (selected := findLeastPlayedPlayers (globalPlayerHistories e) (courts * 4)) in *.
  destruct (Nat.ltb_spec (length selected) (courts * 4)) as [Hlt|Hge].
  - destruct (Nat.ltb_spec (length (globalPlayerHistories e)) (courts * 4)); [|lia].
    exists [], e. repeat split; try done. apply submseteq_nil_l.
  - destruct (Nat.ltb_spec (length (globalPlayerHistories e)) (courts * 4)); [lia|].
    unfold bind.
    destruct (shuffleLoop_spec (length selected - 1) selected (ambient e))
      as (sh & rs & Hsh & Hperm).
    rewrite (liftW_ok _ _ _ _ Hsh).
    destruct (courtLoop_spec courts 1 sh []
                (mkEnv (currentRound e) (globalPlayerHistories e)
                       (mkWorld rs (uuids (ambient e)) (clock (ambient e)))))
      as (new & e' & -> & Hn & Hall & Hcourts & Hcat & Hupd & Hround & Hclock);
      [lia|rewrite Hperm; lia|].
    exists new, e'. simpl in *.
    rewrite updateAll_even in Hupd by (by apply even_of_four).
    repeat split; try done.
    + by rewrite Hn.
    + rewrite Hcat, drop_0, take_ge by (rewrite Hperm; lia).
      rewrite Hperm. unfold selected, findLeastPlayedPlayers.
      transitivity (map player (sortBy gamesPlayed (map snd (globalPlayerHistories e)))).
      * apply sublist_submseteq, fmap_sublist, sublist_take.
      * rewrite sortBy_Permutation. by rewrite <- list_fmap_compose.
    + congruence.
Qed.

(** With distinct ids [generateSession] starts from one fresh history per
    player, in roster order. *)
Lemma initial_histories (roster : list Player) :
  NoDup (ids roster) ->
  foldl (fun hs p => mapSet (playerId p) (createPlayerHistory p) hs) [] roster
  = freshHistories roster.
Proof.
  intros Hnd. unfold freshHistories.
  assert (Hgen : forall acc,
    NoDup (ids (acc ++ roster)) ->
    foldl (fun hs p => mapSet (playerId p) (createPlayerHistory p) hs)
          (map (fun p => (playerId p, createPlayerHistory p)) acc) roster
    = map (fun p => (playerId p, createPlayerHistory p)) (acc ++ roster)).
  { clear Hnd. induction roster as [|p roster IH]; intros acc Hnd; simpl.
    - by rewrite app_nil_r.
    - rewrite mapSet_fresh.
      + replace (map (fun p => (playerId p, createPlayerHistory p)) acc
                 ++ [(playerId p, createPlayerHistory p)])
          with (map (fun p => (playerId p, createPlayerHistory p)) (acc ++ [p]))
          by (by rewrite map_app).
        rewrite (IH (acc ++ [p])) by (by rewrite <- app_assoc).
        by rewrite <- app_assoc.
      + unfold ids in Hnd. rewrite map_app in Hnd. apply NoDup_app in Hnd as (_ & Hnot & _).
        rewrite <- list_fmap_compose. intros Hin. apply (Hnot _ Hin). simpl. by left. }
  by apply (Hgen []).
Qed.

Lemma freshHistories_keyedBy (roster : list Player) : keyedBy roster (freshHistories roster).
Proof. unfold keyedBy, freshHistories. by rewrite <- list_fmap_compose. Qed.

Lemma keyedBy_inv roster (h : Histories) :
  keyedBy roster h ->
  map fst h = ids roster /\ map (fun kv => player (snd kv)) h = roster.
Proof.
  unfold keyedBy. revert roster.
  induction h as [|[k v] h IH]; intros [|p roster] Hk; try discriminate; [done|].
  simpl in Hk. injection Hk as -> Hv Hrest.
  destruct (IH roster Hrest) as [Hkeys Hpl]. simpl. by rewrite Hkeys, Hpl, Hv.
Qed.

Lemma keyedBy_players roster (h : Histories) :
  keyedBy roster h -> map (fun kv => player (snd kv)) h = roster /\ length h = length roster.
Proof.
  intros Hk. destruct (keyedBy_inv roster h Hk) as [Hkeys Hpl]. split; [done|].
  apply (f_equal length) in Hpl. by rewrite length_map in Hpl.
Qed.



End GeneralRound.


(** * The general generator over a whole session *)

(** ** Rounds within the roster *)

Lemma submseteq_NoDup {A : Type} (l k : list A) : l ⊆+ k -> NoDup k -> NoDup l.
Proof.
  intros [k' Hk]%submseteq_Permutation Hnd. rewrite Hk in Hnd.
  by apply NoDup_app in Hnd as (? & _ & _).
Qed.

(** What a sub-multiset of a roster with distinct ids gives: distinct ids,
    all drawn from the roster. *)
Lemma round_within_roster (roster : list Player) (ms : list Match) :
  NoDup (ids roster) ->
  concat (map players ms) ⊆+ roster ->
  NoDup (ids (concat (map players ms)))
  /\ (forall p, p ∈ concat (map players ms) -> p ∈ roster).
Proof.
  intros Hnd Hsub. split.
  - eapply submseteq_NoDup; [|exact Hnd]. unfold ids. by apply fmap_submseteq.
  - intros p Hp. by eapply elem_of_submseteq.
Qed.

Module GeneralSession.
Import General GeneralFacts GeneralRound.

Lemma linkPlayer_roll ps i p (h : Histories) :
  roll (snd (linkPlayer ps i p h)) = roll h.
Proof.
  unfold linkPlayer. destruct (mapGet (playerId p) h); [|done].
  destruct (Nat.even (length ps)); [|destruct (i <=? length ps / 2)]; simpl;
    try done; by apply mapAlter_project.
Qed.

Lemma linkPlayers_roll ps i rest (h : Histories) :
  roll (snd (linkPlayers ps i rest h)) = roll h.
Proof.
  revert i h. induction rest as [|p rest IH]; intros i h; [done|].
  cbn [linkPlayers]. unfold bind.
  pose proof (linkPlayer_roll ps i p h) as Hp.
  destruct (linkPlayer ps i p h) as [[[]|msg] h1]; simpl in *; [|done].
  by rewrite IH.
Qed.

Lemma updatePlayerHistories_roll (m : Match) (h : Histories) :
  roll (snd (updatePlayerHistories m h)) = roll h.
Proof.
  unfold updatePlayerHistories, bind. rewrite linkPlayers_roll.
  by apply played_project.
Qed.

Lemma updateAll_roll (ms : list Match) (h : Histories) :
  roll (snd (updateAll ms h)) = roll h.
Proof.
  revert h. induction ms as [|m ms IH]; intros h; [done|].
  cbn [updateAll]. unfold bind.
  pose proof (updatePlayerHistories_roll m h) as Hm.
  destruct (updatePlayerHistories m h) as [[[]|msg] h1]; simpl in *; [|done].
  by rewrite IH.
Qed.

Lemma updateAll_keyedBy roster (ms : list Match) (h : Histories) :
  keyedBy roster h -> keyedBy roster (snd (updateAll ms h)).
Proof. unfold keyedBy. intros <-. apply updateAll_roll. Qed.

(** Recording raises nothing but a [TypeError], and only when a match has
    an odd number of players. *)
Lemma updateAll_outcome (ms : list Match) (h : Histories) :
  (exists h', updateAll ms h = (Ok tt, h'))
  \/ (exists h', updateAll ms h = (Throw typeError, h') /\ ~ evenSized ms).
Proof.
  destruct (updateAll ms h) as [[[]|msg] h'] eqn:Hu; [left; by exists h'|right].
  pose proof (GeneralThrows.onlyThrows_updateAll ms h msg h' Hu) as ->.
  exists h'. split; [done|]. intros Hev.
  rewrite (updateAll_even ms h Hev) in Hu. discriminate.
Qed.

(** What a round drawn from histories that hold the roster looks like. *)
Lemma generateRound_fullRound roster ps courts (e : Env) :
  NoDup (ids roster) ->
  keyedBy roster (globalPlayerHistories e) ->
  exists ms e',
    generateRound ps courts e = (Ok ms, e')
    /\ fullRound roster courts ms
    /\ concat (map players ms) ⊆+ roster
    /\ keyedBy roster (globalPlayerHistories e')
    /\ globalPlayerHistories e' = recordedAll ms (globalPlayerHistories e)
    /\ currentRound e' = currentRound e.
Proof.
  intros Hnd Hk.
  destruct (generateRound_spec ps courts e)
    as (ms & e' & Hgen & Hn & Hfour & Hcourts & Hsub & Hh & Hround & _).
  destruct (keyedBy_players roster _ Hk) as [Hpl Hl].
  rewrite Hpl in Hsub. rewrite Hl in Hn.
  destruct (round_within_roster roster ms Hnd Hsub) as [Hids Hin].
  exists ms, e'. split; [done|]. split; [by repeat split|]. split; [done|].
  split; [|done]. rewrite Hh. by apply recordedAll_keyedBy.
Qed.

(** A full round of eight players on two courts holds the whole roster. *)
Lemma fullRound_eight roster (ms : list Match) :
  length roster = 8 -> fullRound roster 2 ms -> concat (map players ms) ⊆+ roster ->
  concat (map players ms) ≡ₚ roster.
Proof.
  intros H8 (_ & _ & Hfour & _ & Hn) Hsub.
  apply submseteq_length_Permutation; [done|].
  rewrite H8 in *. simpl in Hn.
  destruct ms as [|m1 [|m2 [|m3 ms]]]; simpl in *; try discriminate.
  inversion Hfour as [|? ? H1 Hfour']; subst. inversion Hfour' as [|? ? H2 _]; subst.
  rewrite length_app, app_nil_r. lia.
Qed.

(** Any call of [generateNextRound] from histories that hold the roster. *)
Lemma generateNextRound_any roster ps courts (completed : list Match) (e : Env) :
  NoDup (ids roster) ->
  keyedBy roster (globalPlayerHistories e) ->
  exists r e',
    generateNextRound ps courts completed e = (r, e')
    /\ keyedBy roster (globalPlayerHistories e')
    /\ match r with
       | Ok ms => fullRound roster courts ms
                  /\ concat (map players ms) ⊆+ roster
                  /\ currentRound e' = currentRound e + 1
       | Throw msg => msg = typeError /\ ~ evenSized completed
                      /\ currentRound e' = currentRound e
       end.
Proof.
  intros Hnd Hk. unfold generateNextRound. unfold bind at 1. unfold liftH at 1.
  pose proof (updateAll_keyedBy roster completed _ Hk) as Hk1.
  destruct (updateAll_outcome completed (globalPlayerHistories e))
    as [[h1 Hu]|(h1 & Hu & Hodd)]; rewrite Hu in *; simpl in Hk1.
  - unfold bind at 1, get. unfold bind at 1, setCurrentRound.
    cbn [currentRound globalPlayerHistories ambient].
    destruct (generateRound_fullRound roster ps courts
                (mkEnv (currentRound e + 1) h1 (ambient e)) Hnd Hk1)
      as (ms & e' & -> & Hfull & Hsub & Hk' & _ & Hround).
    exists (Ok ms), e'. split; [reflexivity|]. split; [exact Hk'|].
    split; [exact Hfull|]. split; [exact Hsub|]. by rewrite Hround.
  - eexists _, _. split; [reflexivity|]. simpl. split; [exact Hk1|]. by repeat split.
Qed.

(** Any call of [generateSession] on a roster of four or more. *)
Lemma generateSession_any roster courts (prev : list Match) (e : Env) :
  NoDup (ids roster) ->
  4 <= length roster ->
  exists r e',
    generateSession roster courts prev e = (r, e')
    /\ keyedBy roster (globalPlayerHistories e')
    /\ currentRound e' = 1
    /\ match r with
       | Ok s => s = mkSession roster courts (matches s)
                 /\ fullRound roster courts (matches s)
                 /\ concat (map players (matches s)) ⊆+ roster
       | Throw msg => msg = typeError /\ ~ evenSized prev
       end.
Proof.
  intros Hnd Hlen. unfold generateSession.
  destruct (Nat.ltb_spec (length roster) 4); [lia|].
  unfold bind at 1, setCurrentRound. unfold bind at 1. unfold liftH at 1.
  rewrite initial_histories by done.
  cbn [currentRound globalPlayerHistories ambient].
  unfold bind at 1. unfold liftH at 1.
  cbn [currentRound globalPlayerHistories ambient].
  pose proof (updateAll_keyedBy roster prev _ (freshHistories_keyedBy roster)) as Hk1.
  destruct (updateAll_outcome prev (freshHistories roster))
    as [[h1 Hu]|(h1 & Hu & Hodd)]; rewrite Hu in *; simpl in Hk1.
  - unfold bind.
    destruct (generateRound_fullRound roster roster courts (mkEnv 1 h1 (ambient e)) Hnd Hk1)
      as (ms & e' & -> & Hfull & Hsub & Hk' & _ & Hround).
    exists (Ok (mkSession roster courts ms)), e'.
    split; [reflexivity|]. split; [exact Hk'|]. split; [by rewrite Hround|].
    simpl. split; [reflexivity|]. split; [exact Hfull|exact Hsub].
  - eexists _, _. split; [reflexivity|]. simpl. split; [exact Hk1|]. by repeat split.
Qed.

(** During a session the histories hold the roster, one entry per player,
    in roster order. *)
Lemma inSession_keyedBy roster (e : Env) :
  NoDup (ids roster) -> inSession roster e -> keyedBy roster (globalPlayerHistories e).
Proof.
  intros Hnd Hin. induction Hin as [courts prev e0 r e Hlen Heq|ps courts completed e r e' Hin IH Heq].
  - destruct (generateSession_any roster courts prev e0 Hnd Hlen) as (r' & e1 & Heq' & Hk & _).
    rewrite Heq in Heq'. by simplify_eq.
  - destruct (generateNextRound_any roster ps courts completed e Hnd IH)
      as (r' & e1 & Heq' & Hk & _).
    rewrite Heq in Heq'. by simplify_eq.
Qed.
End GeneralSession.


(** * Every player in at most one match of a round *)

(** C6 (as amended).  For a roster with distinct ids, every round assigns
    each player id to at most one match, and the players of every match are
    pairwise distinct and drawn from the roster: the ids of all the players of
    the round's matches, listed together, are without repetition.
    - The fixed-case generator, for every history: it returns, and for eight
      players it returns exactly two matches of four players, on courts 1 and
      2, which together hold the whole roster, whatever the court count.
    - The general generator, for every history and every round of a session
      (the round of [generateSession] and the round of every later call of
      [generateNextRound], whatever its arguments and whatever the earlier
      calls returned): a call either returns a round of [numberOfCourts]
      matches of four players when the roster holds [4 * numberOfCourts]
      players, and of no match otherwise, or raises a [TypeError], which it
      does only when one of the matches to record lists an odd number of
      players.  For eight players the round is two matches holding the whole
      roster exactly when there are two courts. *)
Theorem round_assigns_each_player_once
    (roster : list Player) (courts : nat) (prev : list Match)
    (w : World) (e : General.Env) :
  NoDup (ids roster) ->
  (exists ms w',
     Fixed.generateDoublesMatches roster courts prev w = (Ok ms, w')
     /\ NoDup (ids (concat (map players ms)))
     /\ (forall p, p ∈ concat (map players ms) -> p ∈ roster)
     /\ (length roster = 8 ->
         exists m1 m2, ms = [m1; m2]
                       /\ length (players m1) = 4 /\ length (players m2) = 4
                       /\ court m1 = 1 /\ court m2 = 2
                       /\ players m1 ++ players m2 ≡ₚ roster))
  /\ (4 <= length roster ->
      exists r e',
        General.generateSession roster courts prev e = (r, e')
        /\ match r with
           | Ok s =>
               s = mkSession roster courts (matches s)
               /\ fullRound roster courts (matches s)
               /\ (length roster = 8 -> courts = 2 ->
                   concat (map players (matches s)) ≡ₚ roster)
           | Throw msg => msg = typeError /\ ~ evenSized prev
           end)
  /\ (forall e1, inSession roster e1 ->
      forall ps courts' completed,
      exists r e',
        General.generateNextRound ps courts' completed e1 = (r, e')
        /\ match r with
           | Ok ms =>
               fullRound roster courts' ms
               /\ (length roster = 8 -> courts' = 2 ->
                   concat (map players ms) ≡ₚ roster)
           | Throw msg => msg = typeError /\ ~ evenSized completed
           end).
Proof.
  intros Hnd. split; [|split].
  - destruct (FixedRound.generateDoublesMatches_round roster courts prev w Hnd)
      as (ms & w' & Hgen & Hsub & Height).
    destruct (round_within_roster roster ms Hnd Hsub) as [Hids Hin].
    by exists ms, w'.
  - intros Hlen.
    destruct (GeneralSession.generateSession_any roster courts prev e Hnd Hlen)
      as (r & e' & Hgen & _ & _ & Hr).
    exists r, e'. split; [done|]. destruct r as [s|msg]; [|done].
    destruct Hr as (Hs & Hfull & Hsub). split; [done|]. split; [done|].
    intros H8 ->. by apply GeneralSession.fullRound_eight.
  - intros e1 Hin ps courts' completed.
    pose proof (GeneralSession.inSession_keyedBy roster e1 Hnd Hin) as Hk.
    destruct (GeneralSession.generateNextRound_any roster ps courts' completed e1 Hnd Hk)
      as (r & e' & Hgen & _ & Hr).
    exists r, e'. split; [done|]. destruct r as [ms|msg].
    + destruct Hr as (Hfull & Hsub & _). split; [done|].
      intros H8 ->. by apply GeneralSession.fullRound_eight.
    + by destruct Hr as (-> & Hodd & _).
Qed.

(** Eight players, a doubles match in the history.  The fixed-case generator
    returns two matches.  The general generator on two courts returns a round
    that holds the whole roster; so does the second round, drawn after the
    first was recorded again, and the third, drawn after the second was. *)
Lemma round_assigns_each_player_once_witness :
  NoDup (ids Examples.eightPlayers)
  /\ (exists ms w',
        Fixed.generateDoublesMatches Examples.eightPlayers 1 [Examples.firstMatch]
          Examples.quietWorld = (Ok ms, w')
        /\ NoDup (ids (concat (map players ms)))
        /\ length ms = 2)
  /\ (exists s e1 ms2 e2 ms3 e3,
        General.generateSession Examples.eightPlayers 2 [Examples.firstMatch]
          (General.initialEnv Examples.quietWorld) = (Ok s, e1)
        /\ General.generateNextRound Examples.eightPlayers 2 (matches s) e1 = (Ok ms2, e2)
        /\ General.generateNextRound Examples.eightPlayers 2 ms2 e2 = (Ok ms3, e3)
        /\ fullRound Examples.eightPlayers 2 (matches s)
        /\ fullRound Examples.eightPlayers 2 ms2
        /\ fullRound Examples.eightPlayers 2 ms3
        /\ concat (map players ms3) ≡ₚ Examples.eightPlayers).
Proof.
  assert (Hnd : NoDup (ids Examples.eightPlayers)).
  { apply (bool_decide_unpack _). vm_compute. exact I. }
  assert (Hev : forall ms, fullRound Examples.eightPlayers 2 ms -> evenSized ms).
  { intros ms (_ & _ & Hfour & _). by apply GeneralRound.even_of_four. }
  split; [exact Hnd|].
  destruct (round_assigns_each_player_once Examples.eightPlayers 1 [Examples.firstMatch]
              Examples.quietWorld (General.initialEnv Examples.quietWorld) Hnd)
    as [(ms & w' & Hgen & Hids & _ & Height) _].
  destruct (round_assigns_each_player_once Examples.eightPlayers 2 [Examples.firstMatch]
              Examples.quietWorld (General.initialEnv Examples.quietWorld) Hnd)
    as (_ & Hstart & Hnext).
  split.
  - exists ms, w'. split; [exact Hgen|]. split; [exact Hids|].
    destruct (Height eq_refl) as (m1 & m2 & -> & _). reflexivity.
  - destruct Hstart as (r & e1 & Hgen1 & Hr); [simpl; lia|].
    destruct r as [s|msg]; [|destruct Hr as [_ Hodd]; exfalso; apply Hodd; repeat constructor].
    destruct Hr as (_ & Hfull1 & _).
    assert (Hin1 : inSession Examples.eightPlayers e1).
    { eapply inSession_start; [|exact Hgen1]. simpl. lia. }
    destruct (Hnext e1 Hin1 Examples.eightPlayers 2 (matches s)) as (r2 & e2 & Hgen2 & Hr2).
    destruct r2 as [ms2|msg]; [|destruct Hr2 as [_ Hodd]; exfalso; apply Hodd; by apply Hev].
    destruct Hr2 as (Hfull2 & _).
    assert (Hin2 : inSession Examples.eightPlayers e2).
    { eapply inSession_next; [exact Hin1|exact Hgen2]. }
    destruct (Hnext e2 Hin2 Examples.eightPlayers 2 ms2) as (r3 & e3 & Hgen3 & Hr3).
    destruct r3 as [ms3|msg]; [|destruct Hr3 as [_ Hodd]; exfalso; apply Hodd; by apply Hev].
    destruct Hr3 as (Hfull3 & Hall3).
    exists s, e1, ms2, e2, ms3, e3.
    split; [exact Hgen1|]. split; [exact Hgen2|]. split; [exact Hgen3|].
    split; [exact Hfull1|]. split; [exact Hfull2|]. split; [exact Hfull3|].
    apply Hall3; reflexivity.
Defined.

(** Eight players and one court: the general generator returns one match,
    and four players sit out. *)
Lemma general_round_of_eight_on_one_court :
  exists m e',
    General.generateSession Examples.eightPlayers 1 []
      (General.initialEnv Examples.quietWorld)
    = (Ok (mkSession Examples.eightPlayers 1 [m]), e')
    /\ length Examples.eightPlayers = 8
    /\ length [m] <> 2
    /\ ids (players m) = ["b"; "a"; "c"; "d"].
Proof. eexists _, _. split; [vm_compute; reflexivity|]. repeat split. discriminate. Qed.



(** * Completing a match and undoing it *)

Module PageFacts.
Import Page.

Lemma find_hasId (id : string) (l : list MatchState) (ms : MatchState) :
  NoDup (map (fun x => matchId (match_ x)) l) ->
  ms ∈ l -> matchId (match_ ms) = id ->
  List.find (hasId id) l = Some ms.
Proof.
  intros Hnd Hin Hid. induction l as [|x l IH]; simpl in *.
  - by apply elem_of_nil in Hin.
  - apply NoDup_cons in Hnd as [Hx Hnd]. unfold hasId at 1.
    destruct (String.eqb_spec (matchId (match_ x)) id) as [Heq|Hne].
    + apply elem_of_cons in Hin as [->|Hin]; [done|].
      exfalso. apply Hx. apply list_elem_of_fmap. exists ms. split; [congruence|done].
    + apply elem_of_cons in Hin as [->|Hin]; [congruence|]. by apply IH.
Qed.

Lemma same_id (l : list MatchState) (x y : MatchState) :
  NoDup (map (fun x => matchId (match_ x)) l) ->
  x ∈ l -> y ∈ l -> matchId (match_ x) = matchId (match_ y) -> x = y.
Proof.
  intros Hnd [i Hi]%list_elem_of_lookup [j Hj]%list_elem_of_lookup Heq.
  assert (i = j); [|congruence].
  eapply NoDup_lookup; [exact Hnd| |]; rewrite list_lookup_fmap.
  - by rewrite Hi.
  - by rewrite Hj, Heq.
Qed.

(** Completing a pending match and undoing it gives back every cell of the
    state, except that no match is left to undo. *)
Lemma undo_complete (now : nat) (s : State) (ms : MatchState) :
  wellFormed s -> pending s ms ->
  handleUndo (handleMatchComplete now (matchId (match_ ms)) s)
  = mkState (session s) (matchStates s) (playerStats s) (allCompletedMatches s)
            None (currentRound s).
Proof.
  intros (Hnd & Hat & Hdone) [Hin Hpending].
  unfold handleMatchComplete.
  rewrite (find_hasId _ _ ms Hnd Hin eq_refl), Hpending.
  unfold handleUndo. cbn [lastCompletedMatch session matchStates playerStats
                            allCompletedMatches currentRound].
  f_equal.
  - rewrite map_map. rewrite <- (map_id (matchStates s)) at 2.
    apply map_ext_in. intros x Hx%list_elem_of_In.
    destruct (hasId (matchId (match_ ms)) x) eqn:Hid; unfold hasId in *; simpl.
    + rewrite Hid.
      apply String.eqb_eq in Hid.
      assert (x = ms) as -> by (by apply (same_id (matchStates s))).
      pose proof (Hat _ Hin Hpending) as Hnone.
      destruct ms as [m c at' r]. simpl in *. by subst.
    + by rewrite Hid.
  - rewrite map_map. rewrite <- (map_id (playerStats s)) at 2.
    apply map_ext. intros [p d n].
    destruct (playsIn (match_ ms) (mkStats p d n)) eqn:Hplays; simpl.
    + unfold playsIn in *. simpl in *.
      destruct (length (players (match_ ms)) =? 4); simpl; rewrite Hplays; simpl;
        f_equal; lia.
    + by rewrite Hplays.
  - rewrite List.filter_app. simpl. rewrite String.eqb_refl. simpl. rewrite app_nil_r.
    apply forallb_filter_id, forallb_forall. intros m Hm%list_elem_of_In.
    apply negb_true_iff, String.eqb_neq. intros Heq.
    destruct (Hdone m Hm) as (x & Hx & Hid & Hc).
    assert (x = ms) as -> by (apply (same_id (matchStates s)); [done..|congruence]).
    congruence.
Qed.

(** Both handlers keep the state well-formed. *)
Lemma wellFormed_complete (now : nat) (id : string) (s : State) :
  wellFormed s -> wellFormed (handleMatchComplete now id s).
Proof.
  intros (Hnd & Hat & Hdone). unfold handleMatchComplete.
  destruct (List.find (hasId id) (matchStates s)) as [ms0|] eqn:Hfind; [|done].
  destruct (completed ms0) eqn:Hc; [done|].
  apply find_some in Hfind as [Hin0%list_elem_of_In Hid0].
  split; [|split]; cbn [matchStates allCompletedMatches].
  - rewrite map_map. erewrite map_ext; [exact Hnd|].
    intros x. simpl. by destruct (hasId id x).
  - intros x' (x & -> & Hx)%list_elem_of_fmap Hpend.
    destruct (hasId id x); [done|by apply Hat].
  - intros m [Hm|Hm%list_elem_of_singleton]%elem_of_app.
    + destruct (Hdone m Hm) as (x & Hx & Hidx & Hcx).
      exists (if hasId id x then mkMatchState (match_ x) true (Some now) (round x) else x).
      split; [apply list_elem_of_fmap; by exists x|].
      by destruct (hasId id x).
    + subst m.
      exists (mkMatchState (match_ ms0) true (Some now) (round ms0)).
      split; [|done]. apply list_elem_of_fmap. exists ms0. by rewrite Hid0.
Qed.

Lemma wellFormed_undo (s : State) : wellFormed s -> wellFormed (handleUndo s).
Proof.
  intros (Hnd & Hat & Hdone). unfold handleUndo.
  destruct (lastCompletedMatch s) as [last|]; [|done].
  split; [|split]; cbn [matchStates allCompletedMatches].
  - rewrite map_map. erewrite map_ext; [exact Hnd|].
    intros x. simpl. by destruct (hasId _ x).
  - intros x' (x & -> & Hx)%list_elem_of_fmap Hpend.
    destruct (hasId _ x); [done|by apply Hat].
  - intros m [Hm Hne]%list_elem_of_In%filter_In.
    apply list_elem_of_In in Hm.
    apply negb_true_iff, String.eqb_neq in Hne.
    destruct (Hdone m Hm) as (x & Hx & Hidx & Hcx).
    exists x. split; [|done]. apply list_elem_of_fmap. exists x. split; [|done].
    unfold hasId. rewrite Hidx. by destruct (String.eqb_spec (matchId m) (matchId (match_ last))).
Qed.

Lemma wellFormed_freshPage : wellFormed Examples.freshPage.
Proof.
  split; [|split].
  - simpl. apply NoDup_singleton.
  - intros ms Hms _. simpl in Hms. apply list_elem_of_singleton in Hms. by subst.
  - intros m Hm. simpl in Hm. by apply elem_of_nil in Hm.
Qed.
End PageFacts.

(** C5 (as amended).  For every well-formed state of the matches page and
    every match that is pending there, completing the match and then undoing
    it restores the completed-match list, the doubles and singles counts and
    the match states to what they were; the ledger that the fixed-case
    generator derives from the completed matches (participation counts,
    partner and opponent sets, pairing frequencies) is therefore the same as
    before. *)
Theorem complete_then_undo_restores
    (now : nat) (s : Page.State) (ms : Page.MatchState) :
  wellFormed s ->
  pending s ms ->
  let s' := Page.handleUndo (Page.handleMatchComplete now (matchId (Page.match_ ms)) s) in
  Page.allCompletedMatches s' = Page.allCompletedMatches s
  /\ Page.playerStats s' = Page.playerStats s
  /\ Page.matchStates s' = Page.matchStates s
  /\ (forall roster t,
        Fixed.participationOf t roster (Page.allCompletedMatches s')
        = Fixed.participationOf t roster (Page.allCompletedMatches s)
        /\ Fixed.getPairings (Page.allCompletedMatches s')
           = Fixed.getPairings (Page.allCompletedMatches s)).
Proof.
  intros Hwf Hpending s'. unfold s'.
  rewrite (PageFacts.undo_complete now s ms Hwf Hpending). simpl.
  repeat split; reflexivity.
Qed.

Lemma complete_then_undo_restores_witness :
  let s := Examples.freshPage in
  let s' := Page.handleUndo (Page.handleMatchComplete 5 "m0" s) in
  Page.allCompletedMatches (Page.handleMatchComplete 5 "m0" s) = [Examples.firstMatch]
  /\ Page.allCompletedMatches s' = Page.allCompletedMatches s
  /\ Page.playerStats s' = Page.playerStats s
  /\ Page.matchStates s' = Page.matchStates s.
Proof.
  split; [reflexivity|].
  destruct (complete_then_undo_restores 5 Examples.freshPage
              (Page.mkMatchState Examples.firstMatch false None 1))
    as (H1 & H2 & H3 & _).
  - exact PageFacts.wellFormed_freshPage.
  - split; [simpl; apply list_elem_of_singleton; reflexivity|reflexivity].
  - split; [exact H1|]. split; [exact H2|exact H3].
Defined.

(** Completing a match that is already completed does nothing, so the
    following undo does not restore the state before that call: it removes
    the match from the completed list.  And the histories of the general
    generator, once a match is recorded there, are out of reach of
    [handleUndo], which works on the cells of the page alone: games played,
    partners and opponents stay recorded. *)
Lemma undo_after_repeated_complete :
  let s1 := Page.handleMatchComplete 5 "m0" Examples.freshPage in
  let h0 := freshHistories Examples.fourPlayers in
  Page.allCompletedMatches s1 = [Examples.firstMatch]
  /\ Page.handleMatchComplete 6 "m0" s1 = s1
  /\ Page.allCompletedMatches (Page.handleUndo (Page.handleMatchComplete 6 "m0" s1)) = []
  /\ Page.allCompletedMatches (Page.handleUndo (Page.handleMatchComplete 6 "m0" s1))
     <> Page.allCompletedMatches s1
  /\ General.updatePlayerHistories Examples.firstMatch h0
     = (Ok tt, recorded Examples.firstMatch h0)
  /\ gamesOf h0 "a" = Some 0
  /\ gamesOf (recorded Examples.firstMatch h0) "a" = Some 1
  /\ recorded Examples.firstMatch h0 <> h0.
Proof.
  repeat split; first [reflexivity | discriminate | vm_compute; discriminate].
Qed.


(** * Where the rounds depend on the ambient random source *)

Module FixedDeterminism.
Import Fixed.

Lemma pushMatch_eq (ms : list Match) (ps : list Player) (c : nat)
    (rs : list nat) (us : list string) (t : nat) :
  pushMatch ms ps c (mkWorld rs us t)
  = (Ok (ms ++ [mkMatch (fst (popUuid us)) ps c Left]), mkWorld rs (snd (popUuid us)) t).
Proof. unfold pushMatch, bind, randomUUID, ret. by destruct us. Qed.

(** Outside the eight-player branch no random number is read. *)
Lemma generateDoublesMatches_other_sizes roster courts prev (us : list string) (t : nat) :
  length roster <> 8 ->
  exists ms us',
    forall rs, generateDoublesMatches roster courts prev (mkWorld rs us t)
               = (Ok ms, mkWorld rs us' t).
Proof.
  intros H8. unfold generateDoublesMatches, dateNow. unfold bind at 1. simpl.
  destruct (length roster) as [|[|[|[|[|[|[|[|[|n]]]]]]]]]; try done;
    try (by exists [], us);
    try (eexists _, _; intros rs; by rewrite pushMatch_eq);
    destruct (courts =? 1);
    eexists _, _; intros rs; unfold bind; by rewrite !pushMatch_eq.
Qed.

(** Nor is one read with eight players whose four lowest-scoring pairs are
    disjoint. *)
Lemma generateDoublesMatches_disjoint roster courts prev (us : list string) (t : nat) :
  length roster = 8 ->
  NoDup (ids roster) ->
  fourLowestDisjoint roster prev t ->
  exists ms us',
    forall rs, generateDoublesMatches roster courts prev (mkWorld rs us t)
               = (Ok ms, mkWorld rs us' t).
Proof.
  intros H8 Hnd Hfour. unfold fourLowestDisjoint in Hfour.
  set (pairings := getPairings prev) in *.
  set (pm := participationOf t roster prev) in *.
  set (greedy := Spec.firstFit (map fst (take 4 (scoredPairs roster pairings pm))) []) in *.
  assert (Hch : forall rs, choosePairs roster pairings pm (mkWorld rs us t)
                           = (Ok greedy, mkWorld rs us t)).
  { intros rs.
    destruct (FixedSelect.choosePairs_spec roster pairings pm (mkWorld rs us t) H8 Hnd)
      as (random & rs' & Hch & _ & _ & _ & Hdet).
    destruct (Hdet Hfour) as [-> ->]. by rewrite app_nil_r in Hch. }
  destruct greedy as [|p1 [|p2 [|p3 [|p4 [|p5 rest]]]]] eqn:Hg; try discriminate.
  destruct (arrangeCourts pairings pm p1 p2 p3 p4) as [c1 c2] eqn:Harr.
  eexists _, _. intros rs.
  unfold generateDoublesMatches, dateNow. unfold bind at 1. simpl.
  rewrite H8. unfold bind at 1. fold pairings. fold pm. rewrite Hch, Harr.
  unfold bind. by rewrite !pushMatch_eq.
Qed.
End FixedDeterminism.

(** C9 (as amended).  The generators take no seed and no generator argument:
    they read the ambient [Math.random] (and [crypto.randomUUID] for match
    ids).  Where no random number is drawn -- the fixed-case generator with a
    roster of any size but eight, or with eight players with distinct ids
    whose four lowest-scoring pairs are disjoint -- the round is the same
    whatever [Math.random] would have returned, and its tape is left
    untouched. *)
Theorem fixed_round_independent_of_random
    (roster : list Player) (courts : nat) (prev : list Match)
    (us : list string) (t : nat) :
  length roster <> 8
  \/ (length roster = 8 /\ NoDup (ids roster) /\ fourLowestDisjoint roster prev t) ->
  exists ms us',
    forall rs, Fixed.generateDoublesMatches roster courts prev (mkWorld rs us t)
               = (Ok ms, mkWorld rs us' t).
Proof.
  intros [H8|(H8 & Hnd & Hfour)].
  - by apply FixedDeterminism.generateDoublesMatches_other_sizes.
  - by apply FixedDeterminism.generateDoublesMatches_disjoint.
Qed.

Lemma fixed_round_independent_of_random_witness :
  exists ms us',
    forall rs, Fixed.generateDoublesMatches Examples.sixPlayers 2 [Examples.firstMatch]
                 (mkWorld rs ["u1"; "u2"] 0)
               = (Ok ms, mkWorld rs us' 0).
Proof.
  apply (fixed_round_independent_of_random Examples.sixPlayers 2 [Examples.firstMatch]).
  left. simpl. lia.
Defined.

(** Identical rosters, histories and court counts, two different runs of
    [Math.random]: the rounds differ, in the general generator and in the
    eight-player branch of the fixed-case generator. *)
Lemma rounds_differ_between_runs :
  let general rs :=
    fst (General.generateSession Examples.fourPlayers 1 []
           (General.initialEnv (mkWorld rs ["u1"] 0))) in
  let fixed rs :=
    fst (Fixed.generateDoublesMatches Examples.eightPlayers 2 []
           (mkWorld rs ["u1"; "u2"] 0)) in
  general [] <> general [1; 1; 1; 1; 1; 1; 1]
  /\ fixed [] <> fixed [1; 1; 1; 1; 1].
Proof. split; vm_compute; discriminate. Qed.


(** * Keys of the pairing map *)

Section KeyFacts.

Lemma ltb_antisym (a b : string) : String.ltb a b = true -> String.ltb b a = false.
Proof.
  unfold String.ltb. rewrite (String.compare_antisym b a).
  by destruct (String.compare a b).
Qed.

Lemma ltb_total (a b : string) :
  a <> b -> String.ltb a b = false -> String.ltb b a = true.
Proof.
  unfold String.ltb. intros Hne. rewrite (String.compare_antisym b a).
  destruct (String.compare a b) eqn:Hc; simpl; try done.
  by apply String.compare_eq_iff in Hc.
Qed.

Lemma sort2_comm (a b : string) : sort2 a b = sort2 b a.
Proof.
  unfold sort2. destruct (decide (a = b)) as [->|Hne]; [by destruct (String.ltb b b)|].
  destruct (String.ltb b a) eqn:Hba.
  - by rewrite (ltb_antisym _ _ Hba).
  - by rewrite (ltb_total _ _ (not_eq_sym Hne) Hba).
Qed.

Lemma sort2_cases (a b : string) : sort2 a b = (a, b) \/ sort2 a b = (b, a).
Proof. unfold sort2. destruct (String.ltb b a); auto. Qed.

(** Sorting what is sorted changes nothing. *)
Lemma sort2_idem (a b x y : string) : sort2 a b = (x, y) -> sort2 x y = (x, y).
Proof.
  unfold sort2. destruct (String.ltb b a) eqn:Hba; intros [= <- <-].
  - by rewrite (ltb_antisym _ _ Hba).
  - by rewrite Hba.
Qed.

Lemma sortJoin_comm (a b : string) : sortJoin a b = sortJoin b a.
Proof. unfold sortJoin. by rewrite sort2_comm. Qed.

Lemma split_hyphenFree (s : string) : hyphenFree s = true -> split s = [s].
Proof.
  induction s as [|c s IH]; simpl; [done|].
  intros [Hc Hs]%andb_true_iff. apply negb_true_iff in Hc. rewrite Hc.
  by rewrite (IH Hs).
Qed.

Lemma split_join (x y : string) :
  hyphenFree x = true -> split (x +:+ "-" +:+ y) = x :: split y.
Proof.
  induction x as [|c x IH]; simpl; [done|].
  intros [Hc Hx]%andb_true_iff. apply negb_true_iff in Hc. rewrite Hc.
  by rewrite (IH Hx).
Qed.

Lemma join_inj (x y x' y' : string) :
  hyphenFree x = true -> hyphenFree x' = true ->
  x +:+ "-" +:+ y = x' +:+ "-" +:+ y' -> x = x' /\ y = y'.
Proof.
  revert x'. induction x as [|c x IH]; intros [|c' x'] Hx Hx' Heq; simpl in *.
  - by injection Heq.
  - injection Heq as <- _. by rewrite andb_false_l in Hx'.
  - injection Heq as -> _. by rewrite andb_false_l in Hx.
  - injection Heq as -> Heq.
    apply andb_true_iff in Hx as [_ Hx]. apply andb_true_iff in Hx' as [_ Hx'].
    destruct (IH x' Hx Hx' Heq) as [-> ->]. done.
Qed.

(** For ids without hyphen the key determines the unordered pair. *)
Lemma sortJoin_inj (a b c d : string) :
  hyphenFree a = true -> hyphenFree b = true ->
  hyphenFree c = true -> hyphenFree d = true ->
  sortJoin a b = sortJoin c d <-> Spec.samePair a b (c, d).
Proof.
  intros Ha Hb Hc Hd. unfold Spec.samePair. split.
  - unfold sortJoin.
    destruct (sort2_cases a b) as [-> | ->], (sort2_cases c d) as [-> | ->];
      intros [-> ->]%join_inj; auto.
  - intros [[= -> ->]|[= -> ->]]; [done|apply sortJoin_comm].
Qed.

(** A key made of ids without hyphen is recovered from the two ids that
    [getPairings] splits it into. *)
Lemma toPairing_key (a b : string) (n : nat) :
  hyphenFree a = true -> hyphenFree b = true ->
  sortJoin (Fixed.player1Id (Fixed.toPairing (sortJoin a b, n)))
           (Fixed.player2Id (Fixed.toPairing (sortJoin a b, n)))
  = sortJoin a b
  /\ Fixed.count (Fixed.toPairing (sortJoin a b, n)) = n.
Proof.
  intros Ha Hb. unfold Fixed.toPairing. simpl. split; [|done].
  assert (Hk : exists x y, sort2 a b = (x, y) /\ sortJoin a b = x +:+ "-" +:+ y
                           /\ hyphenFree x = true /\ hyphenFree y = true).
  { unfold sortJoin. destruct (sort2_cases a b) as [H|H]; rewrite H; eauto 10. }
  destruct Hk as (x & y & Hs & -> & Hx & Hy).
  rewrite split_join, split_hyphenFree by done. simpl.
  unfold sortJoin. by rewrite (sort2_idem _ _ _ _ Hs).
Qed.
End KeyFacts.

Section PairingMapFacts.

Lemma mapGet_mapSet {V : Type} (k k' : string) (v : V) (m : list (string * V)) :
  mapGet k (mapSet k' v m) = if decide (k = k') then Some v else mapGet k m.
Proof.
  induction m as [|[k0 v0] m IH]; simpl.
  - destruct (String.eqb_spec k k'), (decide (k = k')); done.
  - destruct (String.eqb_spec k' k0) as [->|Hne]; simpl.
    + destruct (String.eqb_spec k k0), (decide (k = k0)); done.
    + destruct (String.eqb_spec k k0) as [->|Hne0].
      * by destruct (decide (k0 = k')).
      * exact IH.
Qed.

Lemma keyCount_addPairing (m : list (string * nat)) (a b k : string) :
  keyCount (Fixed.addPairing m a b) k
  = keyCount m k + (if decide (sortJoin a b = k) then 1 else 0).
Proof.
  unfold keyCount, Fixed.addPairing. rewrite mapGet_mapSet.
  destruct (decide (k = sortJoin a b)) as [->|Hne].
  - rewrite decide_True by done. simpl. done.
  - rewrite decide_False by done. lia.
Qed.

Lemma keys_addPairing (m : list (string * nat)) (a b k : string) :
  k ∈ map fst (Fixed.addPairing m a b) -> k = sortJoin a b \/ k ∈ map fst m.
Proof.
  unfold Fixed.addPairing. generalize (default 0 (mapGet (sortJoin a b) m) + 1) as v.
  intros v. induction m as [|[k0 v0] m IH]; simpl.
  - intros ->%list_elem_of_singleton. by left.
  - destruct (String.eqb_spec (sortJoin a b) k0) as [->|Hne]; simpl.
    + intros H. by right.
    + intros [->|H]%elem_of_cons; [right; by left|].
      destruct (IH H) as [->|?]; [by left|right; by right].
Qed.

Lemma addMatchPairings_addAll (m : list (string * nat)) (x : Match) :
  Fixed.addMatchPairings m x = addAll m (doublesPairs x).
Proof.
  unfold Fixed.addMatchPairings, doublesPairs, addAll.
  by destruct (players x) as [|a [|b [|c [|d [|? ?]]]]].
Qed.

Lemma pairingMapOf_addAll (history : list Match) :
  Fixed.pairingMapOf history = addAll [] (concat (map doublesPairs history)).
Proof.
  unfold Fixed.pairingMapOf. generalize (@nil (string * nat)) as m.
  induction history as [|x history IH]; intros m; simpl; [done|].
  rewrite IH, addMatchPairings_addAll. unfold addAll. by rewrite foldl_app.
Qed.

Lemma keyCount_addAll (m : list (string * nat)) (prs : list (string * string)) (k : string) :
  keyCount (addAll m prs) k
  = keyCount m k + length (filter (fun pr => sortJoin (fst pr) (snd pr) = k) prs).
Proof.
  revert m. induction prs as [|pr prs IH]; intros m; simpl; [lia|].
  unfold addAll in *. simpl. rewrite IH, keyCount_addPairing, filter_cons.
  destruct (decide (sortJoin (fst pr) (snd pr) = k)); simpl; lia.
Qed.

Lemma keys_addAll (m : list (string * nat)) (prs : list (string * string)) (k : string) :
  k ∈ map fst (addAll m prs) ->
  k ∈ map fst m \/ exists pr, pr ∈ prs /\ k = sortJoin (fst pr) (snd pr).
Proof.
  revert m. induction prs as [|pr prs IH]; intros m; simpl; [by left|].
  intros [Hk|(pr' & Hpr' & ->)]%IH.
  - apply keys_addPairing in Hk as [->|Hk]; [|by left].
    right. exists pr. split; [by left|done].
  - right. exists pr'. split; [by right|done].
Qed.

(** Reading a frequency through [getPairings] finds the count stored under
    the key, when every key of the map is recovered from its two pieces. *)
Lemma readFrequency_keyCount (m : list (string * nat)) (x y : string) :
  (forall k n, (k, n) ∈ m ->
     sortJoin (Fixed.player1Id (Fixed.toPairing (k, n)))
              (Fixed.player2Id (Fixed.toPairing (k, n))) = k) ->
  readFrequency (map Fixed.toPairing m) x y = keyCount m (sortJoin x y).
Proof.
  unfold readFrequency, keyCount. induction m as [|[k n] m IH]; intros Hclean; [done|].
  cbn [map List.find mapGet].
  rewrite (Hclean k n) by (by left).
  rewrite (String.eqb_sym (sortJoin x y) k).
  destruct (String.eqb k (sortJoin x y)); [done|].
  apply IH. intros k' n' Hin. apply Hclean. by right.
Qed.
End PairingMapFacts.


(** * The pair score and the recorded pairing frequency *)

Lemma filter_equiv_on {A : Type} (P Q : A -> Prop)
    `{!forall x, Decision (P x)} `{!forall x, Decision (Q x)} (l : list A) :
  (forall x, x ∈ l -> P x <-> Q x) -> filter P l = filter Q l.
Proof.
  induction l as [|a l IH]; intros Heq; [done|].
  rewrite !filter_cons, IH by (intros x Hx; apply Heq; by right).
  destruct (decide (P a)) as [Hp|Hp], (decide (Q a)) as [Hq|Hq]; try done;
    exfalso; apply (Heq a) in Hp || apply (Heq a) in Hq; try done; by left.
Qed.

Module ScoreFacts.
Import Fixed.

Lemma doublesPairs_members (m : Match) (pr : string * string) :
  pr ∈ doublesPairs m -> fst pr ∈ ids (players m) /\ snd pr ∈ ids (players m).
Proof.
  unfold doublesPairs.
  destruct (players m) as [|a [|b [|c [|d [|? ?]]]]]; try by intros ?%elem_of_nil.
  simpl. intros Hin. repeat (apply elem_of_cons in Hin as [->|Hin]); simpl;
    try (by apply elem_of_nil in Hin); split; set_solver.
Qed.

Lemma pairs_hyphenFree (history : list Match) (pr : string * string) :
  Forall (fun s => hyphenFree s = true) (idsOf history) ->
  pr ∈ concat (map doublesPairs history) ->
  hyphenFree (fst pr) = true /\ hyphenFree (snd pr) = true.
Proof.
  unfold idsOf. induction history as [|m history IH]; simpl.
  - by intros _ ?%elem_of_nil.
  - intros [Hm Hh]%Forall_app [Hin|Hin]%elem_of_app; [|by apply IH].
    rewrite Forall_forall in Hm.
    destruct (doublesPairs_members m pr Hin) as [H1 H2]. split; by apply Hm.
Qed.

(** For ids without hyphen, the frequency that the scorer reads is the
    number of [addPairing] calls made for the pair. *)
Lemma readFrequency_history (history : list Match) (x y : string) :
  Forall (fun s => hyphenFree s = true) (idsOf history) ->
  hyphenFree x = true -> hyphenFree y = true ->
  readFrequency (getPairings history) x y
  = length (filter (Spec.samePair x y) (concat (map doublesPairs history))).
Proof.
  intros Hh Hx Hy. unfold getPairings.
  rewrite readFrequency_keyCount.
  - rewrite pairingMapOf_addAll, keyCount_addAll. unfold keyCount. simpl.
    f_equal. apply filter_equiv_on. intros [p q] Hin.
    destruct (pairs_hyphenFree history (p, q) Hh Hin) as [Hp Hq]. simpl in *.
    rewrite (sortJoin_inj p q x y) by done. unfold Spec.samePair. naive_solver.
  - intros k n Hin. rewrite pairingMapOf_addAll in Hin.
    assert (Hk : k ∈ map fst (addAll [] (concat (map doublesPairs history)))).
    { apply list_elem_of_fmap. by exists (k, n). }
    apply keys_addAll in Hk as [Hk|(pr & Hpr & ->)]; [by apply elem_of_nil in Hk|].
    destruct (pairs_hyphenFree history pr Hh Hpr) as [H1 H2].
    by apply toPairing_key.
Qed.

Lemma doublesPairs_courtPairs (m : Match) :
  length (players m) = 4 -> doublesPairs m ≡ₚ Spec.courtPairs m.
Proof.
  unfold doublesPairs, Spec.courtPairs.
  destruct (players m) as [|a [|b [|c [|d [|? ?]]]]]; try discriminate. intros _. simpl.
  apply Permutation_skip.
  apply (Permutation_app_comm
           [(playerId c, playerId d)]
           [(playerId a, playerId c); (playerId a, playerId d);
            (playerId b, playerId c); (playerId b, playerId d)]).
Qed.

Lemma doublesPairs_other (m : Match) : length (players m) <> 4 -> doublesPairs m = [].
Proof.
  unfold doublesPairs. by destruct (players m) as [|a [|b [|c [|d [|? ?]]]]].
Qed.

Lemma doublesPairs_history (history : list Match) :
  concat (map doublesPairs history)
    ≡ₚ concat (map Spec.courtPairs (filter (fun m => length (players m) = 4) history)).
Proof.
  induction history as [|m history IH]; simpl; [done|].
  rewrite filter_cons. destruct (decide (length (players m) = 4)) as [H4|H4]; simpl.
  - by rewrite IH, doublesPairs_courtPairs.
  - by rewrite IH, doublesPairs_other.
Qed.

(** The score of two players whose ids, like all ids of the history, hold
    no hyphen: ten times the number of doubles matches they shared, plus
    their total matches. *)
Lemma calculatePairScore_without_hyphen (a b : Player) (roster : list Player)
    (history : list Match) (t : nat) :
  Forall (fun s => hyphenFree s = true) (idsOf history) ->
  hyphenFree (playerId a) = true -> hyphenFree (playerId b) = true ->
  calculatePairScore a b (getPairings history) (participationOf t roster history)
  = 10 * Spec.pairFrequency (filter (fun m => length (players m) = 4) history)
                            (playerId a) (playerId b)
    + totalPlayed (participationOf t roster history !! playerId a)
    + totalPlayed (participationOf t roster history !! playerId b).
Proof.
  intros Hh Ha Hb. unfold calculatePairScore.
  change (match List.find _ (getPairings history) with
          | Some p => count p | None => 0 end)
    with (readFrequency (getPairings history) (playerId a) (playerId b)).
  rewrite readFrequency_history by done.
  unfold Spec.pairFrequency. rewrite doublesPairs_history. lia.
Qed.
End ScoreFacts.

(** C1 (the code at the failing input).  Ann and Bob have ids from
    [crypto.randomUUID()] and have played one doubles match together.  Their
    pairing frequency is 1 and each has played one match, so the score should
    be 10 * 1 + 1 + 1 = 12.  [getPairings] splits the key of the pairing map
    at every hyphen and keeps the first two pieces, both taken from the first
    id; no entry of the pairings matches the two players, and
    [calculatePairScore] returns 2. *)
Theorem calculatePairScore_with_uuid_ids :
  let pairings := Fixed.getPairings [Examples.uuidMatch] in
  let pm := Fixed.participationOf 0 Examples.uuidRoster [Examples.uuidMatch] in
  Fixed.calculatePairScore Examples.ann Examples.bob pairings pm = 2
  /\ Spec.pairFrequency [Examples.uuidMatch] (playerId Examples.ann) (playerId Examples.bob) = 1
  /\ Fixed.totalPlayed (pm !! playerId Examples.ann) = 1
  /\ Fixed.totalPlayed (pm !! playerId Examples.bob) = 1
  /\ readFrequency pairings (playerId Examples.ann) (playerId Examples.bob) = 0
  /\ map (fun p => (Fixed.player1Id p, Fixed.player2Id p, Fixed.count p)) pairings
     = [("0b9e4d17", "8a2c", 1); ("9d3f7b26", "1c5e", 1); ("6f1c2a9e", "5b7d", 1);
        ("6f1c2a9e", "5b7d", 1); ("0b9e4d17", "8a2c", 1); ("0b9e4d17", "8a2c", 1)].
Proof. repeat split; vm_compute; reflexivity. Qed.


(** * What recording a match changes *)

Module RecordFacts.
Import Fixed.

(** *** The participation map *)

Lemma foldl_alter_lookup (f : PlayerParticipation -> PlayerParticipation)
    (ps : list Player) (pm : gmap string PlayerParticipation) (k : string) :
  NoDup (ids ps) ->
  foldl (fun map p => alter f (playerId p) map) pm ps !! k
  = if decide (k ∈ ids ps) then f <$> pm !! k else pm !! k.
Proof.
  revert pm. induction ps as [|p ps IH]; intros pm Hnd; cbn [foldl].
  - rewrite decide_False; [done|]. apply not_elem_of_nil.
  - change (ids (p :: ps)) with (playerId p :: ids ps) in *.
    apply NoDup_cons in Hnd as [Hp Hnd]. rewrite IH by done.
    destruct (decide (k = playerId p)) as [->|Hne].
    + rewrite decide_False by done. rewrite decide_True by (by left).
      by rewrite lookup_alter_eq.
    + rewrite lookup_alter_ne by done.
      destruct (decide (k ∈ ids ps)) as [Hin|Hin].
      * by rewrite decide_True by (by right).
      * rewrite decide_False; [done|]. by intros [?|?]%elem_of_cons.
Qed.

Lemma recordCounts_lookup (t : nat) (pm : gmap string PlayerParticipation)
    (m : Match) (k : string) :
  NoDup (ids (players m)) ->
  recordCounts t pm m !! k
  = if decide (k ∈ ids (players m))
    then countMatch (length (players m) =? 4) t <$> pm !! k
    else pm !! k.
Proof. apply foldl_alter_lookup. Qed.

Lemma recordTeams_other (pm : gmap string PlayerParticipation) (m : Match) :
  length (players m) <> 4 -> recordTeams pm m = pm.
Proof.
  unfold recordTeams. by destruct (players m) as [|a [|b [|c [|d [|? ?]]]]].
Qed.

Lemma linkPartners_untouched ka kb x y (pm : gmap string PlayerParticipation) (k : string) :
  k <> ka -> k <> kb -> linkPartners ka kb x y pm !! k = pm !! k.
Proof.
  intros Ha Hb. unfold linkPartners. destruct x, y; try done.
  by rewrite !lookup_alter_ne.
Qed.

Lemma linkOpponents_untouched ka kb x y (pm : gmap string PlayerParticipation) (k : string) :
  k <> ka -> k <> kb -> linkOpponents ka kb x y pm !! k = pm !! k.
Proof.
  intros Ha Hb. unfold linkOpponents. destruct x, y; try done.
  by rewrite !lookup_alter_ne.
Qed.

Lemma linkPartners_left ka kb x y (pm : gmap string PlayerParticipation) :
  ka <> kb ->
  linkPartners ka kb (Some x) (Some y) pm !! ka
  = addPartner (playerId (player y)) <$> pm !! ka.
Proof. intros H. unfold linkPartners. by rewrite lookup_alter_ne, lookup_alter_eq. Qed.

Lemma linkPartners_right ka kb x y (pm : gmap string PlayerParticipation) :
  ka <> kb ->
  linkPartners ka kb (Some x) (Some y) pm !! kb
  = addPartner (playerId (player x)) <$> pm !! kb.
Proof. intros H. unfold linkPartners. by rewrite lookup_alter_eq, lookup_alter_ne. Qed.

Lemma linkOpponents_left ka kb x y (pm : gmap string PlayerParticipation) :
  ka <> kb ->
  linkOpponents ka kb (Some x) (Some y) pm !! ka
  = addOpponent (playerId (player y)) <$> pm !! ka.
Proof. intros H. unfold linkOpponents. by rewrite lookup_alter_ne, lookup_alter_eq. Qed.

Lemma linkOpponents_right ka kb x y (pm : gmap string PlayerParticipation) :
  ka <> kb ->
  linkOpponents ka kb (Some x) (Some y) pm !! kb
  = addOpponent (playerId (player x)) <$> pm !! kb.
Proof. intros H. unfold linkOpponents. by rewrite lookup_alter_eq, lookup_alter_ne. Qed.

(** No key but the ids of the match is touched. *)
Lemma recordTeams_untouched (pm : gmap string PlayerParticipation) (m : Match) (k : string) :
  k ∉ ids (players m) -> recordTeams pm m !! k = pm !! k.
Proof.
  unfold recordTeams.
  destruct (players m) as [|a [|b [|c [|d [|? ?]]]]]; try done.
  intros Hk. simpl in Hk.
  assert (k <> playerId a /\ k <> playerId b /\ k <> playerId c /\ k <> playerId d)
    as (Ha & Hb & Hc & Hd) by set_solver.
  cbn [foldl]. cbv beta iota.
  by rewrite !linkOpponents_untouched, !linkPartners_untouched.
Qed.

Lemma recordMatch_untouched (t : nat) (pm : gmap string PlayerParticipation)
    (m : Match) (k : string) :
  NoDup (ids (players m)) -> k ∉ ids (players m) -> recordMatch t pm m !! k = pm !! k.
Proof.
  intros Hnd Hk. unfold recordMatch.
  rewrite recordCounts_lookup, decide_False by done. by apply recordTeams_untouched.
Qed.

(** The participation of the player at index [i] of a doubles match whose
    four players are all in the map. *)
Lemma recordTeams_doubles (pm : gmap string PlayerParticipation) (m : Match)
    (i : nat) (p : Player) :
  keyedById pm ->
  length (players m) = 4 ->
  NoDup (ids (players m)) ->
  Forall (fun q => is_Some (pm !! playerId q)) (players m) ->
  players m !! i = Some p ->
  exists old new,
    pm !! playerId p = Some old
    /\ recordTeams pm m !! playerId p = Some new
    /\ player new = player old
    /\ doublesMatchesPlayed new = doublesMatchesPlayed old
    /\ singlesMatchesPlayed new = singlesMatchesPlayed old
    /\ lastPlayed new = lastPlayed old
    /\ (forall z, z ∈ partners new
                  <-> z ∈ partners old \/ z ∈ ids (teamOf (players m) i))
    /\ (forall z, z ∈ opponents new
                  <-> z ∈ opponents old \/ z ∈ ids (opponentsOf (players m) i)).
Proof.
  intros Hkeyed Hlen Hnd Hall Hi. unfold recordTeams.
  destruct (players m) as [|a [|b [|c [|d [|? ?]]]]]; try discriminate.
  inversion Hall as [|? ? [pa Ha] Hall1]; subst.
  inversion Hall1 as [|? ? [pb Hb] Hall2]; subst.
  inversion Hall2 as [|? ? [pc Hc] Hall3]; subst.
  inversion Hall3 as [|? ? [pd Hd] _]; subst.
  pose proof (Hkeyed _ _ Ha) as Ka. pose proof (Hkeyed _ _ Hb) as Kb.
  pose proof (Hkeyed _ _ Hc) as Kc. pose proof (Hkeyed _ _ Hd) as Kd.
  simpl in Hnd.
  assert (playerId a <> playerId b /\ playerId a <> playerId c
          /\ playerId a <> playerId d /\ playerId b <> playerId c
          /\ playerId b <> playerId d /\ playerId c <> playerId d)
    as (Hab & Hac & Had & Hbc & Hbd & Hcd).
  { repeat (apply NoDup_cons in Hnd as [? Hnd]). set_solver. }
  rewrite Ha, Hb, Hc, Hd. cbn [foldl]. cbv beta iota.
  destruct i as [|[|[|[|i]]]]; simpl in Hi; try discriminate; injection Hi as <-.
  all: repeat first
         [ rewrite linkOpponents_untouched by congruence
         | rewrite linkPartners_untouched by congruence
         | rewrite linkOpponents_left by congruence
         | rewrite linkOpponents_right by congruence
         | rewrite linkPartners_left by congruence
         | rewrite linkPartners_right by congruence ].
  all: rewrite ?Ha, ?Hb, ?Hc, ?Hd; simpl.
  all: eexists _, _; split; [done|]; split; [done|]; simpl.
  all: rewrite ?Ka, ?Kb, ?Kc, ?Kd.
  all: do 4 (split; [done|]).
  all: split; intros z; unfold ids; simpl; set_solver.
Qed.

Section Shape.
Variable roster : list Player.

Let shaped (pm : gmap string PlayerParticipation) : Prop :=
  keyedById pm /\ forall k, k ∈ ids roster <-> is_Some (pm !! k).

Lemma shaped_alter (f : PlayerParticipation -> PlayerParticipation) (k : string)
    (pm : gmap string PlayerParticipation) :
  (forall x, player (f x) = player x) -> shaped pm -> shaped (alter f k pm).
Proof.
  intros Hf [Hk Hd]. split.
  - intros k' q. destruct (decide (k = k')) as [<-|Hne].
    + rewrite lookup_alter_eq. intros (q0 & Hq0 & ->)%fmap_Some.
      rewrite Hf. by apply Hk.
    + rewrite lookup_alter_ne by done. apply Hk.
  - intros k'. rewrite Hd. destruct (decide (k = k')) as [<-|Hne].
    + by rewrite lookup_alter_eq, fmap_is_Some.
    + by rewrite lookup_alter_ne.
Qed.

Lemma shaped_linkPartners ka kb x y (pm : gmap string PlayerParticipation) :
  shaped pm -> shaped (linkPartners ka kb x y pm).
Proof.
  intros H. unfold linkPartners. destruct x, y; try done.
  by do 2 (apply shaped_alter; [done|]).
Qed.

Lemma shaped_linkOpponents ka kb x y (pm : gmap string PlayerParticipation) :
  shaped pm -> shaped (linkOpponents ka kb x y pm).
Proof.
  intros H. unfold linkOpponents. destruct x, y; try done.
  by do 2 (apply shaped_alter; [done|]).
Qed.

Lemma shaped_recordMatch (t : nat) (pm : gmap string PlayerParticipation) (m : Match) :
  shaped pm -> shaped (recordMatch t pm m).
Proof.
  intros H. unfold recordMatch, recordCounts.
  assert (Hteams : shaped (recordTeams pm m)).
  { unfold recordTeams.
    destruct (players m) as [|a [|b [|c [|d [|? ?]]]]]; try done.
    cbn [foldl]. cbv beta iota.
    do 4 apply shaped_linkOpponents. by do 2 apply shaped_linkPartners. }
  revert Hteams. generalize (recordTeams pm m) as pm1.
  generalize (length (players m) =? 4) as flag. generalize (players m) as ps.
  induction ps as [|p ps IHps]; intros flag pm1 H1; cbn [foldl]; [done|].
  apply IHps. by apply shaped_alter.
Qed.

Lemma shaped_initial : shaped (initialParticipationMap roster).
Proof.
  unfold initialParticipationMap.
  assert (Hgen : forall (l : list Player) (pm0 : gmap string PlayerParticipation),
    keyedById pm0 ->
    keyedById (foldl (fun map p => <[playerId p := newParticipation p]> map) pm0 l)
    /\ forall k, is_Some (foldl (fun map p => <[playerId p := newParticipation p]> map)
                                pm0 l !! k)
                 <-> k ∈ ids l \/ is_Some (pm0 !! k)).
  { induction l as [|p l IH]; intros pm0 H0; cbn [foldl].
    - split; [done|]. intros k. split; [by right|]. by intros [?%elem_of_nil|?].
    - destruct (IH (<[playerId p := newParticipation p]> pm0)) as [Hk Hd].
      { intros k q. destruct (decide (playerId p = k)) as [<-|Hne].
        - rewrite lookup_insert_eq. by intros [= <-].
        - rewrite lookup_insert_ne by done. apply H0. }
      split; [done|]. intros k. rewrite Hd.
      change (ids (p :: l)) with (playerId p :: ids l).
      destruct (decide (playerId p = k)) as [<-|Hne].
      + rewrite lookup_insert_eq. split; [left; by left|by right; eexists].
      + rewrite lookup_insert_ne by done. set_solver. }
  destruct (Hgen roster ∅) as [Hk Hd]; [by intros k q; rewrite lookup_empty|].
  split; [done|]. intros k. rewrite Hd, lookup_empty. split; [by left|].
  by intros [?|[? ?]].
Qed.

(** The participation map holds one entry per roster id, each the
    participation of the player with that id. *)
Lemma participationOf_keyedById (t : nat) (history : list Match) :
  keyedById (participationOf t roster history)
  /\ forall k, k ∈ ids roster <-> is_Some (participationOf t roster history !! k).
Proof.
  unfold participationOf. pose proof shaped_initial as Hinit. revert Hinit.
  generalize (initialParticipationMap roster) as pm0.
  induction history as [|m history IH]; intros pm0 H0; cbn [foldl]; [done|].
  apply IH. by apply shaped_recordMatch.
Qed.
End Shape.

(** *** The pairing frequency *)

(** Among the six pairs of a doubles match with distinct ids, exactly one
    is the pair of two given distinct participants. *)
Lemma doublesPairs_count (m : Match) (x y : string) :
  length (players m) = 4 ->
  NoDup (ids (players m)) ->
  length (filter (Spec.samePair x y) (doublesPairs m))
  = if decide (x <> y /\ x ∈ ids (players m) /\ y ∈ ids (players m)) then 1 else 0.
Proof.
  unfold doublesPairs.
  destruct (players m) as [|a [|b [|c [|d [|? ?]]]]]; try discriminate.
  intros _ Hnd. unfold ids in *. cbn [map] in *.
  generalize dependent (playerId a). generalize dependent (playerId b).
  generalize dependent (playerId c). generalize dependent (playerId d).
  intros kd kc kb ka Hnd.
  assert (ka <> kb /\ ka <> kc /\ ka <> kd /\ kb <> kc /\ kb <> kd /\ kc <> kd)
    as (Hab & Hac & Had & Hbc & Hbd & Hcd).
  { repeat (apply NoDup_cons in Hnd as [? Hnd]). set_solver. }
  clear Hnd.
  destruct (decide (x <> y /\ x ∈ [ka; kb; kc; kd] /\ y ∈ [ka; kb; kc; kd]))
    as [(Hxy & Hx & Hy)|Hno].
  - repeat (apply elem_of_cons in Hx as [->|Hx]); [..|by apply elem_of_nil in Hx];
      (repeat (apply elem_of_cons in Hy as [->|Hy]); [..|by apply elem_of_nil in Hy]);
      try done;
      repeat (rewrite filter_cons;
              match goal with
              | |- context [decide (Spec.samePair ?u ?v ?pr)] =>
                  let H := fresh "Hs" in
                  destruct (decide (Spec.samePair u v pr)) as [H|H];
                  [ try (exfalso; destruct H as [H|H]; injection H; congruence)
                  | try (exfalso; apply H; unfold Spec.samePair; by auto) ]
              end);
      by rewrite filter_nil.
  - repeat (rewrite filter_cons;
            match goal with
            | |- context [decide (Spec.samePair ?u ?v ?pr)] =>
                let H := fresh "Hs" in
                destruct (decide (Spec.samePair u v pr)) as [H|H];
                [ exfalso; apply Hno; destruct H as [H|H]; injection H as <- <-;
                  (split; [congruence|]); split; set_solver
                | ]
            end).
    by rewrite filter_nil.
Qed.

Lemma readFrequency_recorded (history : list Match) (m : Match) (x y : string) :
  Forall (fun s => hyphenFree s = true) (idsOf (history ++ [m])) ->
  hyphenFree x = true -> hyphenFree y = true ->
  readFrequency (getPairings (history ++ [m])) x y
  = readFrequency (getPairings history) x y
    + length (filter (Spec.samePair x y) (doublesPairs m)).
Proof.
  intros Hh Hx Hy. rewrite !ScoreFacts.readFrequency_history; try done.
  - rewrite map_app, concat_app, filter_app, length_app. simpl. by rewrite app_nil_r.
  - unfold idsOf in *. rewrite map_app, concat_app in Hh. by apply Forall_app in Hh as [? _].
Qed.
End RecordFacts.

Module HistoryFacts.
Import General.

Lemma played_lookup (ps : list Player) (h : Histories) (k : string) :
  mapGet k (foldl (fun hs p => mapAlter played (playerId p) hs) h ps) = mapGet k h
  \/ k ∈ ids ps.
Proof.
  revert h. induction ps as [|p ps IH]; intros h; cbn [foldl]; [by left|].
  destruct (IH (mapAlter played (playerId p) h)) as [Heq|Hin].
  - destruct (decide (playerId p = k)) as [<-|Hne]; [right; by left|].
    left. by rewrite Heq, mapGet_mapAlter_ne.
  - right. by right.
Qed.

Lemma played_lookup_in (ps : list Player) (h : Histories) (p : Player) :
  NoDup (ids ps) -> p ∈ ps ->
  mapGet (playerId p) (foldl (fun hs q => mapAlter played (playerId q) hs) h ps)
  = played <$> mapGet (playerId p) h.
Proof.
  revert h. induction ps as [|q ps IH]; intros h Hnd Hin; cbn [foldl].
  - by apply elem_of_nil in Hin.
  - change (ids (q :: ps)) with (playerId q :: ids ps) in Hnd.
    apply NoDup_cons in Hnd as [Hq Hnd].
    destruct (decide (playerId q = playerId p)) as [Heq|Hne].
    + destruct (played_lookup ps (mapAlter played (playerId q) h) (playerId p))
        as [->|Hin']; [|by rewrite <- Heq in Hin'].
      by rewrite <- Heq, mapGet_mapAlter_eq.
    + apply elem_of_cons in Hin as [->|Hin]; [done|].
      by rewrite IH, mapGet_mapAlter_ne.
Qed.

Lemma linkAll_untouched ps i rest (h : Histories) (k : string) :
  k ∉ ids rest -> mapGet k (linkAll ps i rest h) = mapGet k h.
Proof.
  revert i h. induction rest as [|p rest IH]; intros i h Hk; cbn [linkAll]; [done|].
  change (ids (p :: rest)) with (playerId p :: ids rest) in Hk.
  apply not_elem_of_cons in Hk as [Hne Hk].
  by rewrite IH, mapGet_mapAlter_ne.
Qed.

Lemma linkAll_lookup ps i rest (h : Histories) (j : nat) (p : Player) :
  NoDup (ids rest) -> rest !! j = Some p ->
  mapGet (playerId p) (linkAll ps i rest h)
  = linkEffect ps (i + j) <$> mapGet (playerId p) h.
Proof.
  revert i j h. induction rest as [|q rest IH]; intros i j h Hnd Hj; [done|].
  change (ids (q :: rest)) with (playerId q :: ids rest) in Hnd.
  apply NoDup_cons in Hnd as [Hq Hnd]. cbn [linkAll].
  destruct j as [|j]; simpl in Hj.
  - injection Hj as ->. rewrite linkAll_untouched by done.
    rewrite mapGet_mapAlter_eq. by replace (i + 0) with i by lia.
  - rewrite (IH (i + 1) j) by done.
    replace (i + 1 + j) with (i + S j) by lia.
    rewrite mapGet_mapAlter_ne; [done|].
    intros Heq. apply Hq. rewrite Heq. apply list_elem_of_fmap. exists p.
    split; [done|]. by eapply list_elem_of_lookup_2.
Qed.

(** The history of the player at index [i] once the match is recorded. *)
Lemma recorded_lookup (m : Match) (h : Histories) (i : nat) (p : Player) :
  NoDup (ids (players m)) -> players m !! i = Some p ->
  mapGet (playerId p) (recorded m h)
  = (fun x => linkEffect (players m) i (played x)) <$> mapGet (playerId p) h.
Proof.
  intros Hnd Hi. unfold recorded.
  rewrite (linkAll_lookup _ 0 _ _ i p Hnd Hi).
  rewrite played_lookup_in; [|done|by eapply list_elem_of_lookup_2].
  by rewrite <- option_fmap_compose.
Qed.

Lemma recorded_untouched (m : Match) (h : Histories) (k : string) :
  k ∉ ids (players m) -> mapGet k (recorded m h) = mapGet k h.
Proof.
  intros Hk. unfold recorded. rewrite linkAll_untouched by done.
  by destruct (played_lookup (players m) h k).
Qed.








End HistoryFacts.


Section Recording.
Variables (t : nat) (roster : list Player) (history : list Match) (m : Match).
Hypothesis distinct : NoDup (ids (players m)).

Let pm := Fixed.participationOf t roster history.
Let pm' := Fixed.participationOf t roster (history ++ [m]).

Lemma participationOf_snoc : pm' = Fixed.recordMatch t pm m.
Proof. unfold pm', pm, Fixed.participationOf. by rewrite foldl_app. Qed.

(** A doubles match in the fixed-case ledger. *)
Lemma recorded_doubles (i : nat) (p : Player) :
  length (players m) = 4 ->
  Forall (fun q => playerId q ∈ ids roster) (players m) ->
  players m !! i = Some p ->
  exists old new,
    pm !! playerId p = Some old
    /\ pm' !! playerId p = Some new
    /\ Fixed.doublesMatchesPlayed new = Fixed.doublesMatchesPlayed old + 1
    /\ Fixed.singlesMatchesPlayed new = Fixed.singlesMatchesPlayed old
    /\ (forall z, z ∈ Fixed.partners new
                  <-> z ∈ Fixed.partners old \/ z ∈ ids (teamOf (players m) i))
    /\ (forall z, z ∈ Fixed.opponents new
                  <-> z ∈ Fixed.opponents old \/ z ∈ ids (opponentsOf (players m) i)).
Proof.
  intros Hlen Hroster Hi.
  destruct (RecordFacts.participationOf_keyedById roster t history) as [Hkeyed Hdom].
  fold pm in Hkeyed, Hdom.
  destruct (RecordFacts.recordTeams_doubles pm m i p Hkeyed Hlen distinct) as
    (old & mid & Hold & Hmid & _ & Hd & Hs & _ & Hpartners & Hopponents); [|done|].
  { eapply Forall_impl; [exact Hroster|]. intros q Hq. by apply Hdom. }
  exists old, (Fixed.countMatch true t mid).
  rewrite participationOf_snoc. unfold Fixed.recordMatch.
  rewrite RecordFacts.recordCounts_lookup by done.
  rewrite decide_True by (apply list_elem_of_fmap; exists p; split; [done|];
                           by eapply list_elem_of_lookup_2).
  rewrite Hmid, Hlen. cbn [fmap option_fmap option_map Nat.eqb].
  split; [done|]. split; [done|]. cbn [Fixed.countMatch Fixed.doublesMatchesPlayed
    Fixed.singlesMatchesPlayed Fixed.partners Fixed.opponents].
  rewrite Hd, Hs. split; [done|]. split; [done|]. by split.
Qed.

(** The pairing frequency after a doubles match, for ids without hyphen. *)
Lemma recorded_frequency (x y : string) :
  length (players m) = 4 ->
  Forall (fun s => hyphenFree s = true) (idsOf (history ++ [m])) ->
  hyphenFree x = true -> hyphenFree y = true ->
  readFrequency (Fixed.getPairings (history ++ [m])) x y
  = readFrequency (Fixed.getPairings history) x y
    + (if decide (x <> y /\ x ∈ ids (players m) /\ y ∈ ids (players m)) then 1 else 0).
Proof.
  intros Hlen Hh Hx Hy.
  rewrite RecordFacts.readFrequency_recorded by done.
  by rewrite RecordFacts.doublesPairs_count.
Qed.

(** A match of two or three players in the fixed-case ledger. *)
Lemma recorded_other_size :
  length (players m) <> 4 ->
  Fixed.getPairings (history ++ [m]) = Fixed.getPairings history
  /\ forall p old,
       p ∈ players m -> pm !! playerId p = Some old ->
       pm' !! playerId p
       = Some (Fixed.mkParticipation (Fixed.player old) (Fixed.doublesMatchesPlayed old)
                 (Fixed.singlesMatchesPlayed old + 1) (Some t)
                 (Fixed.partners old) (Fixed.opponents old)).
Proof.
  intros Hlen. split.
  - unfold Fixed.getPairings, Fixed.pairingMapOf. rewrite foldl_app. simpl.
    rewrite addMatchPairings_addAll, ScoreFacts.doublesPairs_other; done.
  - intros p old Hp Hold. rewrite participationOf_snoc. unfold Fixed.recordMatch.
    rewrite RecordFacts.recordCounts_lookup by done.
    rewrite decide_True by (apply list_elem_of_fmap; by exists p).
    rewrite RecordFacts.recordTeams_other, Hold by done.
    destruct (Nat.eqb_spec (length (players m)) 4); done.
Qed.

Lemma recorded_others (k : string) : k ∉ ids (players m) -> pm' !! k = pm !! k.
Proof.
  intros Hk. rewrite participationOf_snoc. by apply RecordFacts.recordMatch_untouched.
Qed.

(** A match with an even number of players in the general ledger. *)
Lemma recorded_history (h : General.Histories) (i : nat) (p : Player)
    (old : General.PlayerHistory) :
  players m !! i = Some p ->
  mapGet (playerId p) h = Some old ->
  exists new,
    mapGet (playerId p) (recorded m h) = Some new
    /\ General.gamesPlayed new = General.gamesPlayed old + 1
    /\ (forall z, z ∈ General.partners new
                  <-> z ∈ General.partners old \/ z ∈ ids (teamOf (players m) i))
    /\ (forall z, z ∈ General.opponents new
                  <-> z ∈ General.opponents old \/ z ∈ ids (opponentsOf (players m) i)).
Proof.
  intros Hi Hold. rewrite (HistoryFacts.recorded_lookup m h i p distinct Hi), Hold.
  eexists. split; [done|]. simpl. split; [done|].
  split; intros z; rewrite elem_of_union, elem_of_list_to_set; tauto.
Qed.
End Recording.

(** C4 (as amended).  Recording a match whose players have distinct ids.
    - A doubles match, all four players on the roster: each participant's
      doubles count grows by 1, the singles count stays, the teammate is
      added to the partners and the two players of the other side to the
      opponents.
    - For ids without hyphen the pairing frequency read by the scorer grows
      by exactly 1 for each of the six pairs of two distinct participants and
      by 0 for every other pair.
    - A match of two or three players only adds 1 to each participant's
      singles count: partners, opponents and the pairings are unchanged.
    - Players not in the match are unchanged.
    - In the general ledger a match with an even number of players (two or
      four) is recorded without exception: games played grow by 1, the
      players of the same half are added to the partners and those of the
      other half to the opponents; others are unchanged. *)
Theorem recording_a_match
    (t : nat) (roster : list Player) (history : list Match) (m : Match)
    (h : General.Histories) :
  NoDup (ids (players m)) ->
  let pm := Fixed.participationOf t roster history in
  let pm' := Fixed.participationOf t roster (history ++ [m]) in
  (length (players m) = 4 ->
   Forall (fun q => playerId q ∈ ids roster) (players m) ->
   forall i p, players m !! i = Some p ->
     exists old new,
       pm !! playerId p = Some old
       /\ pm' !! playerId p = Some new
       /\ Fixed.doublesMatchesPlayed new = Fixed.doublesMatchesPlayed old + 1
       /\ Fixed.singlesMatchesPlayed new = Fixed.singlesMatchesPlayed old
       /\ (forall z, z ∈ Fixed.partners new
                     <-> z ∈ Fixed.partners old \/ z ∈ ids (teamOf (players m) i))
       /\ (forall z, z ∈ Fixed.opponents new
                     <-> z ∈ Fixed.opponents old \/ z ∈ ids (opponentsOf (players m) i)))
  /\ (length (players m) = 4 ->
      Forall (fun s => hyphenFree s = true) (idsOf (history ++ [m])) ->
      forall x y, hyphenFree x = true -> hyphenFree y = true ->
        readFrequency (Fixed.getPairings (history ++ [m])) x y
        = readFrequency (Fixed.getPairings history) x y
          + (if decide (x <> y /\ x ∈ ids (players m) /\ y ∈ ids (players m))
             then 1 else 0))
  /\ (length (players m) <> 4 ->
      Fixed.getPairings (history ++ [m]) = Fixed.getPairings history
      /\ forall p old,
           p ∈ players m -> pm !! playerId p = Some old ->
           pm' !! playerId p
           = Some (Fixed.mkParticipation (Fixed.player old) (Fixed.doublesMatchesPlayed old)
                     (Fixed.singlesMatchesPlayed old + 1) (Some t)
                     (Fixed.partners old) (Fixed.opponents old)))
  /\ (forall k, k ∉ ids (players m) ->
        pm' !! k = pm !! k /\ mapGet k (recorded m h) = mapGet k h)
  /\ (Nat.even (length (players m)) = true ->
      General.updatePlayerHistories m h = (Ok tt, recorded m h)
      /\ forall i p old,
           players m !! i = Some p -> mapGet (playerId p) h = Some old ->
           exists new,
             mapGet (playerId p) (recorded m h) = Some new
             /\ General.gamesPlayed new = General.gamesPlayed old + 1
             /\ (forall z, z ∈ General.partners new
                           <-> z ∈ General.partners old \/ z ∈ ids (teamOf (players m) i))
             /\ (forall z, z ∈ General.opponents new
                           <-> z ∈ General.opponents old
                               \/ z ∈ ids (opponentsOf (players m) i))).
Proof.
  intros Hnd pm pm'. split; [|split; [|split; [|split]]].
  - intros Hlen Hroster i p Hi. by apply recorded_doubles.
  - intros Hlen Hh x y Hx Hy. by apply recorded_frequency.
  - intros Hlen. by apply recorded_other_size.
  - intros k Hk. split; [by apply recorded_others|by apply HistoryFacts.recorded_untouched].
  - intros Hev. split; [by apply GeneralFacts.updatePlayerHistories_even|].
    intros i p old Hi Hold. by apply recorded_history.
Qed.

Lemma recording_a_match_witness :
  NoDup (ids (players Examples.firstMatch))
  /\ (exists old new,
        Fixed.participationOf 0 Examples.eightPlayers [] !! "a" = Some old
        /\ Fixed.participationOf 0 Examples.eightPlayers ([] ++ [Examples.firstMatch]) !! "a"
           = Some new
        /\ Fixed.doublesMatchesPlayed new = Fixed.doublesMatchesPlayed old + 1
        /\ (forall z, z ∈ Fixed.partners new <-> z ∈ Fixed.partners old \/ z ∈ ["b"])
        /\ (forall z, z ∈ Fixed.opponents new <-> z ∈ Fixed.opponents old \/ z ∈ ["c"; "d"]))
  /\ readFrequency (Fixed.getPairings ([] ++ [Examples.firstMatch])) "a" "c"
     = readFrequency (Fixed.getPairings []) "a" "c" + 1
  /\ readFrequency (Fixed.getPairings ([] ++ [Examples.firstMatch])) "a" "e"
     = readFrequency (Fixed.getPairings []) "a" "e" + 0.
Proof.
  assert (Hnd : NoDup (ids (players Examples.firstMatch))).
  { apply (bool_decide_unpack _). vm_compute. exact I. }
  split; [exact Hnd|].
  destruct (recording_a_match 0 Examples.eightPlayers [] Examples.firstMatch [] Hnd)
    as (Hdoubles & Hfreq & _).
  split; [|split].
  - destruct (Hdoubles eq_refl) with (i := 0) (p := Examples.P "a")
      as (old & new & Hold & Hnew & Hd & _ & Hp & Ho).
    + apply (bool_decide_unpack _). vm_compute. exact I.
    + reflexivity.
    + exists old, new. split; [exact Hold|]. split; [exact Hnew|]. split; [exact Hd|].
      split; [exact Hp|exact Ho].
  - apply (Hfreq eq_refl); [|reflexivity..].
    vm_compute. repeat (constructor; [reflexivity|]). constructor.
  - apply (Hfreq eq_refl); [|reflexivity..].
    vm_compute. repeat (constructor; [reflexivity|]). constructor.
Defined.

(** A singles match a against b: the claim adds b to the opponents of a and
    1 to the pairing frequency of a and b.  The fixed-case ledger records
    neither (only the singles counts grow), and the general ledger raises a
    [TypeError] on a match of three players. *)
Lemma singles_match_leaves_no_pairing :
  let pm' := Fixed.participationOf 0 Examples.fourPlayers [Examples.singlesMatch] in
  Spec.pairFrequency [Examples.singlesMatch] "a" "b" = 1
  /\ Fixed.getPairings [Examples.singlesMatch] = []
  /\ readFrequency (Fixed.getPairings [Examples.singlesMatch]) "a" "b" = 0
  /\ Fixed.opponents <$> pm' !! "a" = Some ∅
  /\ Fixed.singlesMatchesPlayed <$> pm' !! "a" = Some 1
  /\ fst (General.updatePlayerHistories Examples.threeMatch
            (freshHistories Examples.fourPlayers))
     = Throw "TypeError".
Proof. repeat split; vm_compute; reflexivity. Qed.


(** * Generation records the round; advancing records it again *)






(** * Further properties of the fixed-case generator *)

(** ** The shuffle *)

Lemma shuffleLoop_tape {A : Type} (i : nat) (arr : list A) (w : World) :
  snd (shuffleLoop i arr w) = mkWorld (drop i (rands w)) (uuids w) (clock w).
Proof.
  revert arr w. induction i as [|i IH]; intros arr w.
  - by destruct w.
  - cbn [shuffleLoop]. unfold bind, randomBelow.
    destruct (rands w) as [|r rs] eqn:Hr.
    + rewrite IH, Hr. by rewrite !drop_nil.
    + rewrite IH. done.
Qed.

(** X1.  [shuffleArray] returns a permutation of its array whatever [Math.random]
    returns; it makes one draw per position but the first, and reads nothing
    else. *)
Theorem shuffleArray_permutes (A : Type) (array : list A) (w : World) :
  exists shuffled,
    Fixed.shuffleArray array w
    = (Ok shuffled, mkWorld (drop (length array - 1) (rands w)) (uuids w) (clock w))
    /\ shuffled ≡ₚ array
    /\ length shuffled = length array.
Proof.
  unfold Fixed.shuffleArray.
  destruct (shuffleLoop_spec (length array - 1) array w) as (sh & rs & Heq & Hp).
  pose proof (shuffleLoop_tape (length array - 1) array w) as Htape.
  rewrite Heq in Htape. simpl in Htape. rewrite <- Htape.
  exists sh. split; [done|]. split; [done|]. by rewrite Hp.
Qed.

(** ** Pairing keys *)

Lemma addPairing_keys_NoDup (m : list (string * nat)) (k : string) (v : nat) :
  NoDup (map fst m) -> NoDup (map fst (mapSet k v m)).
Proof.
  induction m as [|[k' v'] m IH]; intros Hnd; simpl.
  - apply NoDup_singleton.
  - destruct (String.eqb_spec k k') as [->|Hne]; [done|].
    simpl in *. apply NoDup_cons in Hnd as [Hk' Hnd]. apply NoDup_cons. split; [|by apply IH].
    intros Hin. apply Hk'. clear -Hin Hne.
    induction m as [|[k0 v0] m IH]; simpl in *.
    + apply list_elem_of_singleton in Hin. congruence.
    + destruct (String.eqb_spec k k0) as [->|Hne0]; simpl in *; [done|].
      apply elem_of_cons in Hin as [->|Hin]; [by left|right; by apply IH].
Qed.

(** X2.  [addPairing] counts the unordered pair: the order of the two ids does not
    matter, the count under their key grows by one, every other count is
    kept, and no key is ever listed twice. *)
Theorem addPairing_counts_unordered_pair (map : list (string * nat)) (a b : string) :
  Fixed.addPairing map a b = Fixed.addPairing map b a
  /\ (forall k, keyCount (Fixed.addPairing map a b) k
                = keyCount map k + (if decide (sortJoin a b = k) then 1 else 0))
  /\ (NoDup (List.map fst map) -> NoDup (List.map fst (Fixed.addPairing map a b))).
Proof.
  split; [|split].
  - unfold Fixed.addPairing. by rewrite (sortJoin_comm a b).
  - intros k. apply keyCount_addPairing.
  - intros Hnd. by apply addPairing_keys_NoDup.
Qed.

(** X3.  [calculatePairScore] does not depend on the order of the two players. *)
Theorem calculatePairScore_symmetric (player1 player2 : Player)
    (pairings : list Fixed.PlayerPairing)
    (participationMap : gmap string Fixed.PlayerParticipation) :
  Fixed.calculatePairScore player1 player2 pairings participationMap
  = Fixed.calculatePairScore player2 player1 pairings participationMap.
Proof.
  unfold Fixed.calculatePairScore.
  rewrite (sortJoin_comm (playerId player2) (playerId player1)). lia.
Qed.


(** ** Rounds of four to seven players, and of more than eight *)

Lemma sorted_take_drop {A : Type} (R : A -> A -> Prop) (l : list A) (n : nat) (p q : A) :
  StronglySorted R l -> p ∈ take n l -> q ∈ drop n l -> R p q.
Proof.
  intros Hs. revert n. induction Hs as [|x l Hs IH Hall]; intros n Hp Hq.
  - rewrite take_nil in Hp. by apply elem_of_nil in Hp.
  - destruct n as [|n]; simpl in *; [by apply elem_of_nil in Hp|].
    apply elem_of_cons in Hp as [->|Hp]; [|by eapply IH].
    rewrite List.Forall_forall in Hall. apply Hall. apply list_elem_of_In.
    eapply subseteq_drop. exact Hq.
Qed.

Module FixedSmall.
Import Fixed.

(** The round of a roster of four to seven players, written out. *)
Lemma generateDoublesMatches_small roster courts prev (rs : list nat) (us : list string)
    (t : nat) :
  4 <= length roster <= 7 ->
  let pm := participationOf t roster prev in
  let sorted := sortBy (totalOf pm) roster in
  let singles := sortBy (fun p => singlesPlayed (pm !! playerId p)) (drop 4 sorted) in
  let first := mkMatch (fst (popUuid us)) (take 4 sorted) 1 Left in
  generateDoublesMatches roster courts prev (mkWorld rs us t)
  = if (length roster <? 6) || (courts =? 1)
    then (Ok [first], mkWorld rs (snd (popUuid us)) t)
    else (Ok [first;
              mkMatch (fst (popUuid (snd (popUuid us))))
                      (take (length roster - 4) singles) 2 Left],
          mkWorld rs (snd (popUuid (snd (popUuid us)))) t).
Proof.
  intros Hlen pm sorted singles first. unfold generateDoublesMatches.
  unfold bind at 1. unfold dateNow. cbn [clock].
  fold pm. change (sortBy _ roster) with sorted.
  change (sortBy _ (drop 4 sorted)) with singles.
  destruct (length roster) as [|[|[|[|[|[|[|[|n]]]]]]]] eqn:Hn; try lia; simpl.
  - apply FixedDeterminism.pushMatch_eq.
  - apply FixedDeterminism.pushMatch_eq.
  - destruct (courts =? 1); [apply FixedDeterminism.pushMatch_eq|].
    unfold bind. rewrite FixedDeterminism.pushMatch_eq.
    by rewrite FixedDeterminism.pushMatch_eq.
  - destruct (courts =? 1); [apply FixedDeterminism.pushMatch_eq|].
    unfold bind. rewrite FixedDeterminism.pushMatch_eq.
    by rewrite FixedDeterminism.pushMatch_eq.
Qed.

Lemma generateDoublesMatches_large roster courts prev (w : World) :
  8 < length roster -> generateDoublesMatches roster courts prev w = (Ok [], w).
Proof.
  intros Hlen. unfold generateDoublesMatches. unfold bind, dateNow.
  generalize dependent (length roster). intros n Hlen.
  do 9 (destruct n as [|n]; [lia|]). done.
Qed.

(** The round of eight players: two matches on courts 1 and 2. *)
Lemma generateDoublesMatches_eight_shape roster courts prev (w : World) :
  length roster = 8 ->
  exists u1 c1 u2 c2 rs us,
    generateDoublesMatches roster courts prev w
    = (Ok [mkMatch u1 c1 1 Left; mkMatch u2 c2 2 Left], mkWorld rs us (clock w)).
Proof.
  intros H8.
  destruct (FixedEight.choosePairs_four roster (getPairings prev)
              (participationOf (clock w) roster prev) w H8)
    as (q1 & q2 & q3 & q4 & rs & Hch).
  unfold generateDoublesMatches. rewrite H8.
  unfold bind at 1. unfold dateNow. unfold bind at 1. rewrite Hch.
  destruct (arrangeCourts _ _ _ _ _ _) as [c1 c2].
  unfold bind. rewrite FixedDeterminism.pushMatch_eq, FixedDeterminism.pushMatch_eq.
  simpl. by eexists _, _, _, _, _, _.
Qed.
End FixedSmall.

(** X5.  With four to seven players the first court is a doubles match of the
    four players who have played least: nobody on it has played more than
    anybody left for the second court or sitting out. *)
Theorem small_roster_least_played_on_court_one
    (roster : list Player) (courts : nat) (prev : list Match) (w : World) :
  4 <= length roster <= 7 ->
  let pm := Fixed.participationOf (clock w) roster prev in
  exists m1 rest others w',
    Fixed.generateDoublesMatches roster courts prev w = (Ok (m1 :: rest), w')
    /\ court m1 = 1
    /\ length (players m1) = 4
    /\ players m1 ++ others ≡ₚ roster
    /\ (forall p q, p ∈ players m1 -> q ∈ others -> totalOf pm p <= totalOf pm q)
    /\ (forall q, q ∈ concat (map players rest) -> q ∈ others).
Proof.
  intros Hlen pm. destruct w as [rs us t]. cbn [clock] in pm.
  pose proof (FixedSmall.generateDoublesMatches_small roster courts prev rs us t Hlen) as Heq.
  cbv zeta in Heq. fold pm in Heq.
  set (sorted := sortBy (totalOf pm) roster) in *.
  assert (Hsl : length sorted = length roster) by apply sortBy_length.
  assert (Hfair : forall p q, p ∈ take 4 sorted -> q ∈ drop 4 sorted ->
                              totalOf pm p <= totalOf pm q).
  { intros p q. apply (sorted_take_drop (keyLe (totalOf pm))). apply sortBy_sorted. }
  assert (Hperm : take 4 sorted ++ drop 4 sorted ≡ₚ roster).
  { rewrite take_drop. apply sortBy_Permutation. }
  destruct ((length roster <? 6) || (courts =? 1)).
  - eexists _, [], (drop 4 sorted), _. split; [exact Heq|]. cbn [court players].
    repeat split; [rewrite length_take; lia|done|done|].
    intros q Hq. by apply elem_of_nil in Hq.
  - eexists _, [_], (drop 4 sorted), _. split; [exact Heq|]. cbn [court players].
    repeat split; [rewrite length_take; lia|done|done|].
    intros q Hq. simpl in Hq. rewrite app_nil_r in Hq.
    apply subseteq_take in Hq. by apply sortBy_elem_of in Hq.
Qed.

Lemma small_roster_least_played_on_court_one_witness :
  exists m1 rest others w',
    Fixed.generateDoublesMatches Examples.sixPlayers 2 [Examples.firstMatch]
      Examples.quietWorld = (Ok (m1 :: rest), w')
    /\ length (players m1) = 4
    /\ players m1 ++ others ≡ₚ Examples.sixPlayers.
Proof.
  destruct (small_roster_least_played_on_court_one Examples.sixPlayers 2
              [Examples.firstMatch] Examples.quietWorld)
    as (m1 & rest & others & w' & Heq & _ & Hl & Hp & _).
  - simpl. lia.
  - exists m1, rest, others, w'. split; [exact Heq|]. split; [exact Hl|exact Hp].
Defined.

(** X6.  With six or seven players and a court count other than one (zero and
    three included) everybody plays: a doubles match on court 1 and, on
    court 2, the remaining two or three players ordered by the singles
    matches they have played. *)
Theorem six_or_seven_players_all_play
    (roster : list Player) (courts : nat) (prev : list Match) (w : World) :
  length roster = 6 \/ length roster = 7 ->
  courts <> 1 ->
  let pm := Fixed.participationOf (clock w) roster prev in
  exists m1 m2 w',
    Fixed.generateDoublesMatches roster courts prev w = (Ok [m1; m2], w')
    /\ court m1 = 1 /\ court m2 = 2
    /\ length (players m1) = 4
    /\ length (players m2) = length roster - 4
    /\ players m1 ++ players m2 ≡ₚ roster
    /\ StronglySorted (keyLe (fun p => Fixed.singlesPlayed (pm !! playerId p))) (players m2).
Proof.
  intros Hlen Hc pm. destruct w as [rs us t]. cbn [clock] in pm.
  pose proof (FixedSmall.generateDoublesMatches_small roster courts prev rs us t
                ltac:(lia)) as Heq.
  cbv zeta in Heq. fold pm in Heq.
  set (sorted := sortBy (totalOf pm) roster) in *.
  set (singles := sortBy (fun p => Fixed.singlesPlayed (pm !! playerId p)) (drop 4 sorted)) in *.
  assert (Hsl : length sorted = length roster) by apply sortBy_length.
  assert (Hsg : length singles = length roster - 4).
  { unfold singles. rewrite sortBy_length, length_drop. lia. }
  replace ((length roster <? 6) || (courts =? 1)) with false in Heq.
  2:{ symmetry. apply orb_false_iff. split; [apply Nat.ltb_ge; lia|by apply Nat.eqb_neq]. }
  rewrite (take_ge singles) in Heq by lia.
  eexists _, _, _. split; [exact Heq|]. cbn [court players].
  repeat split; [rewrite length_take; lia|done| |apply sortBy_sorted].
  unfold singles. rewrite sortBy_Permutation, take_drop. apply sortBy_Permutation.
Qed.

Lemma six_or_seven_players_all_play_witness :
  exists m1 m2 w',
    Fixed.generateDoublesMatches Examples.sixPlayers 0 [Examples.firstMatch]
      Examples.quietWorld = (Ok [m1; m2], w')
    /\ length (players m2) = 2
    /\ players m1 ++ players m2 ≡ₚ Examples.sixPlayers.
Proof.
  destruct (six_or_seven_players_all_play Examples.sixPlayers 0
              [Examples.firstMatch] Examples.quietWorld)
    as (m1 & m2 & w' & Heq & _ & _ & _ & Hl & Hp & _).
  - left. reflexivity.
  - lia.
  - exists m1, m2, w'. split; [exact Heq|]. split; [exact Hl|exact Hp].
Defined.

(** X7.  A roster of more than eight players is accepted, but nobody is
    scheduled: the session holds no match, and neither a random number nor
    a UUID is drawn. *)
Theorem more_than_eight_players_get_no_match
    (roster : list Player) (courts : nat) (prev : list Match) (w : World) :
  8 < length roster ->
  Fixed.generateSession roster courts prev w = (Ok (mkSession roster courts []), w).
Proof.
  intros Hlen. unfold Fixed.generateSession.
  destruct (Nat.ltb_spec (length roster) 4); [lia|].
  unfold bind. by rewrite FixedSmall.generateDoublesMatches_large.
Qed.

Lemma more_than_eight_players_get_no_match_witness :
  Fixed.generateSession (Examples.eightPlayers ++ [Examples.P "i"]) 2 [] Examples.quietWorld
  = (Ok (mkSession (Examples.eightPlayers ++ [Examples.P "i"]) 2 []), Examples.quietWorld).
Proof.
  apply (more_than_eight_players_get_no_match (Examples.eightPlayers ++ [Examples.P "i"])).
  simpl. lia.
Defined.

(** The fixed-case [generateSession] on four players or more. *)
Lemma fixed_generateSession_total
    (roster : list Player) (courts : nat) (prev : list Match) (w : World) :
  4 <= length roster ->
  exists ms w',
    Fixed.generateSession roster courts prev w = (Ok (mkSession roster courts ms), w')
    /\ length ms <= 2
    /\ map court ms = seq 1 (length ms)
    /\ Forall (fun m => side m = Left) ms
    /\ clock w' = clock w.
Proof.
  intros Hlen. unfold Fixed.generateSession.
  destruct (Nat.ltb_spec (length roster) 4); [lia|]. unfold bind.
  destruct (decide (length roster <= 7)) as [Hs|Hs];
    [|destruct (decide (length roster = 8)) as [H8|H8]].
  - destruct w as [rs us t].
    rewrite (FixedSmall.generateDoublesMatches_small roster courts prev rs us t) by lia.
    destruct (_ || _); eexists _, _; (split; [reflexivity|]); simpl;
      repeat split; try lia; repeat constructor.
  - destruct (FixedSmall.generateDoublesMatches_eight_shape roster courts prev w H8)
      as (u1 & c1 & u2 & c2 & rs & us & ->).
    eexists _, _. split; [reflexivity|]. simpl.
    repeat split; try lia; repeat constructor.
  - rewrite FixedSmall.generateDoublesMatches_large by lia.
    eexists _, _. split; [reflexivity|]. simpl. repeat split; try lia. constructor.
Qed.

(** X8.  With four players or more the fixed-case [generateSession] always
    returns, whatever the history holds: at most two matches, on courts
    numbered from 1, all on the left side. *)
Theorem fixed_generateSession_always_returns
    (roster : list Player) (courts : nat) (prev : list Match) (w : World) :
  4 <= length roster ->
  exists ms w',
    Fixed.generateSession roster courts prev w = (Ok (mkSession roster courts ms), w')
    /\ length ms <= 2
    /\ map court ms = seq 1 (length ms)
    /\ Forall (fun m => side m = Left) ms
    /\ clock w' = clock w.
Proof. apply fixed_generateSession_total. Qed.

Lemma fixed_generateSession_always_returns_witness :
  exists ms w',
    Fixed.generateSession Examples.eightPlayers 2 [Examples.threeMatch] Examples.quietWorld
    = (Ok (mkSession Examples.eightPlayers 2 ms), w')
    /\ length ms <= 2.
Proof.
  destruct (fixed_generateSession_always_returns Examples.eightPlayers 2
              [Examples.threeMatch] Examples.quietWorld)
    as (ms & w' & Heq & Hl & _).
  - simpl. lia.
  - exists ms, w'. split; [exact Heq|exact Hl].
Defined.


(** ** The pair score, for ids without hyphen *)

Module ScoreCount.
Import Fixed.

Lemma alter_total (f : PlayerParticipation -> PlayerParticipation) (k' k : string)
    (pm : gmap string PlayerParticipation) :
  (forall x, doublesMatchesPlayed (f x) = doublesMatchesPlayed x
             /\ singlesMatchesPlayed (f x) = singlesMatchesPlayed x) ->
  totalPlayed (alter f k' pm !! k) = totalPlayed (pm !! k).
Proof.
  intros Hf. destruct (decide (k' = k)) as [->|Hne].
  - rewrite lookup_alter_eq. destruct (pm !! k) as [x|]; [|done]. simpl.
    destruct (Hf x) as [-> ->]. done.
  - by rewrite lookup_alter_ne.
Qed.

Lemma linkPartners_total ka kb x y (pm : gmap string PlayerParticipation) (k : string) :
  totalPlayed (linkPartners ka kb x y pm !! k) = totalPlayed (pm !! k).
Proof.
  unfold linkPartners. destruct x, y; try done. by rewrite !alter_total.
Qed.

Lemma linkOpponents_total ka kb x y (pm : gmap string PlayerParticipation) (k : string) :
  totalPlayed (linkOpponents ka kb x y pm !! k) = totalPlayed (pm !! k).
Proof.
  unfold linkOpponents. destruct x, y; try done. by rewrite !alter_total.
Qed.

Lemma recordTeams_total (pm : gmap string PlayerParticipation) (m : Match) (k : string) :
  totalPlayed (recordTeams pm m !! k) = totalPlayed (pm !! k).
Proof.
  unfold recordTeams.
  destruct (players m) as [|a [|b [|c [|d [|? ?]]]]]; try done.
  cbn [foldl]. cbv beta iota.
  by rewrite !linkOpponents_total, !linkPartners_total.
Qed.

Lemma recordTeams_domain (pm : gmap string PlayerParticipation) (m : Match) (k : string) :
  is_Some (recordTeams pm m !! k) <-> is_Some (pm !! k).
Proof.
  assert (Ha : forall f k' (pm0 : gmap string PlayerParticipation),
             is_Some (alter f k' pm0 !! k) <-> is_Some (pm0 !! k)).
  { intros f k' pm0. destruct (decide (k' = k)) as [->|Hne].
    - rewrite lookup_alter_eq. by rewrite fmap_is_Some.
    - by rewrite lookup_alter_ne. }
  assert (Hp : forall ka kb x y (pm0 : gmap string PlayerParticipation),
             is_Some (linkPartners ka kb x y pm0 !! k) <-> is_Some (pm0 !! k)).
  { intros ka kb x y pm0. unfold linkPartners. destruct x, y; try done. by rewrite !Ha. }
  assert (Ho : forall ka kb x y (pm0 : gmap string PlayerParticipation),
             is_Some (linkOpponents ka kb x y pm0 !! k) <-> is_Some (pm0 !! k)).
  { intros ka kb x y pm0. unfold linkOpponents. destruct x, y; try done. by rewrite !Ha. }
  unfold recordTeams.
  destruct (players m) as [|a [|b [|c [|d [|? ?]]]]]; try done.
  cbn [foldl]. cbv beta iota. by rewrite !Ho, !Hp.
Qed.

(** One more match for each of its players that the map holds. *)
Lemma recordMatch_total (t : nat) (pm : gmap string PlayerParticipation) (m : Match)
    (k : string) :
  NoDup (ids (players m)) ->
  totalPlayed (recordMatch t pm m !! k)
  = totalPlayed (pm !! k)
    + (if decide (k ∈ ids (players m) /\ is_Some (pm !! k)) then 1 else 0).
Proof.
  intros Hnd. unfold recordMatch. rewrite RecordFacts.recordCounts_lookup by done.
  pose proof (recordTeams_total pm m k) as Ht.
  pose proof (recordTeams_domain pm m k) as Hd.
  destruct (decide (k ∈ ids (players m))) as [Hin|Hout].
  - destruct (recordTeams pm m !! k) as [x|] eqn:Hx.
    + rewrite decide_True by (split; [done|by apply Hd]).
      rewrite <- Ht. simpl. destruct (length (players m) =? 4); lia.
    + rewrite decide_False.
      * rewrite <- Ht. simpl. lia.
      * intros [_ Hs]. apply Hd in Hs. by destruct Hs.
  - rewrite decide_False by tauto. lia.
Qed.

Lemma recordMatch_domain (t : nat) (pm : gmap string PlayerParticipation) (m : Match)
    (k : string) :
  is_Some (recordMatch t pm m !! k) <-> is_Some (pm !! k).
Proof.
  unfold recordMatch, recordCounts. rewrite <- (recordTeams_domain pm m k).
  generalize (recordTeams pm m). generalize (length (players m) =? 4).
  intros flag. induction (players m) as [|p ps IH]; intros pm0; cbn [foldl]; [done|].
  rewrite IH. destruct (decide (playerId p = k)) as [->|Hne].
  - rewrite lookup_alter_eq. by rewrite fmap_is_Some.
  - by rewrite lookup_alter_ne.
Qed.

Lemma initial_domain (roster : list Player) (k : string) :
  is_Some (initialParticipationMap roster !! k) <-> k ∈ ids roster.
Proof.
  unfold initialParticipationMap.
  assert (H : forall (pm : gmap string PlayerParticipation),
             is_Some (foldl (fun map p => <[playerId p := newParticipation p]> map) pm roster
                      !! k)
             <-> is_Some (pm !! k) \/ k ∈ ids roster).
  { induction roster as [|p roster IH]; intros pm; cbn [foldl].
    - unfold ids. simpl. rewrite elem_of_nil. tauto.
    - rewrite IH. change (ids (p :: roster)) with (playerId p :: ids roster).
      rewrite elem_of_cons. destruct (decide (playerId p = k)) as [->|Hne].
      + rewrite lookup_insert_eq. split; [intros _; right; by left|intros _; left; done].
      + rewrite lookup_insert_ne by done. split; [tauto|].
        intros [?|[?|?]]; [tauto|congruence|tauto]. }
  rewrite H. rewrite lookup_empty. split; [intros [[? [=]]|?]; done|by right].
Qed.

Lemma initial_total (roster : list Player) (k : string) :
  totalPlayed (initialParticipationMap roster !! k) = 0.
Proof.
  unfold initialParticipationMap.
  assert (H : forall (pm : gmap string PlayerParticipation),
             totalPlayed (pm !! k) = 0 ->
             totalPlayed (foldl (fun map p => <[playerId p := newParticipation p]> map)
                                pm roster !! k) = 0).
  { induction roster as [|p roster IH]; intros pm Hpm; cbn [foldl]; [done|].
    apply IH. destruct (decide (playerId p = k)) as [->|Hne].
    - by rewrite lookup_insert_eq.
    - by rewrite lookup_insert_ne. }
  by apply H.
Qed.

(** The total of a player is the number of recorded matches it is listed
    in, when it is on the roster. *)
Lemma participationOf_total (t : nat) (roster : list Player) (history : list Match)
    (k : string) :
  Forall (fun m => NoDup (ids (players m))) history ->
  (is_Some (participationOf t roster history !! k) <-> k ∈ ids roster)
  /\ totalPlayed (participationOf t roster history !! k)
     = if decide (k ∈ ids roster) then matchesOf history k else 0.
Proof.
  induction history as [|m history IH] using rev_ind; intros Hnd.
  - unfold participationOf. cbn [foldl]. split; [apply initial_domain|].
    rewrite initial_total. by destruct (decide _).
  - apply Forall_app in Hnd as [Hnd Hm]. rewrite Forall_singleton in Hm.
    destruct (IH Hnd) as [Hdom Htot].
    unfold participationOf in *. rewrite foldl_app. cbn [foldl].
    split; [by rewrite recordMatch_domain|].
    rewrite recordMatch_total by done. rewrite Htot.
    unfold matchesOf. rewrite filter_app, length_app.
    destruct (decide (k ∈ ids roster)) as [Hr|Hr].
    + destruct (decide (k ∈ ids (players m))) as [Hin|Hout].
      * rewrite decide_True by (split; [done|by apply Hdom]).
        rewrite filter_cons_True by done. simpl. lia.
      * rewrite decide_False by tauto. rewrite filter_cons_False by done. simpl. lia.
    + rewrite decide_False; [done|]. intros [_ Hs]. by apply Hdom in Hs.
Qed.

(** The frequency read for two different ids is the number of doubles
    matches that list both. *)
Lemma readFrequency_sharedDoubles (history : list Match) (x y : string) :
  Forall (fun m => NoDup (ids (players m))) history ->
  Forall (fun s => hyphenFree s = true) (idsOf history) ->
  hyphenFree x = true -> hyphenFree y = true -> x <> y ->
  readFrequency (getPairings history) x y = sharedDoubles history x y.
Proof.
  intros Hnd Hh Hx Hy Hxy. rewrite ScoreFacts.readFrequency_history by done.
  clear Hh. unfold sharedDoubles.
  induction Hnd as [|m history Hm Hnd IH]; [done|].
  cbn [map concat]. rewrite filter_app, length_app, IH.
  destruct (decide (length (players m) = 4)) as [H4|H4].
  - rewrite RecordFacts.doublesPairs_count by done.
    destruct (decide (x ∈ ids (players m) /\ y ∈ ids (players m))) as [Hin|Hout].
    + rewrite decide_True by tauto. rewrite filter_cons_True by tauto. simpl. lia.
    + rewrite decide_False by tauto. rewrite filter_cons_False by tauto. simpl. lia.
  - rewrite ScoreFacts.doublesPairs_other by done.
    rewrite filter_cons_False by tauto. done.
Qed.
End ScoreCount.

(** X4.  For ids that hold no hyphen, and matches that list nobody twice, the
    score of two different players is ten times the number of recorded
    doubles matches that list both, plus, for each of the two that is on the
    roster, the number of recorded matches that list it. *)
Theorem calculatePairScore_counts_shared_matches
    (a b : Player) (roster : list Player) (history : list Match) (t : nat) :
  Forall (fun m => NoDup (ids (players m))) history ->
  Forall (fun s => hyphenFree s = true) (idsOf history) ->
  hyphenFree (playerId a) = true ->
  hyphenFree (playerId b) = true ->
  playerId a <> playerId b ->
  Fixed.calculatePairScore a b (Fixed.getPairings history)
    (Fixed.participationOf t roster history)
  = 10 * sharedDoubles history (playerId a) (playerId b)
    + (if decide (playerId a ∈ ids roster) then matchesOf history (playerId a) else 0)
    + (if decide (playerId b ∈ ids roster) then matchesOf history (playerId b) else 0).
Proof.
  intros Hnd Hh Ha Hb Hab. unfold Fixed.calculatePairScore.
  change (match List.find _ (Fixed.getPairings history) with
          | Some p => Fixed.count p | None => 0 end)
    with (readFrequency (Fixed.getPairings history) (playerId a) (playerId b)).
  rewrite ScoreCount.readFrequency_sharedDoubles by done.
  destruct (ScoreCount.participationOf_total t roster history (playerId a) Hnd) as [_ ->].
  destruct (ScoreCount.participationOf_total t roster history (playerId b) Hnd) as [_ ->].
  lia.
Qed.

Lemma calculatePairScore_counts_shared_matches_witness :
  Fixed.calculatePairScore (Examples.P "a") (Examples.P "b")
    (Fixed.getPairings [Examples.firstMatch; Examples.singlesMatch])
    (Fixed.participationOf 0 Examples.sixPlayers [Examples.firstMatch; Examples.singlesMatch])
  = 10 * 1 + 2 + 2.
Proof.
  rewrite (calculatePairScore_counts_shared_matches (Examples.P "a") (Examples.P "b")
             Examples.sixPlayers [Examples.firstMatch; Examples.singlesMatch] 0).
  - reflexivity.
  - repeat constructor; apply (bool_decide_unpack _); vm_compute; exact I.
  - repeat constructor.
  - reflexivity.
  - reflexivity.
  - discriminate.
Defined.


(** * Further properties of the general generator *)

(** ** Selection of the least-played players *)

Lemma sorted_take {A : Type} (R : A -> A -> Prop) (l : list A) (n : nat) :
  StronglySorted R l -> StronglySorted R (take n l).
Proof.
  intros Hs. revert n. induction Hs as [|x l Hs IH Hall]; intros n.
  - rewrite take_nil. constructor.
  - destruct n as [|n]; simpl; constructor; [apply IH|].
    rewrite List.Forall_forall in *. intros y Hy. apply Hall.
    apply list_elem_of_In. apply list_elem_of_In in Hy. by eapply subseteq_take.
Qed.

(** X9.  [findLeastPlayedPlayers] returns [count] players, or all of them when
    the histories hold fewer: nobody chosen has played more games than
    anybody left out, the chosen are listed by ascending games, and players
    with equal games keep the order in which they entered the histories. *)
Theorem findLeastPlayedPlayers_fair (h : General.Histories) (count : nat) :
  exists chosen rest,
    General.findLeastPlayedPlayers h count = map General.player chosen
    /\ length chosen = Nat.min count (length h)
    /\ chosen ++ rest ≡ₚ map snd h
    /\ StronglySorted (keyLe General.gamesPlayed) chosen
    /\ (forall x y, x ∈ chosen -> y ∈ rest ->
          General.gamesPlayed x <= General.gamesPlayed y)
    /\ (forall n, filter (fun x => General.gamesPlayed x = n) (chosen ++ rest)
                  = filter (fun x => General.gamesPlayed x = n) (map snd h)).
Proof.
  set (sorted := sortBy General.gamesPlayed (map snd h)).
  exists (take count sorted), (drop count sorted).
  assert (Hs : StronglySorted (keyLe General.gamesPlayed) sorted) by apply sortBy_sorted.
  split; [done|]. split; [|split; [|split; [|split]]].
  - unfold sorted. by rewrite length_take, sortBy_length, length_map.
  - rewrite take_drop. apply sortBy_Permutation.
  - by apply sorted_take.
  - intros x y. by apply (sorted_take_drop (keyLe General.gamesPlayed)).
  - intros n. rewrite take_drop. apply sortBy_stable.
Qed.

(** ** The search for a pairing *)

Module SearchFacts.
Import General.

(** One iteration of the search loop. *)
Lemma searchLoop_S n ps (h : Histories) best bound :
  searchLoop (S n) ps h best bound
  = (let* shuffled := shuffleLoop (length ps - 1) ps in
     match sharedPartnerships h shuffled with
     | Throw msg => throw msg
     | Ok shared =>
         if match bound with
            | None => true
            | Some b => shared <? b
            end
         then
           if shared =? 0 then ret shuffled
           else searchLoop n ps h shuffled (Some shared)
         else searchLoop n ps h best bound
     end).
Proof. reflexivity. Qed.

Lemma sharedPartnerships_perm (h : Histories) (l l' : list Player) :
  Nat.even (length l) = true -> l' ≡ₚ l ->
  exists n, sharedPartnerships h l' = Ok n.
Proof. intros Hev Hp. apply GeneralFacts.sharedPartnerships_even. by rewrite Hp. Qed.

Lemma shuffleLoop_run {A : Type} (i : nat) (arr : list A) (w : World) :
  exists arr',
    shuffleLoop i arr w = (Ok arr', mkWorld (drop i (rands w)) (uuids w) (clock w))
    /\ arr' ≡ₚ arr.
Proof.
  destruct (shuffleLoop_spec i arr w) as (arr' & rs & Heq & Hp).
  pose proof (shuffleLoop_tape i arr w) as Ht. rewrite Heq in Ht. simpl in Ht.
  exists arr'. by rewrite Heq, Ht.
Qed.

(** Once an arrangement with [b] shared partnerships is held, the loop ends
    with one that has at most [b], after at most [n] more shuffles. *)
Lemma searchLoop_refines n ps (h : Histories) best b (w : World) :
  Nat.even (length ps) = true ->
  best ≡ₚ ps ->
  sharedPartnerships h best = Ok b ->
  exists res k s,
    k <= n
    /\ searchLoop n ps h best (Some b) w
       = (Ok res, mkWorld (drop (k * (length ps - 1)) (rands w)) (uuids w) (clock w))
    /\ res ≡ₚ ps
    /\ sharedPartnerships h res = Ok s
    /\ s <= b.
Proof.
  intros Hev. revert best b w.
  induction n as [|n IH]; intros best b w Hbest Hb.
  - exists best, 0, b. simpl. rewrite drop_0. destruct w. by repeat split.
  - rewrite searchLoop_S. unfold bind.
    destruct (shuffleLoop_run (length ps - 1) ps w) as (sh & -> & Hp).
    destruct (sharedPartnerships_perm h ps sh Hev Hp) as [s Hs]. rewrite Hs.
    destruct (Nat.ltb_spec s b) as [Hlt|Hge].
    + destruct (Nat.eqb_spec s 0) as [->|Hne].
      * exists sh, 1, 0. simpl. rewrite Nat.add_0_r. repeat split; try done; lia.
      * destruct (IH sh s (mkWorld (drop (length ps - 1) (rands w)) (uuids w) (clock w))
                    Hp Hs) as (res & k & s' & Hk & -> & Hres & Hs' & Hle).
        exists res, (S k), s'. simpl. rewrite drop_drop.
        replace (length ps - 1 + k * (length ps - 1))
          with ((length ps - 1) + k * (length ps - 1)) by done.
        repeat split; try done; lia.
    + destruct (IH best b (mkWorld (drop (length ps - 1) (rands w)) (uuids w) (clock w))
                  Hbest Hb) as (res & k & s' & Hk & -> & Hres & Hs' & Hle).
      exists res, (S k), s'. simpl. rewrite drop_drop.
      repeat split; try done; lia.
Qed.
End SearchFacts.

(** X10.  On an even number of players [findOptimalPairing] returns a rearrangement
    of them after one to a hundred shuffles.  The arrangement returned has no
    more repeated partnerships than the first shuffle; when the first shuffle
    has none it is returned at once.  The order in which the players were
    given is never kept as such. *)
Theorem findOptimalPairing_improves_on_first_shuffle
    (ps : list Player) (h : General.Histories) (w : World) :
  Nat.even (length ps) = true ->
  exists first res k s1 s,
    shuffleLoop (length ps - 1) ps w
    = (Ok first, mkWorld (drop (length ps - 1) (rands w)) (uuids w) (clock w))
    /\ 1 <= k <= 100
    /\ General.findOptimalPairing ps h w
       = (Ok res, mkWorld (drop (k * (length ps - 1)) (rands w)) (uuids w) (clock w))
    /\ res ≡ₚ ps
    /\ General.sharedPartnerships h first = Ok s1
    /\ General.sharedPartnerships h res = Ok s
    /\ s <= s1
    /\ (s1 = 0 -> res = first /\ k = 1).
Proof.
  intros Hev. unfold General.findOptimalPairing.
  rewrite (SearchFacts.searchLoop_S 99). unfold bind.
  destruct (SearchFacts.shuffleLoop_run (length ps - 1) ps w) as (sh & Hsh & Hp).
  rewrite Hsh.
  destruct (SearchFacts.sharedPartnerships_perm h ps sh Hev Hp) as [s1 Hs1]. rewrite Hs1.
  destruct (Nat.eqb_spec s1 0) as [->|Hne].
  - exists sh, sh, 1, 0, 0. simpl. rewrite Nat.add_0_r. repeat split; try done; lia.
  - destruct (SearchFacts.searchLoop_refines 99 ps h sh s1
                (mkWorld (drop (length ps - 1) (rands w)) (uuids w) (clock w)) Hev Hp Hs1)
      as (res & k & s & Hk & -> & Hres & Hs & Hle).
    exists sh, res, (S k), s1, s. simpl. rewrite drop_drop.
    repeat split; try done; lia.
Qed.

Lemma findOptimalPairing_improves_on_first_shuffle_witness :
  exists res w',
    General.findOptimalPairing Examples.fourPlayers
      (recorded Examples.firstMatch (freshHistories Examples.fourPlayers))
      Examples.quietWorld = (Ok res, w')
    /\ res ≡ₚ Examples.fourPlayers.
Proof.
  destruct (findOptimalPairing_improves_on_first_shuffle Examples.fourPlayers
              (recorded Examples.firstMatch (freshHistories Examples.fourPlayers))
              Examples.quietWorld)
    as (first & res & k & s1 & s & _ & _ & Heq & Hp & _).
  - reflexivity.
  - eexists _, _. split; [exact Heq|exact Hp].
Defined.

(** X11.  The sizes the court loop never produces.  Fewer than two players are
    returned as they are, without a draw; an odd number of three or more
    players is shuffled once and then raises a [TypeError], when the count
    of the second half reads past the end of the array. *)
Theorem findOptimalPairing_edge_sizes
    (ps : list Player) (h : General.Histories) (w : World) :
  (length ps <= 1 -> General.findOptimalPairing ps h w = (Ok ps, w))
  /\ (3 <= length ps -> Nat.even (length ps) = false ->
      General.findOptimalPairing ps h w
      = (Throw typeError,
         mkWorld (drop (length ps - 1) (rands w)) (uuids w) (clock w))).
Proof.
  unfold General.findOptimalPairing.
  rewrite (SearchFacts.searchLoop_S 99). unfold bind. split.
  - intros Hlen. destruct ps as [|p [|q ps]]; simpl in Hlen; [| |lia].
    + simpl. by destruct w.
    + simpl. by destruct w.
  - intros Hlen Hodd.
    destruct (SearchFacts.shuffleLoop_run (length ps - 1) ps w) as (sh & -> & Hp).
    assert (Hl : length sh = length ps) by (by rewrite Hp).
    unfold General.sharedPartnerships. rewrite Hl, Hodd.
    destruct (Nat.leb_spec 3 (length ps)); [done|lia].
Qed.

Lemma findOptimalPairing_edge_sizes_witness :
  General.findOptimalPairing (map Examples.P ["a"; "b"; "c"]) [] Examples.quietWorld
  = (Throw typeError, mkWorld [3; 2; 1] ["u1"; "u2"] 0).
Proof.
  apply (findOptimalPairing_edge_sizes (map Examples.P ["a"; "b"; "c"]) [] Examples.quietWorld).
  - simpl. lia.
  - reflexivity.
Defined.


(** ** Recording a match in the histories *)

Module UpdateFacts.
Import General GeneralFacts.

Lemma mapAlter_absent {V : Type} (f : V -> V) (k : string) (m : list (string * V)) :
  mapGet k m = None -> mapAlter f k m = m.
Proof.
  induction m as [|[k' v] m IH]; simpl; [done|].
  destruct (String.eqb k k'); [done|]. intros Hm. by rewrite IH.
Qed.

Lemma gamesOf_mapAlter (f : PlayerHistory -> PlayerHistory) (k' k : string) (h : Histories) :
  (forall x, gamesPlayed (f x) = gamesPlayed x) ->
  gamesOf (mapAlter f k' h) k = gamesOf h k.
Proof.
  intros Hf. unfold gamesOf. destruct (decide (k' = k)) as [->|Hne].
  - rewrite mapGet_mapAlter_eq. destruct (mapGet k h); simpl; [by rewrite Hf|done].
  - by rewrite mapGet_mapAlter_ne.
Qed.

(** The first loop alone already counts the game. *)
Lemma played_gamesOf (m : Match) (h : Histories) (k : string) :
  gamesOf (foldl (fun hs p => mapAlter played (playerId p) hs) h (players m)) k
  = (fun n => n + timesIn k [m]) <$> gamesOf h k.
Proof.
  rewrite <- recorded_gamesOf. unfold recorded, gamesOf.
  symmetry. apply mapGet_project. by apply linkAll_project.
Qed.

(** On an odd number of players the second loop stops at the first player
    the histories hold. *)
Lemma linkPlayers_odd ps i rest (h : Histories) :
  Nat.even (length ps) = false ->
  (exists p, p ∈ rest /\ is_Some (mapGet (playerId p) h)) ->
  exists h',
    linkPlayers ps i rest h = (Throw typeError, h')
    /\ forall k, gamesOf h' k = gamesOf h k.
Proof.
  intros Hodd. revert i. induction rest as [|p rest IH]; intros i (q & Hq & Hs).
  - by apply elem_of_nil in Hq.
  - cbn [linkPlayers]. unfold bind, linkPlayer. rewrite Hodd.
    destruct (mapGet (playerId p) h) as [x|] eqn:Hp.
    + destruct (i <=? length ps / 2); eexists; (split; [reflexivity|]); [|done].
      intros k. by apply gamesOf_mapAlter.
    + apply IH. exists q. split; [|done].
      apply elem_of_cons in Hq as [->|Hq]; [|done].
      rewrite Hp in Hs. by destruct Hs.
Qed.

Lemma linkPlayers_unknown ps i rest (h : Histories) :
  (forall p, p ∈ rest -> mapGet (playerId p) h = None) ->
  linkPlayers ps i rest h = (Ok tt, h).
Proof.
  revert i. induction rest as [|p rest IH]; intros i Hnone; [done|].
  cbn [linkPlayers]. unfold bind, linkPlayer.
  rewrite (Hnone p) by (by left). apply IH. intros q Hq. apply Hnone. by right.
Qed.

Lemma played_unknown (ps : list Player) (h : Histories) :
  (forall p, p ∈ ps -> mapGet (playerId p) h = None) ->
  foldl (fun hs p => mapAlter played (playerId p) hs) h ps = h.
Proof.
  induction ps as [|p ps IH]; intros Hnone; cbn [foldl]; [done|].
  rewrite mapAlter_absent by (apply Hnone; by left).
  apply IH. intros q Hq. apply Hnone. by right.
Qed.

(** *** Who is on which side *)

Lemma elem_of_delete {A : Type} (l : list A) (i : nat) (x : A) :
  x ∈ delete i l <-> exists j, j <> i /\ l !! j = Some x.
Proof.
  revert i. induction l as [|y l IH]; intros i.
  - simpl. split; [by intros ?%elem_of_nil|by intros (j & _ & ?)].
  - destruct i as [|i]; simpl.
    + split.
      * intros (j & Hj)%list_elem_of_lookup. exists (S j). by split.
      * intros ([|j] & Hne & Hj); [done|]. by eapply list_elem_of_lookup_2.
    + rewrite elem_of_cons, IH. split.
      * intros [->|(j & Hne & Hj)]; [by exists 0|]. exists (S j). split; [lia|done].
      * intros ([|j] & Hne & Hj); simpl in Hj; [left; congruence|].
        right. exists j. split; [lia|done].
Qed.

Lemma elem_of_teamOf (ps : list Player) (i : nat) (q : Player) :
  q ∈ teamOf ps i <-> exists j, j <> i /\ ps !! j = Some q /\ sameSide ps i j.
Proof.
  unfold teamOf, sameSide. set (half := length ps / 2).
  destruct (Nat.ltb_spec i half) as [Hi|Hi]; rewrite elem_of_delete.
  - split.
    + intros (j & Hne & Hj). apply lookup_take_Some in Hj as [Hj Hlt].
      exists j. split; [done|]. split; [done|]. symmetry. by apply Nat.ltb_lt.
    + intros (j & Hne & Hj & Hside). symmetry in Hside. apply Nat.ltb_lt in Hside.
      exists j. split; [done|]. by rewrite lookup_take_lt.
  - split.
    + intros (j & Hne & Hj). rewrite lookup_drop in Hj.
      exists (half + j). split; [lia|]. split; [done|]. symmetry. apply Nat.ltb_ge. lia.
    + intros (j & Hne & Hj & Hside). symmetry in Hside. apply Nat.ltb_ge in Hside.
      exists (j - half). split; [lia|]. rewrite lookup_drop.
      by replace (half + (j - half)) with j by lia.
Qed.

Lemma elem_of_opponentsOf (ps : list Player) (i : nat) (q : Player) :
  q ∈ opponentsOf ps i <-> exists j, ps !! j = Some q /\ ~ sameSide ps i j.
Proof.
  unfold opponentsOf, sameSide. set (half := length ps / 2).
  destruct (Nat.ltb_spec i half) as [Hi|Hi].
  - split.
    + intros (j & Hj)%list_elem_of_lookup. rewrite lookup_drop in Hj.
      exists (half + j). split; [done|]. intros Hs. symmetry in Hs.
      apply Nat.ltb_lt in Hs. lia.
    + intros (j & Hj & Hside). apply list_elem_of_lookup. exists (j - half).
      rewrite lookup_drop. destruct (Nat.ltb_spec j half); [done|].
      by replace (half + (j - half)) with j by lia.
  - split.
    + intros (j & Hj)%list_elem_of_lookup. apply lookup_take_Some in Hj as [Hj Hlt].
      exists j. split; [done|]. intros Hs. symmetry in Hs. apply Nat.ltb_ge in Hs. lia.
    + intros (j & Hj & Hside). apply list_elem_of_lookup. exists j.
      destruct (Nat.ltb_spec j half); [|done]. by rewrite lookup_take_lt.
Qed.

Section Sides.
Variable ps : list Player.
Hypothesis distinct : NoDup (ids ps).

Lemma index_inj (i j : nat) (p q : Player) :
  ps !! i = Some p -> ps !! j = Some q -> playerId p = playerId q -> i = j.
Proof.
  intros Hi Hj Heq. eapply (NoDup_lookup (ids ps)); [done| |].
  - unfold ids. rewrite list_lookup_fmap, Hi. reflexivity.
  - unfold ids. rewrite list_lookup_fmap, Hj. simpl. by rewrite Heq.
Qed.

Lemma id_in_teamOf (i j : nat) (q : Player) :
  ps !! j = Some q ->
  playerId q ∈ ids (teamOf ps i) <-> j <> i /\ sameSide ps i j.
Proof.
  intros Hj. unfold ids. rewrite list_elem_of_fmap. split.
  - intros (q' & Heq & (j' & Hne & Hj' & Hside)%elem_of_teamOf).
    assert (j = j') as -> by (by eapply index_inj). done.
  - intros [Hne Hside]. exists q. split; [done|]. apply elem_of_teamOf. by exists j.
Qed.

Lemma id_in_opponentsOf (i j : nat) (q : Player) :
  ps !! j = Some q ->
  playerId q ∈ ids (opponentsOf ps i) <-> ~ sameSide ps i j.
Proof.
  intros Hj. unfold ids. rewrite list_elem_of_fmap. split.
  - intros (q' & Heq & (j' & Hj' & Hside)%elem_of_opponentsOf).
    assert (j = j') as -> by (by eapply index_inj). done.
  - intros Hside. exists q. split; [done|]. apply elem_of_opponentsOf. by exists j.
Qed.

Lemma outsider_not_in_teamOf (i : nat) (k : string) :
  k ∉ ids ps -> (k ∉ ids (teamOf ps i)) /\ (k ∉ ids (opponentsOf ps i)).
Proof.
  intros Hk. unfold ids in *. rewrite !list_elem_of_fmap. split.
  - intros (q & -> & (j & _ & Hj & _)%elem_of_teamOf). apply Hk.
    apply list_elem_of_fmap. exists q. split; [done|]. by eapply list_elem_of_lookup_2.
  - intros (q & -> & (j & Hj & _)%elem_of_opponentsOf). apply Hk.
    apply list_elem_of_fmap. exists q. split; [done|]. by eapply list_elem_of_lookup_2.
Qed.
End Sides.

Lemma sameSide_sym ps i j : sameSide ps i j <-> sameSide ps j i.
Proof. unfold sameSide. split; congruence. Qed.

(** The history under a key once the match is recorded: changed for the
    players of the match, kept for the others. *)
Lemma recorded_cases (m : Match) (h : Histories) (k : string) (x' : PlayerHistory) :
  NoDup (ids (players m)) ->
  mapGet k (recorded m h) = Some x' ->
  exists x,
    mapGet k h = Some x
    /\ (((k ∉ ids (players m)) /\ x' = x)
        \/ exists i p, players m !! i = Some p /\ playerId p = k
                       /\ x' = linkEffect (players m) i (played x)).
Proof.
  intros Hnd Hx'. destruct (decide (k ∈ ids (players m))) as [Hin|Hout].
  - unfold ids in Hin. apply list_elem_of_fmap in Hin as (p & -> & Hp).
    apply list_elem_of_lookup in Hp as [i Hi].
    rewrite (HistoryFacts.recorded_lookup m h i p Hnd Hi) in Hx'.
    apply fmap_Some in Hx' as (x & Hx & ->).
    exists x. split; [done|]. right. by exists i, p.
  - rewrite HistoryFacts.recorded_untouched in Hx' by done.
    exists x'. split; [done|]. by left.
Qed.

Lemma recorded_symmetric (m : Match) (h : Histories) :
  NoDup (ids (players m)) -> symmetric h -> symmetric (recorded m h).
Proof.
  intros Hnd Hsym k1 k2 h1 h2 H1 H2.
  destruct (recorded_cases m h k1 h1 Hnd H1) as (x1 & Hx1 & C1).
  destruct (recorded_cases m h k2 h2 Hnd H2) as (x2 & Hx2 & C2).
  destruct (Hsym k1 k2 x1 x2 Hx1 Hx2) as [Hpa Hop].
  destruct C1 as [[Hout1 ->]|(i & p & Hi & <- & ->)];
    destruct C2 as [[Hout2 ->]|(j & q & Hj & <- & ->)];
    unfold linkEffect, addOpponents, addPartners, played; cbn [partners opponents].
  - done.
  - destruct (outsider_not_in_teamOf (players m) j k1 Hout1) as [Ht Ho].
    rewrite !elem_of_union, !elem_of_list_to_set. tauto.
  - destruct (outsider_not_in_teamOf (players m) i k2 Hout2) as [Ht Ho].
    rewrite !elem_of_union, !elem_of_list_to_set. tauto.
  - rewrite !elem_of_union, !elem_of_list_to_set.
    rewrite (id_in_teamOf (players m) Hnd i j q Hj).
    rewrite (id_in_teamOf (players m) Hnd j i p Hi).
    rewrite (id_in_opponentsOf (players m) Hnd i j q Hj).
    rewrite (id_in_opponentsOf (players m) Hnd j i p Hi).
    rewrite (sameSide_sym (players m) j i). split; [|tauto].
    split; (intros [[? ?]|?]; [left; split; [congruence|done]|right; tauto]).
Qed.
End UpdateFacts.

(** X12.  A match none of whose players is in the histories is ignored, whatever
    its size. *)
Theorem updatePlayerHistories_ignores_unknown_players
    (m : Match) (h : General.Histories) :
  (forall p, p ∈ players m -> mapGet (playerId p) h = None) ->
  General.updatePlayerHistories m h = (Ok tt, h).
Proof.
  intros Hnone. unfold General.updatePlayerHistories, bind.
  rewrite UpdateFacts.played_unknown by done.
  by apply UpdateFacts.linkPlayers_unknown.
Qed.

Lemma updatePlayerHistories_ignores_unknown_players_witness :
  General.updatePlayerHistories Examples.threeMatch
    (freshHistories (map Examples.P ["e"; "f"; "g"; "h"]))
  = (Ok tt, freshHistories (map Examples.P ["e"; "f"; "g"; "h"])).
Proof.
  apply (updatePlayerHistories_ignores_unknown_players Examples.threeMatch).
  intros p Hp. simpl in Hp.
  repeat (apply elem_of_cons in Hp as [->|Hp]; [reflexivity|]).
  by apply elem_of_nil in Hp.
Defined.

(** X13.  A match with an odd number of players, one of which at least is in the
    histories, raises a [TypeError]; by then the game has been counted for
    every player of the match that the histories hold, and the histories
    still hold the same players under the same keys. *)
Theorem updatePlayerHistories_odd_match_throws
    (m : Match) (h : General.Histories) :
  Nat.even (length (players m)) = false ->
  (exists p, p ∈ players m /\ is_Some (mapGet (playerId p) h)) ->
  exists h',
    General.updatePlayerHistories m h = (Throw typeError, h')
    /\ (forall k, gamesOf h' k = (fun n => n + timesIn k [m]) <$> gamesOf h k)
    /\ roll h' = roll h.
Proof.
  intros Hodd (p & Hp & Hs).
  pose proof (GeneralSession.updatePlayerHistories_roll m h) as Hroll.
  unfold General.updatePlayerHistories, bind in *.
  set (h1 := foldl (fun hs q => mapAlter General.played (playerId q) hs) h (players m)) in *.
  destruct (UpdateFacts.linkPlayers_odd (players m) 0 (players m) h1 Hodd)
    as (h' & Heq & Hgames).
  - exists p. split; [done|].
    pose proof (UpdateFacts.played_gamesOf m h (playerId p)) as Hg. fold h1 in Hg.
    unfold gamesOf in Hg. destruct Hs as [x Hx]. rewrite Hx in Hg. simpl in Hg.
    destruct (mapGet (playerId p) h1); [done|discriminate].
  - rewrite Heq in *. exists h'. split; [done|]. split; [|done].
    intros k. rewrite Hgames. apply UpdateFacts.played_gamesOf.
Qed.

Lemma updatePlayerHistories_odd_match_throws_witness :
  exists h',
    General.updatePlayerHistories Examples.threeMatch (freshHistories Examples.fourPlayers)
    = (Throw typeError, h')
    /\ gamesOf h' "a" = Some 1
    /\ gamesOf h' "d" = Some 0.
Proof.
  destruct (updatePlayerHistories_odd_match_throws Examples.threeMatch
              (freshHistories Examples.fourPlayers))
    as (h' & Heq & Hg & _).
  - reflexivity.
  - exists (Examples.P "a"). split; [by left|]. by eexists.
  - exists h'. split; [exact Heq|]. by rewrite !Hg.
Defined.

(** X14.  Recording keeps the partner and opponent relations symmetric: when the
    matches list an even number of players and nobody twice, all of them are
    recorded, and afterwards one player is a partner (an opponent) of another
    exactly when the other is a partner (an opponent) of the first. *)
Theorem updateAll_keeps_relations_symmetric
    (ms : list Match) (h : General.Histories) :
  symmetric h ->
  Forall (fun m => Nat.even (length (players m)) = true /\ NoDup (ids (players m))) ms ->
  exists h', General.updateAll ms h = (Ok tt, h') /\ symmetric h'.
Proof.
  intros Hsym Hms. exists (recordedAll ms h). split.
  - apply GeneralRound.updateAll_even. eapply Forall_impl; [exact Hms|]. by intros m [? _].
  - revert h Hsym. induction Hms as [|m ms [_ Hnd] _ IH]; intros h Hsym; [done|].
    cbn [recordedAll foldl]. apply IH. by apply UpdateFacts.recorded_symmetric.
Qed.

Lemma updateAll_keeps_relations_symmetric_witness :
  exists h',
    General.updateAll [Examples.firstMatch; Examples.singlesMatch]
      (freshHistories Examples.fourPlayers) = (Ok tt, h')
    /\ symmetric h'.
Proof.
  apply (updateAll_keeps_relations_symmetric [Examples.firstMatch; Examples.singlesMatch]).
  - intros k1 k2 h1 h2 H1 H2.
    assert (Hempty : forall k x, mapGet k (freshHistories Examples.fourPlayers) = Some x ->
                                 General.partners x = ∅ /\ General.opponents x = ∅).
    { intros k x. simpl.
      repeat (destruct (String.eqb k _); [by intros [= <-]|]). done. }
    destruct (Hempty _ _ H1) as [-> ->]. destruct (Hempty _ _ H2) as [-> ->].
    split; split; by intros ?%elem_of_empty.
  - repeat constructor; try reflexivity; apply (bool_decide_unpack _); vm_compute; exact I.
Defined.


(** ** Rounds and the module state *)

Module RoundFacts.
Import General GeneralFacts GeneralRound.


Lemma recordedAll_roll (ms : list Match) (h : Histories) :
  roll (recordedAll ms h) = roll h.
Proof.
  revert h. induction ms as [|m ms IH]; intros h; [done|].
  cbn [recordedAll foldl]. fold (recordedAll ms (recorded m h)). rewrite IH.
  unfold recorded, roll. rewrite linkAll_project by done. by apply played_project.
Qed.

Lemma generateRound_state ps courts (e : Env) :
  exists ms e',
    generateRound ps courts e = (Ok ms, e')
    /\ length ms = roundSize (length (globalPlayerHistories e)) courts
    /\ roll (globalPlayerHistories e') = roll (globalPlayerHistories e)
    /\ currentRound e' = currentRound e.
Proof.
  destruct (generateRound_spec ps courts e)
    as (ms & e' & Hgen & Hn & _ & _ & _ & Hh & Hround & _).
  exists ms, e'. split; [done|]. split; [done|]. split; [|done].
  rewrite Hh. apply recordedAll_roll.
Qed.

(** [generateSession] after its reset. *)
Lemma generateSession_reset roster courts (prev : list Match) (e : Env) :
  4 <= length roster ->
  generateSession roster courts prev e
  = (let* _ := liftH (updateAll prev) in
     let* matches := generateRound roster courts in
     ret (mkSession roster courts matches))
      (mkEnv 1 (foldl (fun hs p => mapSet (playerId p) (createPlayerHistory p) hs)
                      [] roster)
             (ambient e)).
Proof.
  intros Hlen. unfold generateSession.
  destruct (Nat.ltb_spec (length roster) 4); [lia|]. reflexivity.
Qed.
End RoundFacts.



(** X16.  [generateSession] starts afresh: with four players or more, what it
    returns and the state it leaves do not depend on the round counter and
    the histories of an earlier session, and the round counter is 1
    afterwards, also when recording the previous matches raised. *)
Theorem generateSession_starts_afresh
    (roster : list Player) (courts : nat) (prev : list Match) (e1 e2 : General.Env) :
  4 <= length roster ->
  General.ambient e1 = General.ambient e2 ->
  General.generateSession roster courts prev e1 = General.generateSession roster courts prev e2
  /\ General.currentRound (snd (General.generateSession roster courts prev e1)) = 1.
Proof.
  intros Hlen Hamb. rewrite !RoundFacts.generateSession_reset by done.
  rewrite Hamb. split; [done|].
  unfold bind at 1. unfold General.liftH at 1.
  cbn [General.currentRound General.globalPlayerHistories General.ambient].
  destruct (General.updateAll prev _) as [[[]|msg] h1]; [|done].
  unfold bind.
  destruct (RoundFacts.generateRound_state roster courts (General.mkEnv 1 h1 (General.ambient e2)))
    as (ms & e' & -> & _ & _ & Hround).
  done.
Qed.

Lemma generateSession_starts_afresh_witness :
  General.generateSession Examples.fourPlayers 1 []
    (General.mkEnv 7 (recorded Examples.firstMatch (freshHistories Examples.eightPlayers))
       Examples.quietWorld)
  = General.generateSession Examples.fourPlayers 1 [] (General.initialEnv Examples.quietWorld).
Proof.
  apply (generateSession_starts_afresh Examples.fourPlayers 1 []).
  - simpl. lia.
  - reflexivity.
Defined.

(** X17.  [generateNextRound] and the module state.  A call that returns has added
    one to the round counter, also when the round it returns is empty; a call
    that raises leaves the counter as it was.  Either way the histories hold
    the same players under the same keys, in the same order, as before.  The
    call returns whenever every completed match lists an even number of
    players. *)
Theorem generateNextRound_advances_round
    (ps : list Player) (courts : nat) (completed : list Match) (e : General.Env) :
  exists r e',
    General.generateNextRound ps courts completed e = (r, e')
    /\ General.getCurrentRound e'
       = (Ok (General.currentRound e + match r with Ok _ => 1 | Throw _ => 0 end), e')
    /\ roll (General.globalPlayerHistories e') = roll (General.globalPlayerHistories e)
    /\ match r with
       | Ok ms => length ms = roundSize (length (General.globalPlayerHistories e)) courts
       | Throw msg => msg = typeError /\ ~ evenSized completed
       end.
Proof.
  unfold General.generateNextRound. unfold bind at 1. unfold General.liftH at 1.
  pose proof (GeneralSession.updateAll_roll completed (General.globalPlayerHistories e)) as Hroll.
  destruct (GeneralSession.updateAll_outcome completed (General.globalPlayerHistories e))
    as [[h1 Hu]|(h1 & Hu & Hodd)]; rewrite Hu in *; simpl in Hroll.
  - unfold bind at 1, get. unfold bind at 1, General.setCurrentRound.
    cbn [General.currentRound General.globalPlayerHistories General.ambient].
    destruct (RoundFacts.generateRound_state ps courts
                (General.mkEnv (General.currentRound e + 1) h1 (General.ambient e)))
      as (ms & e' & -> & Hn & Hr & Hround).
    simpl in *. exists (Ok ms), e'. split; [done|]. split; [|split].
    + unfold General.getCurrentRound, bind, get, ret. by rewrite Hround.
    + by rewrite Hr.
    + rewrite Hn. f_equal. apply (f_equal length) in Hroll. unfold roll in Hroll.
      by rewrite !length_map in Hroll.
  - eexists _, _. split; [reflexivity|]. simpl. split; [|split; [done|done]].
    unfold General.getCurrentRound, bind, get, ret. simpl. by rewrite Nat.add_0_r.
Qed.


(** * Further properties of the matches page *)

Module PageInvariant.
Import Page.

Lemma playsIn_spec (m : Match) (stat : PlayerStats) :
  playsIn m stat = true <-> playerId (player stat) ∈ ids (players m).
Proof.
  unfold playsIn, ids. rewrite existsb_exists, list_elem_of_fmap. split.
  - intros (q & Hq & Heq). apply String.eqb_eq in Heq. exists q.
    split; [done|]. by apply list_elem_of_In.
  - intros (q & Heq & Hq). exists q. split; [by apply list_elem_of_In|].
    apply String.eqb_eq. done.
Qed.

Lemma find_map {A : Type} (f : A -> bool) (g : A -> A) (l : list A) :
  (forall x, f (g x) = f x) -> List.find f (map g l) = g <$> List.find f l.
Proof.
  intros Hfg. induction l as [|x l IH]; simpl; [done|].
  rewrite Hfg. by destruct (f x).
Qed.

Lemma find_elem {A : Type} (f : A -> bool) (l : list A) (x : A) :
  List.find f l = Some x -> x ∈ l /\ f x = true.
Proof. intros [Hin Hf]%List.find_some. split; [by apply list_elem_of_In|done]. Qed.

Lemma filter_all {A : Type} (f : A -> bool) (l : list A) :
  (forall x, x ∈ l -> f x = true) -> List.filter f l = l.
Proof.
  induction l as [|x l IH]; intros Hall; simpl; [done|].
  rewrite (Hall x) by (by left). rewrite IH; [done|]. intros y Hy. apply Hall. by right.
Qed.

Lemma filter_elem {A : Type} (f : A -> bool) (l : list A) (x : A) :
  x ∈ List.filter f l <-> x ∈ l /\ f x = true.
Proof. rewrite !list_elem_of_In. apply List.filter_In. Qed.

(** Taking the matches with one id out of a list without repeated ids
    takes out one match. *)
Lemma count_remove (P : Match -> Prop) `{!forall m, Decision (P m)}
    (l : list Match) (m0 : Match) :
  NoDup (map matchId l) -> m0 ∈ l ->
  length (filter P l)
  = length (filter P (List.filter
                        (fun m => negb (String.eqb (matchId m) (matchId m0))) l))
    + (if decide (P m0) then 1 else 0).
Proof.
  induction l as [|m l IH]; intros Hnd Hin; [by apply elem_of_nil in Hin|].
  simpl in Hnd. apply NoDup_cons in Hnd as [Hm Hnd].
  assert (Hids : forall x, x ∈ l -> matchId x <> matchId m).
  { intros x Hx Heq. apply Hm. rewrite <- Heq. apply list_elem_of_fmap. by exists x. }
  destruct (decide (m0 = m)) as [->|Hne].
  - cbn [List.filter]. rewrite String.eqb_refl. cbn [negb]. rewrite filter_all.
    + rewrite filter_cons. destruct (decide (P m)); simpl; lia.
    + intros x Hx. apply negb_true_iff, String.eqb_neq. by apply Hids.
  - apply elem_of_cons in Hin as [?|Hin]; [done|].
    cbn [List.filter]. destruct (String.eqb_spec (matchId m) (matchId m0)) as [Heq|_].
    { exfalso. by apply (Hids m0 Hin). }
    cbn [negb]. rewrite !filter_cons. specialize (IH Hnd Hin).
    destruct (decide (P m)); cbn [length]; lia.
Qed.

Section Session.
Variable initialSession : Session.

Lemma invariant_mount :
  NoDup (map matchId (matches initialSession)) ->
  pageInvariant initialSession (syncSession (initialState initialSession)).
Proof.
  intros Hnd.
  set (s := syncSession (initialState initialSession)).
  assert (Hsts : matchStates s
                 = map (fun m => mkMatchState m false None 1) (matches initialSession))
    by reflexivity.
  assert (Hst : playerStats s
                = map (fun p => mkStats p 0 0) (sessionPlayers initialSession))
    by reflexivity.
  assert (Hdone : allCompletedMatches s = []) by reflexivity.
  assert (Hm : map match_ (matchStates s) = matches initialSession).
  { rewrite Hsts, map_map. simpl. apply map_id. }
  unfold pageInvariant, wellFormed, statsAgree. rewrite Hdone, Hst.
  split; [split; [|split]|split; [|split; [|split; [|split; [|split; [|split]]]]]].
  - rewrite <- (map_map match_ matchId), Hm. done.
  - rewrite Hsts. intros ms (m & -> & _)%list_elem_of_fmap. done.
  - intros m Hm'. by apply elem_of_nil in Hm'.
  - apply NoDup_nil_2.
  - done.
  - intros stat (p & -> & _)%list_elem_of_fmap. done.
  - done.
  - done.
  - rewrite map_map. simpl. apply map_id.
  - intros m Hm'. by apply elem_of_nil in Hm'.
Qed.

Lemma invariant_complete (now : nat) (id : string) (s : State) :
  pageInvariant initialSession s ->
  pageInvariant initialSession (handleMatchComplete now id s).
Proof.
  intros Hinv. pose proof Hinv as (Hwf & Hnd & Hlast & Hstats & Hses & Hms & Hpl & Hsub).
  pose proof (PageFacts.wellFormed_complete now id s Hwf) as Hwf'.
  unfold handleMatchComplete in *.
  destruct (List.find (hasId id) (matchStates s)) as [ms0|] eqn:Hfind; [|exact Hinv].
  destruct (completed ms0) eqn:Hc; [exact Hinv|].
  apply find_elem in Hfind as [Hin0 Hid0].
  destruct Hwf as (Hids & _ & Hflag).
  split; [exact Hwf'|]. simpl. split; [|split; [|split; [|split; [|split; [|split]]]]].
  - rewrite map_app. apply NoDup_app. split; [done|]. split; [|apply NoDup_singleton].
    intros k (m & -> & Hm)%list_elem_of_fmap Hk. simpl in Hk.
    apply list_elem_of_singleton in Hk.
    destruct (Hflag m Hm) as (ms & Hms' & Heq & Hdone).
    assert (ms = ms0) as -> by (eapply PageFacts.same_id; [exact Hids|done|done|congruence]).
    congruence.
  - intros l [= <-]. apply elem_of_app. right. by left.
  - unfold statsAgree. cbn [allCompletedMatches playerStats].
    intros stat (st0 & -> & Hst0)%list_elem_of_fmap.
    destruct (Hstats st0 Hst0) as [Hd Hsg].
    unfold doublesIn, singlesIn in *.
    rewrite !filter_app, !length_app, !filter_cons, !filter_nil.
    destruct (playsIn (match_ ms0) st0) eqn:Hp.
    + apply playsIn_spec in Hp.
      cbn [player doublesMatchesPlayed singlesMatchesPlayed].
      destruct (Nat.eqb_spec (length (players (match_ ms0))) 4) as [H4|H4];
        cbn [negb].
      * rewrite decide_True by done. rewrite decide_False by tauto.
        cbn [length]. lia.
      * rewrite decide_False by tauto. rewrite decide_True by done.
        cbn [length]. lia.
    + assert (Hout : playerId (player st0) ∉ ids (players (match_ ms0))).
      { intros Hin. apply playsIn_spec in Hin. congruence. }
      rewrite !decide_False by tauto. cbn [length]. lia.
  - done.
  - rewrite <- Hms. rewrite <- list_fmap_compose. apply list_fmap_ext.
    intros i ms _. simpl. by destruct (hasId id ms).
  - rewrite <- Hpl. rewrite <- list_fmap_compose. apply list_fmap_ext.
    intros i st _. simpl. by destruct (playsIn (match_ ms0) st).
  - intros m [Hm|Hm%list_elem_of_singleton]%elem_of_app; [by apply Hsub|].
    subst m. rewrite <- Hms. apply list_elem_of_fmap. by exists ms0.
Qed.

Lemma invariant_undo (s : State) :
  pageInvariant initialSession s -> pageInvariant initialSession (handleUndo s).
Proof.
  intros Hinv. pose proof Hinv as (Hwf & Hnd & Hlast & Hstats & Hses & Hms & Hpl & Hsub).
  pose proof (PageFacts.wellFormed_undo s Hwf) as Hwf'.
  unfold handleUndo in *.
  destruct (lastCompletedMatch s) as [l|] eqn:Hl; [|exact Hinv].
  specialize (Hlast l eq_refl).
  split; [exact Hwf'|]. simpl. split; [|split; [|split; [|split; [|split; [|split]]]]].
  - assert (Hs : forall (f : Match -> bool) (ms : list Match),
              map matchId (List.filter f ms) `sublist_of` map matchId ms).
    { intros f ms. apply fmap_sublist.
      induction ms as [|m ms IH]; simpl; [constructor|].
      destruct (f m); [by constructor|by apply sublist_cons]. }
    eauto using sublist_NoDup.
  - done.
  - unfold statsAgree. cbn [allCompletedMatches playerStats].
    intros stat (st0 & -> & Hst0)%list_elem_of_fmap.
    destruct (Hstats st0 Hst0) as [Hd Hsg].
    unfold doublesIn, singlesIn in *.
    rewrite (count_remove _ _ (match_ l) Hnd Hlast) in Hd.
    rewrite (count_remove _ _ (match_ l) Hnd Hlast) in Hsg.
    destruct (playsIn (match_ l) st0) eqn:Hp.
    + apply playsIn_spec in Hp.
      cbn [player doublesMatchesPlayed singlesMatchesPlayed].
      destruct (Nat.eqb_spec (length (players (match_ l))) 4) as [H4|H4]; cbn [negb].
      * rewrite decide_True in Hd by done. rewrite decide_False in Hsg by tauto. lia.
      * rewrite decide_False in Hd by tauto. rewrite decide_True in Hsg by done. lia.
    + assert (Hout : playerId (player st0) ∉ ids (players (match_ l))).
      { intros Hin. apply playsIn_spec in Hin. congruence. }
      rewrite decide_False in Hd by tauto. rewrite decide_False in Hsg by tauto. lia.
  - done.
  - rewrite <- Hms. rewrite <- list_fmap_compose. apply list_fmap_ext.
    intros i ms _. simpl. by destruct (hasId _ ms).
  - rewrite <- Hpl. rewrite <- list_fmap_compose. apply list_fmap_ext.
    intros i st _. simpl. by destruct (playsIn (match_ l) st).
  - intros m [Hm _]%filter_elem. by apply Hsub.
Qed.

Lemma invariant_pageAfter (actions : list Action) :
  NoDup (map matchId (matches initialSession)) ->
  pageInvariant initialSession (pageAfter initialSession actions).
Proof.
  intros Hnd. unfold pageAfter.
  induction actions as [|a actions IH] using rev_ind; [by apply invariant_mount|].
  rewrite foldl_app. cbn [foldl].
  destruct a as [now id|]; [by apply invariant_complete|by apply invariant_undo].
Qed.

(** On a state that satisfies the invariant the session effect changes
    nothing. *)
Lemma syncSession_invariant (s : State) :
  pageInvariant initialSession s -> syncSession s = s.
Proof.
  intros ((Hids & _) & _ & _ & _ & Hses & Hms & Hpl & _).
  unfold syncSession. destruct s as [ses sts stats done_ last rnd]. simpl in *. subst ses.
  f_equal.
  - rewrite <- Hms. rewrite <- list_fmap_compose.
    transitivity (map id sts); [|apply list_fmap_id].
    apply list_fmap_ext. intros i ms Hi. simpl.
    rewrite (PageFacts.find_hasId (matchId (match_ ms)) sts ms Hids); [done| |done].
    by eapply list_elem_of_lookup_2.
  - destruct stats as [|st stats]; [|done]. simpl in *. by rewrite <- Hpl.
Qed.
End Session.
End PageInvariant.

(** X18.  However the user completes and undoes matches of a session whose match
    ids are distinct, the page stays consistent: match ids stay unique, a
    pending match has no completion time, the completed list holds each match
    at most once, only matches of the session that are flagged completed, and
    the match shown for undo is in it; the page lists the matches and the
    players of the session, in order. *)
Theorem page_states_stay_consistent
    (initialSession : Session) (actions : list Action) :
  NoDup (map matchId (matches initialSession)) ->
  let s := pageAfter initialSession actions in
  wellFormed s
  /\ NoDup (map matchId (Page.allCompletedMatches s))
  /\ (forall m, m ∈ Page.allCompletedMatches s -> m ∈ matches initialSession)
  /\ (forall l, Page.lastCompletedMatch s = Some l ->
        Page.match_ l ∈ Page.allCompletedMatches s)
  /\ Page.session s = initialSession
  /\ map Page.match_ (Page.matchStates s) = matches initialSession
  /\ map Page.player (Page.playerStats s) = sessionPlayers initialSession.
Proof.
  intros Hnd s.
  destruct (PageInvariant.invariant_pageAfter initialSession actions Hnd)
    as (Hwf & Hc & Hlast & _ & Hses & Hms & Hpl & Hsub).
  split; [exact Hwf|]. by repeat split.
Qed.

Lemma page_states_stay_consistent_witness :
  wellFormed (pageAfter (mkSession Examples.fourPlayers 1 [Examples.firstMatch])
                [Complete 5 "m0"; Complete 6 "m0"; Undo; Undo; Complete 9 "m0"]).
Proof.
  apply (page_states_stay_consistent (mkSession Examples.fourPlayers 1 [Examples.firstMatch])
           [Complete 5 "m0"; Complete 6 "m0"; Undo; Undo; Complete 9 "m0"]).
  apply (bool_decide_unpack _). vm_compute. exact I.
Defined.

(** X19.  The statistics shown always equal the counts over the completed matches:
    after any sequence of completions and undos, the doubles count of a
    player is the number of completed four-player matches that list it, and
    its singles count the number of completed matches of another size that
    list it. *)
Theorem page_statistics_count_completed_matches
    (initialSession : Session) (actions : list Action) :
  NoDup (map matchId (matches initialSession)) ->
  let s := pageAfter initialSession actions in
  forall stat, stat ∈ Page.playerStats s ->
    Page.doublesMatchesPlayed stat
    = doublesIn (Page.allCompletedMatches s) (Page.player stat)
    /\ Page.singlesMatchesPlayed stat
       = singlesIn (Page.allCompletedMatches s) (Page.player stat).
Proof.
  intros Hnd s.
  by destruct (PageInvariant.invariant_pageAfter initialSession actions Hnd)
    as (_ & _ & _ & Hstats & _).
Qed.

Lemma page_statistics_count_completed_matches_witness :
  Forall (fun stat =>
            Page.doublesMatchesPlayed stat
            = doublesIn
                (Page.allCompletedMatches
                   (pageAfter (mkSession Examples.sixPlayers 2
                                 [Examples.firstMatch; Examples.singlesMatch])
                      [Complete 5 "m1"; Complete 6 "m0"; Undo]))
                (Page.player stat))
         (Page.playerStats
            (pageAfter (mkSession Examples.sixPlayers 2
                          [Examples.firstMatch; Examples.singlesMatch])
               [Complete 5 "m1"; Complete 6 "m0"; Undo])).
Proof.
  apply Forall_forall. intros stat Hstat.
  apply (page_statistics_count_completed_matches
           (mkSession Examples.sixPlayers 2 [Examples.firstMatch; Examples.singlesMatch])
           [Complete 5 "m1"; Complete 6 "m0"; Undo]).
  - apply (bool_decide_unpack _). vm_compute. exact I.
  - exact Hstat.
Defined.

(** X20.  Running the session effect again, after any sequence of completions and
    undos, changes nothing: no completed flag is reset and no statistic is
    recreated. *)
Theorem session_effect_keeps_progress
    (initialSession : Session) (actions : list Action) :
  NoDup (map matchId (matches initialSession)) ->
  Page.syncSession (pageAfter initialSession actions) = pageAfter initialSession actions.
Proof.
  intros Hnd. apply (PageInvariant.syncSession_invariant initialSession).
  by apply PageInvariant.invariant_pageAfter.
Qed.

Lemma session_effect_keeps_progress_witness :
  Page.syncSession
    (pageAfter (mkSession Examples.fourPlayers 1 [Examples.firstMatch]) [Complete 5 "m0"])
  = pageAfter (mkSession Examples.fourPlayers 1 [Examples.firstMatch]) [Complete 5 "m0"].
Proof.
  apply (session_effect_keeps_progress
           (mkSession Examples.fourPlayers 1 [Examples.firstMatch]) [Complete 5 "m0"]).
  apply (bool_decide_unpack _). vm_compute. exact I.
Defined.

(** X21.  Completing a match a second time changes nothing, whatever the state:
    the match is listed once among the completed matches and counted once. *)
Theorem handleMatchComplete_idempotent
    (now now' : nat) (matchId' : string) (s : Page.State) :
  Page.handleMatchComplete now' matchId' (Page.handleMatchComplete now matchId' s)
  = Page.handleMatchComplete now matchId' s.
Proof.
  destruct (Page.handleMatchComplete now matchId' s) as [ses sts stats done_ last rnd] eqn:Hs1.
  unfold Page.handleMatchComplete in Hs1.
  destruct (List.find (Page.hasId matchId') (Page.matchStates s)) as [ms0|] eqn:Hfind.
  - destruct (Page.completed ms0) eqn:Hc.
    + subst s. unfold Page.handleMatchComplete. by rewrite Hfind, Hc.
    + injection Hs1 as <- <- <- <- <- <-.
      unfold Page.handleMatchComplete. cbn [Page.matchStates].
      rewrite PageInvariant.find_map.
      * rewrite Hfind. apply PageInvariant.find_elem in Hfind as [_ Hid].
        simpl. rewrite Hid. done.
      * intros ms. destruct (Page.hasId matchId' ms) eqn:Hid'; [exact Hid'|exact Hid'].
  - subst s. unfold Page.handleMatchComplete. by rewrite Hfind.
Qed.

(** ** Grouping by round *)

Module GroupFacts.
Import Page.

(** The groups after more match states are folded in. *)
Lemma matchesByRound_fold (sts : list MatchState) (acc : gmap nat (list MatchState))
    (r : nat) :
  foldl (fun acc ms =>
           let round := roundOf ms in
           let acc := match acc !! round with
                      | None => <[round := []]> acc
                      | Some _ => acc
                      end in
           alter (fun group => group ++ [ms]) round acc)
        acc sts !! r
  = match acc !! r, filter (fun ms => roundOf ms = r) sts with
    | None, [] => None
    | None, g => Some g
    | Some a, g => Some (a ++ g)
    end.
Proof.
  revert acc. induction sts as [|ms sts IH]; intros acc.
  - simpl. destruct (acc !! r); [by rewrite app_nil_r|done].
  - cbn [foldl]. rewrite IH. cbv zeta. rewrite filter_cons.
    destruct (decide (roundOf ms = r)) as [<-|Hne].
    + destruct (acc !! roundOf ms) as [a|] eqn:Ha.
      * rewrite lookup_alter_eq, Ha. simpl. by rewrite <- app_assoc.
      * rewrite lookup_alter_eq, lookup_insert_eq. simpl. done.
    + rewrite lookup_alter_ne by done.
      destruct (acc !! roundOf ms) as [a|] eqn:Ha; [done|].
      by rewrite lookup_insert_ne.
Qed.
End GroupFacts.

(** X22.  [matchesByRound] groups the match states by round and loses none: the
    group of a round holds exactly the states of that round, in the order of
    the list, a round without a state has no group, and a state whose round
    is 0 is shown in round 1. *)
Theorem matchesByRound_groups (matchStates : list Page.MatchState) (r : nat) :
  Page.matchesByRound matchStates !! r
  = match filter (fun ms => (if Page.round ms =? 0 then 1 else Page.round ms) = r)
                 matchStates with
    | [] => None
    | g => Some g
    end.
Proof.
  unfold Page.matchesByRound. rewrite GroupFacts.matchesByRound_fold.
  rewrite lookup_empty. done.
Qed.


(** * The roster form *)

Module SetupFacts.

(** The general [generateSession] without previous matches always returns
    on four players or more, also when ids repeat. *)
Lemma general_generateSession_fresh (roster : list Player) (courts : nat) (e : General.Env) :
  4 <= length roster ->
  exists ms e',
    General.generateSession roster courts [] e = (Ok (mkSession roster courts ms), e').
Proof.
  intros Hlen. rewrite RoundFacts.generateSession_reset by done.
  unfold bind at 1. unfold General.liftH at 1.
  cbn [General.updateAll ret General.currentRound General.globalPlayerHistories
       General.ambient].
  unfold bind.
  destruct (RoundFacts.generateRound_state roster courts
              (General.mkEnv 1
                 (foldl (fun hs p => mapSet (playerId p) (General.createPlayerHistory p) hs)
                        [] roster)
                 (General.ambient e)))
    as (ms & e' & -> & _).
  by exists ms, e'.
Qed.
End SetupFacts.

(** X23.  [generateMatches] with either generator.  With fewer than four players
    no session is handed over, the error shown is the validation message and
    nothing else changes; with four players or more a session on the form's
    players and courts is handed over and the error is cleared, whatever the
    players are. *)
Theorem generateMatches_reports_only_too_few_players
    (s : Setup.State) (w : World) (e : General.Env) :
  (length (Setup.players s) < 4 ->
   Setup.generateMatches Fixed.generateSession s w
   = (None, Setup.mkState (Setup.players s) (Setup.numberOfCourts s)
              (Some "Need at least 4 players to generate matches"), w)
   /\ Setup.generateMatches General.generateSession s e
      = (None, Setup.mkState (Setup.players s) (Setup.numberOfCourts s)
                 (Some "Need at least 4 players to generate matches"), e))
  /\ (4 <= length (Setup.players s) ->
      (exists ms w',
         Setup.generateMatches Fixed.generateSession s w
         = (Some (mkSession (Setup.players s) (Setup.numberOfCourts s) ms),
            Setup.mkState (Setup.players s) (Setup.numberOfCourts s) None, w'))
      /\ (exists ms e',
            Setup.generateMatches General.generateSession s e
            = (Some (mkSession (Setup.players s) (Setup.numberOfCourts s) ms),
               Setup.mkState (Setup.players s) (Setup.numberOfCourts s) None, e'))).
Proof.
  split.
  - intros Hlen. unfold Setup.generateMatches, Fixed.generateSession, General.generateSession.
    destruct (Nat.ltb_spec (length (Setup.players s)) 4); [done|lia].
  - intros Hlen. split.
    + destruct (fixed_generateSession_total (Setup.players s) (Setup.numberOfCourts s) [] w Hlen)
        as (ms & w' & Heq & _).
      exists ms, w'. unfold Setup.generateMatches. by rewrite Heq.
    + destruct (SetupFacts.general_generateSession_fresh (Setup.players s)
                  (Setup.numberOfCourts s) e Hlen) as (ms & e' & Heq).
      exists ms, e'. unfold Setup.generateMatches. by rewrite Heq.
Qed.

Lemma generateMatches_reports_only_too_few_players_witness :
  Setup.generateMatches Fixed.generateSession
    (Setup.mkState (map Examples.P ["a"; "b"; "c"]) 1 None) Examples.quietWorld
  = (None, Setup.mkState (map Examples.P ["a"; "b"; "c"]) 1
             (Some "Need at least 4 players to generate matches"), Examples.quietWorld)
  /\ exists ms w',
       Setup.generateMatches Fixed.generateSession
         (Setup.mkState Examples.sixPlayers 2 (Some "old")) Examples.quietWorld
       = (Some (mkSession Examples.sixPlayers 2 ms),
          Setup.mkState Examples.sixPlayers 2 None, w').
Proof.
  split.
  - apply (generateMatches_reports_only_too_few_players
             (Setup.mkState (map Examples.P ["a"; "b"; "c"]) 1 None)
             Examples.quietWorld (General.initialEnv Examples.quietWorld)).
    simpl. lia.
  - apply (generateMatches_reports_only_too_few_players
             (Setup.mkState Examples.sixPlayers 2 (Some "old"))
             Examples.quietWorld (General.initialEnv Examples.quietWorld)).
    simpl. lia.
Defined.

